(** * Full-text index: tokenizer, metadata codec, index maintenance and query
      executor of [FullTextIndex], embedded from the TypeScript source.

    - Strings are sequences of code units ([string], one byte each); word
      positions are naturals in binary ([N]); a number that may be [NaN] is
      [JS.num]; the values records hold are [JS.value].
    - A [Map] and an object's own keys are association lists in insertion
      order.
    - The loops the source writes as [while (true)] and the recursive entry
      points take a fuel argument and answer [OutOfFuel] when it runs out:
      a call that answers [OutOfFuel] for every fuel does not return.
    - What the index takes from outside is a parameter: the transliterator,
      locale lower-casing, the regular-expression engine and prototype
      members ([Host]); the generic index it extends ([Substrate]).
    - Calls on the substrate are logged in the state, next to the cache.
      Promises started together run here one after the other, in the order
      the source starts them. Statistics and logging are left out. *)

From Stdlib Require Import String Ascii List ZArith NArith Lia Bool Arith.
From Stdlib Require Import Permutation Sorted.
Import ListNotations.
Open Scope string_scope.
Set Warnings "-register-all".

(* ================================================================== *)
(** ** Outcomes of a call *)

Inductive error :=
| TypeError
| SyntaxError
| RangeError
| AssertionError
| NotImplemented
| UnsupportedOperator
| SubstrateError.

Inductive result (A : Type) :=
| Ok (a : A)
| Throw (e : error)
| OutOfFuel.
Arguments Ok {A} a.
Arguments Throw {A} e.
Arguments OutOfFuel {A}.

Definition rbind {A B} (r : result A) (k : A -> result B) : result B :=
  match r with
  | Ok a => k a
  | Throw e => Throw e
  | OutOfFuel => OutOfFuel
  end.

Notation "x <?- r ;; k" := (rbind r (fun x => k))
  (at level 61, r at next level, right associativity).

(* ================================================================== *)
(** ** Host language primitives *)

Module JS.

(** A number as the phrase checker sees it: an integer or [NaN]. *)
Inductive num :=
| NaN
| Int (z : Z).

Definition num_add (a b : num) : num :=
  match a, b with
  | Int x, Int y => Int (x + y)
  | _, _ => NaN
  end.

(** [SameValueZero], the comparison of [Array.prototype.includes]. *)
Definition same_value_zero (a b : num) : bool :=
  match a, b with
  | NaN, NaN => true
  | Int x, Int y => Z.eqb x y
  | _, _ => false
  end.

Definition includes_num (l : list num) (x : num) : bool :=
  existsb (same_value_zero x) l.

(** *** Strings *)

Definition str1 (c : ascii) : string := String c EmptyString.

(** [haystack.indexOf(needle)] as [option]: [None] is the source's [-1]. *)
Fixpoint index_of (needle s : string) : option nat :=
  if prefix needle s then Some 0
  else match s with
       | EmptyString => None
       | String _ s' => option_map S (index_of needle s')
       end.

(** [s.indexOf(needle, from)]. *)
Definition indexOf (needle s : string) (from : nat) : Z :=
  let from' := Nat.min from (String.length s) in
  match index_of needle (substring from' (String.length s - from') s) with
  | Some i => Z.of_nat (from' + i)
  | None => (-1)%Z
  end.

Definition includes (needle s : string) : bool :=
  match index_of needle s with Some _ => true | None => false end.

(** [s.split(sep)] for a non-empty separator: leftmost, non-overlapping. *)
Fixpoint split_go (sep : string) (skip : nat) (cur : string) (s : string)
  : list string :=
  match s with
  | EmptyString => [cur]
  | String c s' =>
      match skip with
      | S k => split_go sep k cur s'
      | O =>
          if prefix sep s
          then cur :: split_go sep (String.length sep - 1) EmptyString s'
          else split_go sep 0 (cur ++ str1 c) s'
      end
  end.

Definition split (sep s : string) : list string := split_go sep 0 EmptyString s.

(** [arr.join(sep)] on strings. *)
Definition join (sep : string) (l : list string) : string := String.concat sep l.

(** Relative index of [slice]: negative counts from the end. *)
Definition rel_index (len : nat) (i : Z) : nat :=
  if (i <? 0)%Z then Z.to_nat (Z.max 0 (Z.of_nat len + i))
  else Nat.min (Z.to_nat i) len.

(** [s.slice(start, end)]. *)
Definition slice (s : string) (start stop : Z) : string :=
  let a := rel_index (String.length s) start in
  let b := rel_index (String.length s) stop in
  substring a (b - a) s.

(** [s.slice(start)]. *)
Definition slice_from (s : string) (start : Z) : string :=
  let a := rel_index (String.length s) start in
  substring a (String.length s - a) s.

(** [s.lastIndexOf(needle, pos)]: the greatest start index [<= pos] at which
    [needle] occurs, [-1] when there is none. *)
Fixpoint lastIndexOf_go (needle s : string) (i pos : nat) (best : Z) : Z :=
  match s with
  | EmptyString =>
      if prefix needle EmptyString && (i <=? pos)%nat then Z.of_nat i else best
  | String _ s' =>
      lastIndexOf_go needle s' (S i) pos
        (if prefix needle s && (i <=? pos)%nat then Z.of_nat i else best)
  end.

Definition lastIndexOf (needle s : string) (pos : nat) : Z :=
  lastIndexOf_go needle s 0 pos (-1).

(** [s.replace(/c/g, by)] for a single character. *)
Fixpoint replace_char (c : ascii) (by_ : string) (s : string) : string :=
  match s with
  | EmptyString => EmptyString
  | String d s' =>
      (if Ascii.eqb c d then by_ else str1 d) ++ replace_char c by_ s'
  end.

Fixpoint string_forallb (p : ascii -> bool) (s : string) : bool :=
  match s with
  | EmptyString => true
  | String c s' => p c && string_forallb p s'
  end.

Definition mem_string (x : string) (l : list string) : bool :=
  existsb (String.eqb x) l.

(** *** Numbers and strings *)

Definition digit_char (d : N) : ascii := ascii_of_N (48 + d).

Fixpoint digits_go (fuel : nat) (n : N) (acc : string) : string :=
  match fuel with
  | O => acc
  | S fuel' =>
      let acc' := String (digit_char (n mod 10)) acc in
      if (n / 10 =? 0)%N then acc' else digits_go fuel' (n / 10) acc'
  end.

(** [String(n)] of a non-negative integer below [10^21]: plain decimal. *)
Definition N_toString (n : N) : string :=
  digits_go (S (N.to_nat (N.log2 n))) n EmptyString.

(** Value of a character as a digit, for any radix up to 36. *)
Definition digit_value (c : ascii) : option Z :=
  let n := Z.of_N (N_of_ascii c) in
  if ((48 <=? n) && (n <=? 57))%Z then Some (n - 48)%Z
  else if ((97 <=? n) && (n <=? 122))%Z then Some (n - 87)%Z
  else if ((65 <=? n) && (n <=? 90))%Z then Some (n - 55)%Z
  else None.

Definition is_white (c : ascii) : bool :=
  let n := N_of_ascii c in
  ((9 <=? n) && (n <=? 13) || (n =? 32))%N.

Fixpoint trim_start (s : string) : string :=
  match s with
  | String c s' => if is_white c then trim_start s' else s
  | EmptyString => EmptyString
  end.

(** Longest prefix of radix-[r] digits, folded into its value; [None] when
    the prefix is empty. *)
Fixpoint parse_digits (r : Z) (s : string) (acc : option Z) : option Z :=
  match s with
  | EmptyString => acc
  | String c s' =>
      match digit_value c with
      | Some d =>
          if (d <? r)%Z
          then parse_digits r s'
                 (Some (match acc with Some a => a * r + d | None => d end)%Z)
          else acc
      | None => acc
      end
  end.

(** [parseInt(s, radix)] of ECMAScript, on integers of the exact range. *)
Definition parseInt (s : string) (radix : Z) : num :=
  let s1 := trim_start s in
  let '(sign, s2) :=
    match s1 with
    | String "-" t => ((-1)%Z, t)
    | String "+" t => (1%Z, t)
    | _ => (1%Z, s1)
    end in
  if ((radix =? 0) || (2 <=? radix) && (radix <=? 36))%Z then
    let strip := ((radix =? 0) || (radix =? 16))%Z in
    let hex := strip && (prefix "0x" s2 || prefix "0X" s2) in
    let r := if hex then 16%Z else if (radix =? 0)%Z then 10%Z else radix in
    let s3 := if hex then substring 2 (String.length s2 - 2) s2 else s2 in
    match parse_digits r s3 None with
    | Some v => Int (sign * v)
    | None => NaN
    end
  else NaN.

(** ASCII lower case. *)
Definition lower_ascii (c : ascii) : ascii :=
  let n := N_of_ascii c in
  if ((65 <=? n) && (n <=? 90))%N then ascii_of_N (n + 32) else c.

Fixpoint toLowerCase (s : string) : string :=
  match s with
  | EmptyString => EmptyString
  | String c s' => String (lower_ascii c) (toLowerCase s')
  end.

(** *** Values *)

(** The values a record, a text key or a locale key can hold. An array is
    modelled with string elements, the arrays a text key holds. *)
Inductive value :=
| VUndefined
| VNull
| VBool (b : bool)
| VNumber (n : num)
| VString (s : string)
| VStrings (l : list string)
| VObject (props : list (string * value))
| VFunction.

Fixpoint assoc {A} (k : string) (l : list (string * A)) : option A :=
  match l with
  | [] => None
  | (k', v) :: l' => if String.eqb k k' then Some v else assoc k l'
  end.

(** Replace the binding of [k] in place, or append it: the insertion order
    of a [Map] and of an object's own keys. *)
Fixpoint assoc_set {A} (k : string) (v : A) (l : list (string * A))
  : list (string * A) :=
  match l with
  | [] => [(k, v)]
  | (k', v') :: l' =>
      if String.eqb k k' then (k, v) :: l' else (k', v') :: assoc_set k v l'
  end.

Fixpoint assoc_delete {A} (k : string) (l : list (string * A))
  : list (string * A) :=
  match l with
  | [] => []
  | (k', v') :: l' =>
      if String.eqb k k' then l' else (k', v') :: assoc_delete k l'
  end.

(** A property name that is a canonical array index. *)
Definition array_index (k : string) : option nat :=
  match parseInt k 10 with
  | Int z =>
      if (0 <=? z)%Z && String.eqb (N_toString (Z.to_N z)) k
      then Some (Z.to_nat z) else None
  | NaN => None
  end.

End JS.
Export JS.

(* ================================================================== *)
(** ** What the embedding takes from its host *)

(** A compiled [RegExp] is its [exec]: on a text and the current
    [lastIndex] it gives the match (its index and its text) and the next
    [lastIndex]. *)
Definition RegExp := string -> nat -> option (nat * string) * nat.

Inductive proto := StringProto | ArrayProto | ObjectProto.

Class Host := {
  (** [unidecode(str)], the transliterator *)
  unidecode : string -> string;
  (** [word.toLocaleLowerCase(locale)]; [None] is its [RangeError] *)
  toLocaleLowerCase : string -> string -> option string;
  (** [new RegExp(pattern, flags)]; [None] is its [SyntaxError] *)
  RegExp_new : string -> string -> option RegExp;
  (** the members a value inherits from its prototype chain *)
  prototype : proto -> string -> option value
}.

Section Tokenizer.
Context {host : Host}.

Definition inherited (p : proto) (k : string) : value :=
  match prototype p k with Some v => v | None => VUndefined end.

(** [v[k]]; reading a property of [null] or [undefined] throws. *)
Definition get_prop (v : value) (k : string) : result value :=
  match v with
  | VUndefined | VNull => Throw TypeError
  | VString s =>
      if String.eqb k "length"
      then Ok (VNumber (Int (Z.of_nat (String.length s))))
      else match array_index k with
           | Some i =>
               match String.get i s with
               | Some c => Ok (VString (str1 c))
               | None => Ok (inherited StringProto k)
               end
           | None => Ok (inherited StringProto k)
           end
  | VStrings l =>
      if String.eqb k "length"
      then Ok (VNumber (Int (Z.of_nat (List.length l))))
      else match array_index k with
           | Some i =>
               match nth_error l i with
               | Some s => Ok (VString s)
               | None => Ok (inherited ArrayProto k)
               end
           | None => Ok (inherited ArrayProto k)
           end
  | VObject props =>
      match assoc k props with
      | Some x => Ok x
      | None => Ok (inherited ObjectProto k)
      end
  | VBool _ | VNumber _ | VFunction => Ok (inherited ObjectProto k)
  end.

(** [v?.[k]] *)
Definition get_prop_opt (v : value) (k : string) : value :=
  match get_prop v k with Ok x => x | _ => VUndefined end.

(** [k in v], for a [v] whose [typeof] is ['object']. *)
Definition has_prop (v : value) (k : string) : bool :=
  match v with
  | VObject props =>
      match assoc k props with
      | Some _ => true
      | None => match prototype ObjectProto k with Some _ => true | None => false end
      end
  | VStrings l =>
      String.eqb k "length"
      || match array_index k with
         | Some i => (i <? List.length l)%nat
         | None => false
         end
      || match prototype ArrayProto k with Some _ => true | None => false end
  | _ => false
  end.

Definition typeof_object (v : value) : bool :=
  match v with VObject _ | VStrings _ => true | _ => false end.

(** [a ?? b] *)
Definition nullish_or (a b : value) : value :=
  match a with VUndefined | VNull => b | _ => a end.

(* ================================================================== *)
(** ** Locale registry: [TextInfo.locales] *)

Record LocaleSettings := {
  ls_pattern : string;
  ls_flags : string;
  ls_stoplist : option (list string)
}.

Definition default_pattern : string := "[A-Za-z0-9']+".
Definition default_flags : string := "gmi".

Definition en_stoplist : list string :=
  ["i"; "me"; "my"; "myself"; "we"; "our"; "ours"; "ourselves"; "you";
   "your"; "yours"; "yourself"; "yourselves"; "he"; "him"; "his";
   "himself"; "she"; "her"; "hers"; "herself"; "it"; "its"; "itself";
   "they"; "them"; "their"; "theirs"; "themselves"; "what"; "which"; "who";
   "whom"; "this"; "that"; "these"; "those"; "am"; "is"; "are"; "was";
   "were"; "be"; "been"; "being"; "have"; "has"; "had"; "having"; "do";
   "does"; "did"; "doing"; "a"; "an"; "the"; "and"; "but"; "if"; "or";
   "because"; "as"; "until"; "while"; "of"; "at"; "by"; "for"; "with";
   "about"; "against"; "between"; "into"; "through"; "during"; "before";
   "after"; "above"; "below"; "to"; "from"; "up"; "down"; "in"; "out";
   "on"; "off"; "over"; "under"; "again"; "further"; "then"; "once";
   "here"; "there"; "when"; "where"; "why"; "how"; "all"; "any"; "both";
   "each"; "few"; "more"; "most"; "other"; "some"; "such"; "no"; "nor";
   "not"; "only"; "own"; "same"; "so"; "than"; "too"; "very"; "s"; "t";
   "can"; "will"; "just"; "don"; "should"; "now"].

(** [typeof this[locale] !== 'undefined'] on the registry object. *)
Definition locale_defined (locale : string) : bool :=
  mem_string locale ["default"; "en"; "get"]
  || match prototype ObjectProto locale with
     | Some VUndefined | None => false
     | Some _ => true
     end.

Definition locales_get (locale : string) : LocaleSettings :=
  let locale1 :=
    if negb (locale_defined locale) && (0 <? indexOf "-" locale 0)%Z
    then nth 1 (split "-" locale) locale
    else locale in
  {| ls_pattern := default_pattern;
     ls_flags := default_flags;
     ls_stoplist := if String.eqb locale1 "en" then Some en_stoplist else None |}.

(* ================================================================== *)
(** ** [WordInfo] and [TextInfo] *)

Record WordInfo := {
  word : string;
  indexes : list N;
  sourceIndexes : list N
}.

Definition occurs (w : WordInfo) : nat := List.length (indexes w).

(** [words] is the source's [Map<string, WordInfo>] in insertion order. *)
Record TextInfo := {
  locale : string;
  words : list (string * WordInfo);
  ignored : list string
}.

Definition getWordInfo (t : TextInfo) (w : string) : option WordInfo :=
  assoc w (words t).

Definition toArray (t : TextInfo) : list string := map fst (words t).

Definition uniqueWordCount (t : TextInfo) : nat := List.length (words t).

Definition wordCount (t : TextInfo) : nat :=
  fold_left (fun total wi => total + occurs (snd wi)) (words t) 0.

(** [arr[i] = x] on an array that may have holes. *)
Fixpoint sparse_set {A} (i : nat) (x : A) (arr : list (option A))
  : list (option A) :=
  match i, arr with
  | O, [] => [Some x]
  | O, _ :: r => Some x :: r
  | S j, [] => None :: sparse_set j x []
  | S j, y :: r => y :: sparse_set j x r
  end.

Definition toSequence (t : TextInfo) : list (option string) :=
  fold_left
    (fun arr wi =>
       fold_left (fun arr i => sparse_set (N.to_nat i) (word (snd wi)) arr)
                 (indexes (snd wi)) arr)
    (words t) [].

Record TextInfoOptions := {
  o_locale : option string;
  o_pattern : option string;
  o_includeChars : option string;
  o_flags : option string;
  o_prepare : option (value -> string -> string -> string);
  o_stemming : option (string -> string -> option string);
  o_minLength : option Z;
  o_maxLength : option Z;
  o_blacklist : option (list string);
  o_whitelist : option (list string);
  o_useStoplist : option bool
}.

Definition dquote : string := str1 (ascii_of_nat 34).

(** The loop that splices [insert] after every ['['] of the pattern. *)
Fixpoint splice_includeChars (fuel : nat) (pattern insert : string) (pos : Z)
  : result string :=
  match fuel with
  | O => OutOfFuel
  | S fuel' =>
      let index := (indexOf "[" pattern (Z.to_nat (pos + 1)) + 1)%Z in
      if (index =? 0)%Z then Ok pattern
      else splice_includeChars fuel'
             (slice pattern 0 index ++ insert ++ slice_from pattern index)
             insert index
  end.

Fixpoint escape_chars (s : string) : string :=
  match s with
  | EmptyString => EmptyString
  | String c s' => String "\" (String c (escape_chars s'))
  end.

Fixpoint safe_unidecode (fuel : nat) (str : string) : result string :=
  match fuel with
  | O => OutOfFuel
  | S fuel' =>
      let ret := unidecode str in
      if String.eqb str ret then Ok ret else safe_unidecode fuel' ret
  end.

Definition push_ignored (w : string) (ign : list string) : list string :=
  if mem_string w ign then ign else ign ++ [w].

Definition push_occurrence (w : string) (wordIndex at_ : N)
  (ws : list (string * WordInfo)) : list (string * WordInfo) :=
  match assoc w ws with
  | Some wi =>
      assoc_set w {| word := word wi;
                     indexes := indexes wi ++ [wordIndex];
                     sourceIndexes := sourceIndexes wi ++ [at_] |} ws
  | None =>
      assoc_set w {| word := w; indexes := [wordIndex]; sourceIndexes := [at_] |} ws
  end.

(** The [while (true) { const match = re.exec(text); ... }] loop. *)
Fixpoint tokenize (fuel : nat) (re : RegExp) (text locale : string)
  (options : TextInfoOptions) (minLength maxLength : Z)
  (blacklist whitelist : list string)
  (lastIndex : nat) (wordIndex : N)
  (ws : list (string * WordInfo)) (ign : list string)
  : result (list (string * WordInfo) * list string) :=
  match fuel with
  | O => OutOfFuel
  | S fuel' =>
      let continue_ := tokenize fuel' re text locale options minLength maxLength
                         blacklist whitelist in
      match re text lastIndex with
      | (None, _) => Ok (ws, ign)
      | (Some (at_, w0), lastIndex') =>
          let stemmed :=
            match o_stemming options with
            | Some f => f w0 locale
            | None => Some w0
            end in
          match stemmed with
          | None => continue_ lastIndex' wordIndex ws (push_ignored w0 ign)
          | Some w1 =>
              match toLocaleLowerCase locale w1 with
              | None => Throw RangeError
              | Some w2 =>
                  let len := Z.of_nat (String.length w2) in
                  if (len <? minLength)%Z || mem_string w2 blacklist then
                    if negb (mem_string w2 whitelist)
                    then continue_ lastIndex' wordIndex ws (push_ignored w2 ign)
                    else continue_ lastIndex' (wordIndex + 1)%N
                           (push_occurrence w2 wordIndex (N.of_nat at_) ws) ign
                  else
                    let w3 := if (maxLength <? len)%Z
                              then slice w2 0 maxLength else w2 in
                    continue_ lastIndex' (wordIndex + 1)%N
                      (push_occurrence w3 wordIndex (N.of_nat at_) ws) ign
              end
          end
      end
  end.

Definition truthy_string (o : option string) : option string :=
  match o with
  | Some s => if String.eqb s "" then None else Some s
  | None => None
  end.

(** [new TextInfo(text, options)]. A text that is not a string and is not
    prepared into one is reported as a [TypeError] (the transliterator and
    [text.replace] expect a string). *)
Definition TextInfo_new (fuel : nat) (text : value) (options : TextInfoOptions)
  : result TextInfo :=
  let locale :=
    match truthy_string (o_locale options) with Some l => l | None => "en" end in
  let localeSettings := locales_get locale in
  let pattern0 :=
    match o_pattern options with
    | Some p => p
    | None => ls_pattern localeSettings
    end in
  pattern <?- (match truthy_string (o_includeChars options) with
               | Some ic =>
                   if (0 <=? indexOf "[" pattern0 0)%Z
                   then splice_includeChars fuel pattern0 (escape_chars ic) (-1)
                   else Throw AssertionError
               | None => Ok pattern0
               end) ;;
  let flags :=
    match o_flags options with
    | Some f => f
    | None => ls_flags localeSettings
    end in
  re <?- (match RegExp_new pattern flags with
          | Some re => Ok re
          | None => Throw SyntaxError
          end) ;;
  let minLength := match o_minLength options with Some n => n | None => 1%Z end in
  let maxLength := match o_maxLength options with Some n => n | None => 25%Z end in
  let blacklist0 := match o_blacklist options with Some l => l | None => [] end in
  let blacklist :=
    match ls_stoplist localeSettings, o_useStoplist options with
    | Some stop, Some true => (blacklist0 ++ stop)%list
    | _, _ => blacklist0
    end in
  let whitelist := match o_whitelist options with Some l => l | None => [] end in
  match text with
  | VNull | VUndefined => Ok {| locale := locale; words := []; ignored := [] |}
  | _ =>
      text1 <?- (match o_prepare options with
                 | Some prepare =>
                     Ok (prepare text locale
                           (dquote ++ match o_includeChars options with
                                      | Some ic => ic
                                      | None => ""
                                      end))
                 | None =>
                     match text with
                     | VString s => Ok s
                     | _ => Throw TypeError
                     end
                 end) ;;
      text2 <?- safe_unidecode fuel text1 ;;
      let text3 := replace_char "'" "" text2 in
      r <?- tokenize fuel re text3 locale options minLength maxLength
              blacklist whitelist 0 0%N [] [] ;;
      Ok {| locale := locale; words := fst r; ignored := snd r |}
  end.

End Tokenizer.

(* ================================================================== *)
(** ** Iteration helpers of the host's arrays *)

Fixpoint some_r {A} (f : A -> result bool) (l : list A) : result bool :=
  match l with
  | [] => Ok false
  | x :: r => b <?- f x ;; if b then Ok true else some_r f r
  end.

Fixpoint every_r {A} (f : A -> result bool) (l : list A) : result bool :=
  match l with
  | [] => Ok true
  | x :: r => b <?- f x ;; if b then every_r f r else Ok false
  end.

Fixpoint indexed_from {A} (i : nat) (l : list A) : list (nat * A) :=
  match l with
  | [] => []
  | x :: r => (i, x) :: indexed_from (S i) r
  end.

Definition indexed {A} (l : list A) : list (nat * A) := indexed_from 0 l.

Fixpoint findIndex {A} (p : A -> bool) (l : list A) : option nat :=
  match l with
  | [] => None
  | x :: r => if p x then Some 0 else option_map S (findIndex p r)
  end.

(** [arr.sort(cmp)] for a comparator that orders by a numeric key: stable. *)
Fixpoint insert_by {A} (key : A -> nat) (x : A) (l : list A) : list A :=
  match l with
  | [] => [x]
  | y :: r => if (key x <? key y)%nat then x :: l else y :: insert_by key x r
  end.

Definition sort_by {A} (key : A -> nat) (l : list A) : list A :=
  fold_left (fun acc x => insert_by key x acc) l [].

(* ================================================================== *)
(** ** Metadata codec: the [_occurs_] string *)

(** [wordInfo.indexes.join(',')], cut when longer than 255
    (in [handleRecordUpdate] and again in [build]). *)
Definition encode_occurs (indexes : list N) : string :=
  let occurs := join "," (map N_toString indexes) in
  if (255 <? String.length occurs)%nat then
    let cutIndex := lastIndexOf "," occurs 255 in
    slice occurs 0 cutIndex
  else occurs.

(** [occurs.split(',').map(parseInt)]: [map] calls [parseInt(field, index,
    array)], so the position of a field in the array is its radix. *)
Definition decode_occurs (s : string) : list num :=
  map (fun p => parseInt (snd p) (Z.of_nat (fst p))) (indexed (split "," s)).

(* ================================================================== *)
(** ** The index object *)

Record Config := {
  c_prepare : option (value -> string -> string -> string);
  c_transform : option (string -> string -> option string);
  c_blacklist : option (list string);
  c_useStoplist : option bool;
  c_whitelist : option (list string);
  c_minLength : option Z;
  c_maxLength : option Z
}.

(** [textLocaleKey] is the property name the locale lookups use. *)
Record FullTextIndex := {
  key : string;
  textLocale : string;
  textLocaleKey : string;
  config : Config
}.

Definition op_contains : string := "fulltext:contains".
Definition op_not_contains : string := "fulltext:!contains".
Definition validOperators : list string := [op_contains; op_not_contains].

Section Predicate.
Context {host : Host}.

(** A locale read from a record. One that is neither a string nor falsy is
    not modelled further: the registry lookup is reported as a [TypeError]. *)
Definition locale_option (v : value) : result (option string) :=
  match v with
  | VString s => Ok (Some s)
  | VUndefined | VNull | VBool false | VNumber NaN | VNumber (Int 0%Z) => Ok None
  | _ => Throw TypeError
  end.

(** [this.getTextInfo(val, locale)] *)
Definition getTextInfo (fuel : nat) (idx : FullTextIndex) (val : value)
  (locale : value) : result TextInfo :=
  l <?- locale_option (nullish_or locale (VString (textLocale idx))) ;;
  TextInfo_new fuel val
    {| o_locale := l;
       o_pattern := None;
       o_includeChars := None;
       o_flags := None;
       o_prepare := c_prepare (config idx);
       o_stemming := c_transform (config idx);
       o_minLength := c_minLength (config idx);
       o_maxLength := c_maxLength (config idx);
       o_blacklist := c_blacklist (config idx);
       o_whitelist := c_whitelist (config idx);
       o_useStoplist := c_useStoplist (config idx) |}.

(** *** The phrase expression [/"(.+?)"/g] *)

Definition line_terminator (c : ascii) : bool :=
  let n := N_of_ascii c in ((n =? 10) || (n =? 13))%N.

Definition is_dquote (c : ascii) : bool := (N_of_ascii c =? 34)%N.

(** After an opening quote and [n] characters of the group: the group and
    the closing quote, taken at the first quote that follows at least one
    character, with no line terminator on the way. *)
Fixpoint phrase_body (s : string) (n : nat) : option string :=
  match s with
  | EmptyString => None
  | String c s' =>
      if is_dquote c && (0 <? n)%nat then Some EmptyString
      else if line_terminator c then None
      else option_map (String c) (phrase_body s' (S n))
  end.

(** [phraseRegex.exec(val)] from [lastIndex = 0]: index of the match and
    its group. *)
Fixpoint phrase_exec (s : string) (i : nat) : option (nat * string) :=
  match s with
  | EmptyString => None
  | String c s' =>
      if is_dquote c then
        match phrase_body s' 0 with
        | Some g => Some (i, g)
        | None => phrase_exec s' (S i)
        end
      else phrase_exec s' (S i)
  end.

(** The loop that moves every phrase out of [val]. *)
Fixpoint extract_phrases (fuel : nat) (val : string) (phrases : list string)
  : result (list string * string) :=
  match fuel with
  | O => OutOfFuel
  | S fuel' =>
      match phrase_exec val 0 with
      | None => Ok (phrases, val)
      | Some (i, phrase) =>
          extract_phrases fuel'
            (slice val 0 (Z.of_nat i)
             ++ slice_from val (Z.of_nat (i + (String.length phrase + 2))))
            (phrases ++ [phrase])
      end
  end.

(** *** [test]: the in-memory predicate *)

Inductive test_value :=
| TBool (b : bool)
| TUndefined.

Definition truthy (t : test_value) : bool :=
  match t with TBool b => b | TUndefined => false end.

(** The recursion of the phrase test; where the source exhausts its call
    stack the embedding runs out of fuel. *)
Fixpoint hasSequenceAtIndex (fuel : nat)
  (occurrencesPerWord : list (option (list N)))
  (wordIndex occurrenceIndex : nat) : result bool :=
  match fuel with
  | O => OutOfFuel
  | S fuel' =>
      let startIndex :=
        match nth_error occurrencesPerWord wordIndex with
        | Some (Some l) => nth_error l occurrenceIndex
        | _ => None
        end in
      every_r
        (fun io =>
           match snd io with
           | None => Ok true
           | Some occurences =>
               some_r
                 (fun ji =>
                    match startIndex with
                    | Some st =>
                        if (snd ji =? st + 1)%N
                        then hasSequenceAtIndex fuel' occurrencesPerWord
                               (wordIndex + fst io) (fst ji)
                        else Ok false
                    | None => Ok false
                    end)
                 (indexed occurences)
           end)
        (indexed (skipn (wordIndex + 1) occurrencesPerWord))
  end.

(** [phraseWords.map(word => textInfo.words.get(word).indexes)]: a hole of
    the array stays a hole, a word the text lacks throws. *)
Fixpoint occurrences_of (textInfo : TextInfo) (phraseWords : list (option string))
  : result (list (option (list N))) :=
  match phraseWords with
  | [] => Ok []
  | None :: r => rest <?- occurrences_of textInfo r ;; Ok (None :: rest)
  | Some w :: r =>
      match getWordInfo textInfo w with
      | None => Throw TypeError
      | Some wi => rest <?- occurrences_of textInfo r ;; Ok (Some (indexes wi) :: rest)
      end
  end.

Definition test_phrase (fuel : nat) (idx : FullTextIndex) (textInfo : TextInfo)
  (locale : value) (phrase : string) : result bool :=
  phraseInfo <?- getTextInfo fuel idx (VString phrase) locale ;;
  occurrencesPerWord <?- occurrences_of textInfo (toSequence phraseInfo) ;;
  match occurrencesPerWord with
  | Some first :: _ =>
      some_r (fun i => hasSequenceAtIndex fuel occurrencesPerWord 0 (fst i))
             (indexed first)
  | _ => Throw TypeError
  end.

Fixpoint test (fuel : nat) (idx : FullTextIndex) (obj : value)
  (op : string) (val : string) : result test_value :=
  match fuel with
  | O => OutOfFuel
  | S fuel' =>
      match obj with
      | VNull => Ok (TBool (String.eqb op op_not_contains))
      | _ =>
          text <?- get_prop obj (key idx) ;;
          match text with
          | VUndefined => Ok (TBool (String.eqb op op_not_contains))
          | _ =>
              let locale :=
                nullish_or (get_prop_opt obj (textLocaleKey idx))
                           (VString (textLocale idx)) in
              textInfo <?- getTextInfo fuel' idx text locale ;;
              if String.eqb op op_contains then
                if includes " OR " val then
                  b <?- some_r
                          (fun v => t <?- test fuel' idx text op v ;; Ok (truthy t))
                          (split " OR " val) ;;
                  Ok (TBool b)
                else if includes dquote val then
                  r <?- extract_phrases fuel' val [] ;;
                  let phrases :=
                    if (0 <? String.length (snd r))%nat
                    then (fst r ++ [snd r])%list else fst r in
                  b <?- every_r (test_phrase fuel' idx textInfo locale) phrases ;;
                  Ok (TBool b)
                else
                  wordsInfo <?- getTextInfo fuel' idx (VString val) locale ;;
                  Ok (TBool
                        (forallb
                           (fun w =>
                              match w with
                              | Some w' =>
                                  match getWordInfo textInfo w' with
                                  | Some _ => true
                                  | None => false
                                  end
                              | None => true
                              end)
                           (toSequence wordsInfo)))
              else Ok TUndefined
          end
      end
  end.

End Predicate.

(* ================================================================== *)
(** ** Result sets, substrate and effects *)

(** [metadata._occurs_] of a match: the stored string, or the array the
    phrase checker has put in its place. *)
Inductive occurs_field :=
| MString (s : string)
| MArray (a : list num).

Record Entry := {
  path : string;
  _occurs_ : occurs_field
}.

Inductive hint_type := ignoredWord | missingWord.

Record Hint := {
  hint_kind : hint_type;
  hint_word : string
}.

(** Modelled from the spec: [IndexQueryResults], declared outside these
    sources. "A ResultSet is an ordered collection of match records
    {path, metadata, ...} with a filterKey, a stats object, and a hints
    list"; the stats block (timings) is left out. *)
Record Results := {
  entries : list Entry;
  hints : list Hint;
  filterKey : option string
}.

Definition IndexQueryResults_fromResults (l : list Entry) (k : string) : Results :=
  {| entries := l; hints := []; filterKey := Some k |}.

Inductive WordCheck :=
| CheckRegExp (source flags : string)
| CheckWord (w : string).

(** The calls the index makes on the generic index it extends. *)
Inductive SuperCall :=
| SuperCount (op w : string)
| SuperQuery (op w : string) (filter : option Results)
| SuperQueryBlacklisting (checks : list WordCheck)
| SuperUpdate (path : string) (oldValue newValue : value) (occurs : option string).

Class Substrate := {
  super_count : string -> string -> nat;
  super_query : string -> string -> option Results -> Results;
  super_query_blacklisting : list WordCheck -> Results;
  (** whether the promise of [super.handleRecordUpdate] fulfils *)
  super_handleRecordUpdate : string -> value -> value -> option string -> bool
}.

(** Modelled from the spec: the cache helper [cache(op, val, results)] of
    the generic index, "write when results given, read otherwise", "hit
    returns the stored result; miss returns null". *)
Record State := {
  cache : list (string * string * Results);
  calls : list SuperCall
}.

Fixpoint cache_read (c : list (string * string * Results)) (op val : string)
  : option Results :=
  match c with
  | [] => None
  | (op', val', r) :: c' =>
      if String.eqb op op' && String.eqb val val' then Some r
      else cache_read c' op val
  end.

Definition cache_write (st : State) (op val : string) (r : Results) : State :=
  {| cache := (op, val, r) :: cache st; calls := calls st |}.

Definition log (st : State) (c : SuperCall) : State :=
  {| cache := cache st; calls := (calls st ++ [c])%list |}.

Definition M (A : Type) := State -> result A * State.

Definition ret {A} (a : A) : M A := fun st => (Ok a, st).
Definition throw {A} (e : error) : M A := fun st => (Throw e, st).
Definition lift {A} (r : result A) : M A := fun st => (r, st).

Definition bind {A B} (m : M A) (k : A -> M B) : M B :=
  fun st =>
    match m st with
    | (Ok a, st') => k a st'
    | (Throw e, st') => (Throw e, st')
    | (OutOfFuel, st') => (OutOfFuel, st')
    end.

Notation "x <- m ;; k" := (bind m (fun x => k))
  (at level 61, m at next level, right associativity).

Fixpoint mapM {A B} (f : A -> M B) (l : list A) : M (list B) :=
  match l with
  | [] => ret []
  | x :: r => y <- f x ;; ys <- mapM f r ;; ret (y :: ys)
  end.

Section Maintenance.
Context {host : Host} {substrate : Substrate}.

Definition count_ (op w : string) : M nat :=
  fun st => (Ok (super_count op w), log st (SuperCount op w)).

Definition query_ (op w : string) (filter : option Results) : M Results :=
  fun st => (Ok (super_query op w filter), log st (SuperQuery op w filter)).

Definition query_blacklisting_ (checks : list WordCheck) : M Results :=
  fun st => (Ok (super_query_blacklisting checks),
             log st (SuperQueryBlacklisting checks)).

Definition cache_ (op val : string) (r : Results) : M unit :=
  fun st => (Ok tt, cache_write st op val r).

(* ================================================================== *)
(** ** Index maintenance: [handleRecordUpdate] *)

(** [v !== null && typeof v === 'object' && key in v ? v[key] : null] *)
Definition text_of (idx : FullTextIndex) (v : value) : value :=
  if typeof_object v && has_prop v (key idx)
  then match get_prop v (key idx) with Ok x => x | _ => VNull end
  else VNull.

Definition join_array (v : value) : value :=
  match v with
  | VStrings l => VString (join " " l)
  | _ => v
  end.

Definition own_props (v : value) : list (string * value) :=
  match v with
  | VObject props => props
  | VStrings l => map (fun p => (N_toString (N.of_nat (fst p)), VString (snd p))) (indexed l)
  | _ => []
  end.

(** [oldInfo.occurs !== newInfo.occurs ||
     oldInfo.indexes.some((index, i) => newInfo.indexes[i] !== index)] *)
Definition word_changed (oldInfo newInfo : WordInfo) : bool :=
  negb (occurs oldInfo =? occurs newInfo)%nat
  || existsb
       (fun p =>
          match nth_error (indexes newInfo) (fst p) with
          | Some j => negb (j =? snd p)%N
          | None => true
          end)
       (indexed (indexes oldInfo)).

Definition removed_words (oldWords newWords : list string) : list string :=
  filter (fun w => negb (mem_string w newWords)) oldWords.

Definition added_words (oldWords newWords : list string) : list string :=
  filter (fun w => negb (mem_string w oldWords)) newWords.

Definition changed_words (oldTextInfo newTextInfo : TextInfo) : list string :=
  filter
    (fun w =>
       match getWordInfo oldTextInfo w, getWordInfo newTextInfo w with
       | Some o, Some n => word_changed o n
       | _, _ => false
       end)
    (filter (fun w => mem_string w (toArray newTextInfo)) (toArray oldTextInfo)).

Definition remove_call (idx : FullTextIndex) (path : string) (w : string)
  : SuperCall :=
  SuperUpdate path (VObject [(key idx, VString w)]) (VObject [(key idx, VNull)])
              None.

Definition add_call (idx : FullTextIndex) (path : string) (newValue : value)
  (newTextInfo : TextInfo) (w : string) : result SuperCall :=
  match getWordInfo newTextInfo w with
  | None => Throw TypeError
  | Some wordInfo =>
      Ok (SuperUpdate path (VObject [(key idx, VNull)])
            (VObject (assoc_set (key idx) (VString w) (own_props newValue)))
            (Some (encode_occurs (indexes wordInfo))))
  end.

Fixpoint map_r {A B} (f : A -> result B) (l : list A) : result (list B) :=
  match l with
  | [] => Ok []
  | x :: r => y <?- f x ;; ys <?- map_r f r ;; Ok (y :: ys)
  end.

Definition fulfils (c : SuperCall) : bool :=
  match c with
  | SuperUpdate p o n m => super_handleRecordUpdate p o n m
  | _ => true
  end.

(** The [TextInfo] of one side of an update: its text (an array joined by
    single spaces) under its locale. *)
Definition record_text_info (fuel : nat) (idx : FullTextIndex) (v : value)
  : result TextInfo :=
  let text := join_array (text_of idx v) in
  let locale := nullish_or (get_prop_opt v (textLocaleKey idx))
                           (VString (textLocale idx)) in
  getTextInfo fuel idx text locale.

(** The substrate calls [handleRecordUpdate] issues, in order. *)
Definition update_calls (fuel : nat) (idx : FullTextIndex) (path : string)
  (oldValue newValue : value) : result (list SuperCall) :=
  oldTextInfo <?- record_text_info fuel idx oldValue ;;
  newTextInfo <?- record_text_info fuel idx newValue ;;
  let oldWords := toArray oldTextInfo in
  let newWords := toArray newTextInfo in
  let changed := changed_words oldTextInfo newTextInfo in
  let removed := (removed_words oldWords newWords ++ changed)%list in
  let added := (added_words oldWords newWords ++ changed)%list in
  adds <?- map_r (add_call idx path newValue newTextInfo) added ;;
  Ok (map (remove_call idx path) removed ++ adds)%list.

(** [handleRecordUpdate(path, oldValue, newValue)]: every call is issued,
    then [Promise.all] fulfils when each of them does. *)
Definition handleRecordUpdate (fuel : nat) (idx : FullTextIndex) (path : string)
  (oldValue newValue : value) : M unit :=
  fun st =>
    match update_calls fuel idx path oldValue newValue with
    | Ok cs =>
        let st' := {| cache := cache st; calls := (calls st ++ cs)%list |} in
        if forallb fulfils cs then (Ok tt, st') else (Throw SubstrateError, st')
    | Throw e => (Throw e, st)
    | OutOfFuel => (OutOfFuel, st)
    end.

End Maintenance.

(* ================================================================== *)
(** ** Building the index: the [addCallback] of [build] *)

(** A call of [add(key, recordPointer, metadata)]; the record pointer is
    opaque to the index. *)
Record AddCall := {
  add_key : string;
  add_recordPointer : string;
  add_metadata : list (string * value)
}.

(** [Object.assign(target, source)] on own properties. *)
Definition object_assign (target source : list (string * value))
  : list (string * value) :=
  fold_left (fun t kv => assoc_set (fst kv) (snd kv) t) source target.

Section Build.
Context {host : Host}.

(** The [addCallback] that [build] hands to the generic index, called once
    for every record with its text, its record pointer, the metadata of
    the included keys and [env.locale]: the [add] calls it makes, and the
    words it returns. The warning it logs for a text without words is left
    out. *)
Definition build_addCallback (fuel : nat) (idx : FullTextIndex) (text : value)
  (recordPointer : string) (metadata : list (string * value))
  (env_locale : option string) : result (list AddCall * list string) :=
  let text1 := join_array text in
  let text2 := match text1 with VUndefined => VString "" | _ => text1 end in
  let locale := match truthy_string env_locale with
                | Some l => l
                | None => textLocale idx
                end in
  textInfo <?- getTextInfo fuel idx text2 (VString locale) ;;
  Ok (map (fun wi =>
             {| add_key := word (snd wi);
                add_recordPointer := recordPointer;
                add_metadata :=
                  object_assign
                    [("_occurs_", VString (encode_occurs (indexes (snd wi))))]
                    metadata |})
          (words textInfo),
      toArray textInfo).

End Build.

(* ================================================================== *)
(** ** Query executor: [query] and [contains] *)

Record ContainsOptions := {
  phrase : option bool;
  q_locale : option string;
  minimumWildcardWordLength : option Z
}.

Definition default_options : ContainsOptions :=
  {| phrase := Some false; q_locale := None; minimumWildcardWordLength := Some 2%Z |}.

(** The first argument of [query]: an operator name, or an instance of
    [BlacklistingSearchOperator]. *)
Inductive Operator :=
| OpString (s : string)
| OpBlacklisting.

Definition word_op (w : string) : string :=
  if includes "*" w || includes "?" w then "like" else "==".

Definition is_wildcard (c : ascii) : bool :=
  let n := N_of_ascii c in ((n =? 42) || (n =? 63))%N.

(** [/^[*?]+$/.test(w)] *)
Definition wildcards_only (w : string) : bool :=
  (0 <? String.length w)%nat && string_forallb is_wildcard w.

Definition ignore_word (info : TextInfo) (w : string) : TextInfo :=
  {| locale := locale info;
     words := assoc_delete w (words info);
     ignored := (ignored info ++ [w])%list |}.

(** [while (i = words.findIndex(w => /^[*?]+$/.test(w)), i >= 0) { ... }]:
    [words] is the array taken before the loop. *)
Fixpoint ignore_wildcards_only (fuel : nat) (words : list string)
  (info : TextInfo) : result TextInfo :=
  match fuel with
  | O => OutOfFuel
  | S fuel' =>
      match findIndex wildcards_only words with
      | Some i => ignore_wildcards_only fuel' words (ignore_word info (nth i words ""))
      | None => Ok info
      end
  end.

Definition ignore_short_wildcards (minimum : Z) (words : list string)
  (info : TextInfo) : TextInfo :=
  fold_left
    (fun info w =>
       let starIndex := indexOf "*" w 0 in
       if ((0 <? starIndex) && (starIndex <? minimum))%Z
       then ignore_word info w else info)
    words info.

Section Executor.
Context {host : Host} {substrate : Substrate}.

(** The options the closure [getTextInfo] of [contains] tokenizes with. *)
Definition query_text_options (idx : FullTextIndex) (options : ContainsOptions)
  : TextInfoOptions :=
  {| o_locale := Some (match truthy_string (q_locale options) with
                       | Some l => l
                       | None => textLocale idx
                       end);
     o_pattern := None;
     o_includeChars := Some "*?";
     o_flags := None;
     o_prepare := c_prepare (config idx);
     o_stemming := c_transform (config idx);
     o_minLength := c_minLength (config idx);
     o_maxLength := c_maxLength (config idx);
     o_blacklist := c_blacklist (config idx);
     o_whitelist := c_whitelist (config idx);
     o_useStoplist := c_useStoplist (config idx) |}.

(** The closure [getTextInfo] of [contains]. *)
Definition contains_getTextInfo (fuel : nat) (idx : FullTextIndex)
  (options : ContainsOptions) (text : string) : result TextInfo :=
  info <?- TextInfo_new fuel (VString text) (query_text_options idx options) ;;
  let words := toArray info in
  info1 <?- ignore_wildcards_only fuel words info ;;
  match minimumWildcardWordLength options with
  | Some minimum =>
      if (0 <? minimum)%Z then Ok (ignore_short_wildcards minimum words info1)
      else Ok info1
  | None => Ok info1
  end.

Definition ignored_hints (info : TextInfo) : list Hint :=
  map (fun w => {| hint_kind := ignoredWord; hint_word := w |}) (ignored info).

Definition has_path (p : string) (l : list Entry) : bool :=
  existsb (fun r => String.eqb (path r) p) l.

Definition all_hints (sets : list Results) : list Hint :=
  fold_left (fun hs set => (hs ++ hints set)%list) sets [].

(** [query(op, val, options)], over the [contains] it dispatches to. *)
Definition query_with
  (contains_ : string -> string -> option ContainsOptions -> M Results)
  (op : Operator) (val : string) (options : option ContainsOptions) : M Results :=
  match op with
  | OpBlacklisting => throw NotImplemented
  | OpString s =>
      if String.eqb s op_contains || String.eqb s op_not_contains
      then contains_ s val options
      else throw UnsupportedOperator
  end.

Definition query_fn := Operator -> string -> option ContainsOptions -> M Results.

(** *** ['A OR B'] *)

Definition merge_expand (first : list Entry) (rest : list Results) : list Entry :=
  fold_left
    (fun merged results =>
       fold_left
         (fun merged result =>
            if has_path (path result) merged then merged
            else (merged ++ [result])%list)
         (entries results) merged)
    rest first.

Definition contains_or (query : query_fn) (idx : FullTextIndex) (op val : string)
  (options : ContainsOptions) : M Results :=
  let queries := split " OR " val in
  resultSets <- mapM (fun q => query (OpString op) q (Some options)) queries ;;
  match resultSets with
  | [] => throw TypeError
  | first :: rest =>
      let results :=
        IndexQueryResults_fromResults (merge_expand (entries first) rest) (key idx) in
      ret {| entries := entries results;
             hints := (hints results ++ all_hints resultSets)%list;
             filterKey := filterKey results |}
  end.

(** *** Quoted phrases *)

Definition merge_reduce (shortestSet : Results) (otherSets : list Results)
  : list Entry :=
  filter (fun m => forallb (fun set => has_path (path m) (entries set)) otherSets)
         (entries shortestSet).

Definition contains_phrases (fuel : nat) (query : query_fn) (idx : FullTextIndex)
  (op val : string) (options : ContainsOptions) : M Results :=
  r <- lift (extract_phrases fuel val []) ;;
  let phrases := fst r in
  let val' := snd r in
  let phraseOptions :=
    {| phrase := Some true;
       q_locale := q_locale options;
       minimumWildcardWordLength := minimumWildcardWordLength options |} in
  sets <- mapM (fun p => query (OpString op) p (Some phraseOptions)) phrases ;;
  more <- (if (0 <? String.length val')%nat then
             info <- lift (contains_getTextInfo fuel idx options val') ;;
             if (0 <? wordCount info)%nat
             then rs <- query (OpString op) val' (Some options) ;; ret [rs]
             else ret []
           else ret []) ;;
  (* [sort((a, b) => a.length < b.length ? -1 : 1)], as a stable sort runs it *)
  match sort_by (fun s => List.length (entries s)) (sets ++ more) with
  | [] => throw TypeError
  | shortestSet :: otherSets =>
      ret {| entries := merge_reduce shortestSet otherSets;
             hints := all_hints (shortestSet :: otherSets);
             filterKey := Some (key idx) |}
  end.

(** *** Bare words *)

Definition word_check (w : string) : WordCheck :=
  if includes "*" w || includes "?" w
  then CheckRegExp ("^" ++ replace_char "?" "." (replace_char "*" ".*" w) ++ "$") "i"
  else CheckWord w.

Fixpoint set_nth {A} (i : nat) (x : A) (l : list A) : list A :=
  match i, l with
  | _, [] => []
  | O, _ :: r => x :: r
  | S j, y :: r => y :: set_nth j x r
  end.

(** The recursion [nextWord]: each word is queried with the previous result
    set as filter. Gives the last result set, the per-word result sets in
    the order of [words], and the slot of the last one. *)
Fixpoint nextWord (words allWords : list string) (results : option Results)
  (resultsPerWord : list (option Results))
  : M (Results * list (option Results) * nat) :=
  match allWords with
  | [] => throw TypeError
  | w :: rest =>
      fr <- query_ (word_op w) w results ;;
      let slot := match findIndex (String.eqb w) words with
                  | Some i => i
                  | None => List.length words
                  end in
      let resultsPerWord' := set_nth slot (Some fr) resultsPerWord in
      match rest with
      | [] => ret (fr, resultsPerWord', slot)
      | _ =>
          if (List.length (entries fr) =? 0)%nat
          then ret (fr, resultsPerWord', slot)
          else nextWord words rest (Some fr) resultsPerWord'
      end
  end.

(** The [_occurs_] of the first entry under [p] in every per-word set is
    replaced by its decoded array; the arrays are the [wordMatches]. *)
Fixpoint convert_occurs (p : string) (store : list (option (list Entry)))
  : result (list (option (list Entry)) * list (option (list num))) :=
  match store with
  | [] => Ok ([], [])
  | None :: r =>
      rest <?- convert_occurs p r ;;
      Ok (None :: fst rest, None :: snd rest)
  | Some set :: r =>
      match findIndex (fun e => String.eqb (path e) p) set with
      | None => Throw TypeError
      | Some k =>
          match nth_error set k with
          | Some {| path := q; _occurs_ := MString s |} =>
              let a := decode_occurs s in
              rest <?- convert_occurs p r ;;
              Ok (Some (set_nth k {| path := q; _occurs_ := MArray a |} set) :: fst rest,
                  Some a :: snd rest)
          | _ => Throw TypeError
          end
      end
  end.

(** [check(wordMatchIndex, prevWordIndex)] on the second and later words. *)
Fixpoint check_next (wordMatches : list (option (list num))) (prevWordIndex : num)
  : result bool :=
  match wordMatches with
  | Some sourceIndexes :: rest =>
      if includes_num sourceIndexes (num_add prevWordIndex (Int 1)) then
        match rest with
        | [] => Ok true
        | _ => check_next rest (num_add prevWordIndex (Int 1))
        end
      else Ok false
  | _ => Throw TypeError
  end.

(** [check(0)] *)
Definition check (wordMatches : list (option (list num))) : result bool :=
  match wordMatches with
  | Some sourceIndexes :: rest => some_r (check_next rest) sourceIndexes
  | _ => Throw TypeError
  end.

(** [results.reduce(...)] of the phrase check; [results] is the set in
    [slot], walked by position. *)
Fixpoint phrase_check (slot : nat) (positions : list nat)
  (store : list (option (list Entry))) (matches : list Entry)
  : result (list Entry) :=
  match positions with
  | [] => Ok matches
  | k :: rest =>
      match nth_error store slot with
      | Some (Some set) =>
          match nth_error set k with
          | Some m =>
              c <?- convert_occurs (path m) store ;;
              b <?- check (snd c) ;;
              let kept :=
                match nth_error (fst c) slot with
                | Some (Some set') =>
                    match nth_error set' k with Some m' => [m'] | None => [] end
                | _ => []
                end in
              phrase_check slot rest (fst c)
                           (if b then (matches ++ kept)%list else matches)
          | None => Throw TypeError
          end
      | _ => Throw TypeError
      end
  end.

Definition missing_hints (counts : list (string * nat)) : list Hint :=
  map (fun c => {| hint_kind := missingWord; hint_word := fst c |})
      (filter (fun c => (snd c =? 0)%nat) counts).

Definition contains_words (fuel : nat) (idx : FullTextIndex) (op val : string)
  (options : ContainsOptions) : M Results :=
  info <- lift (contains_getTextInfo fuel idx options val) ;;
  let words := toArray info in
  match words with
  | [] =>
      let results := IndexQueryResults_fromResults [] (key idx) in
      ret {| entries := entries results;
             hints := (hints results ++ ignored_hints info)%list;
             filterKey := filterKey results |}
  | _ =>
      if String.eqb op op_not_contains then
        results <- query_blacklisting_ (map word_check words) ;;
        let results' :=
          {| entries := entries results;
             hints := (hints results ++ ignored_hints info)%list;
             filterKey := Some (key idx) |} in
        _ <- cache_ op val results' ;;
        ret results'
      else
        counts0 <- mapM (fun w => c <- count_ (word_op w) w ;; ret (w, c)) words ;;
        let counts := sort_by snd counts0 in
        match counts with
        | [] => throw TypeError
        | c0 :: _ =>
            if (snd c0 =? 0)%nat then
              let results :=
                {| entries := [];
                   hints := (ignored_hints info ++ missing_hints counts)%list;
                   filterKey := Some (key idx) |} in
              _ <- cache_ op val results ;;
              ret results
            else
              let allWords := map fst counts in
              r <- nextWord words allWords None (repeat None (List.length words)) ;;
              let '(last, resultsPerWord, slot) := r in
              results <-
                (match phrase options with
                 | Some true =>
                     if (1 <? List.length allWords)%nat then
                       ms <- lift (phrase_check slot
                                     (seq 0 (List.length (entries last)))
                                     (map (option_map entries) resultsPerWord) []) ;;
                       ret {| entries := ms; hints := []; filterKey := None |}
                     else ret last
                 | _ => ret last
                 end) ;;
              let results' :=
                {| entries := entries results;
                   hints := (hints results ++ ignored_hints info)%list;
                   filterKey := Some (key idx) |} in
              _ <- cache_ op val results' ;;
              ret results'
        end
  end.

(** [contains(op, val, options)] *)
Fixpoint contains (fuel : nat) (idx : FullTextIndex) (op val : string)
  (options_ : option ContainsOptions) : M Results :=
  match fuel with
  | O => lift OutOfFuel
  | S fuel' =>
      let options := match options_ with Some o => o | None => default_options end in
      if negb (mem_string op validOperators) then throw UnsupportedOperator
      else fun st =>
        match cache_read (cache st) op val with
        | Some cached => (Ok cached, st)
        | None =>
            if includes " OR " val
            then contains_or (query_with (contains fuel' idx)) idx op val options st
            else if includes dquote val
            then contains_phrases fuel' (query_with (contains fuel' idx))
                                  idx op val options st
            else contains_words fuel' idx op val options st
        end
  end.

Definition query (fuel : nat) (idx : FullTextIndex) : query_fn :=
  query_with (contains fuel idx).

End Executor.

(* ================================================================== *)
(** ** A reference host and substrate, to run the embedding

    The host: ASCII text, the character-class expressions [[...]+] of the
    locale registry, lower-casing of the ASCII letters. The substrate: a
    posting list in memory. *)

Module Reference.

Inductive class_item :=
| CChar (c : ascii)
| CRange (lo hi : ascii).

Definition is_alnum (c : ascii) : bool :=
  match digit_value c with Some _ => true | None => false end.

(** One member of a class: a character, or an escaped punctuation mark. *)
Definition parse_atom (s : string) : option (ascii * string) :=
  match s with
  | String "\" (String c rest) => if is_alnum c then None else Some (c, rest)
  | String "\" EmptyString => None
  | String c rest => Some (c, rest)
  | EmptyString => None
  end.

Fixpoint parse_class (fuel : nat) (s : string) (acc : list class_item)
  : option (list class_item * string) :=
  match fuel with
  | O => None
  | S fuel' =>
      match s with
      | EmptyString => None
      | String "]" rest => Some (rev acc, rest)
      | _ =>
          match parse_atom s with
          | None => None
          | Some (a, rest) =>
              match rest with
              | String "-" (String "]" _) => parse_class fuel' rest (CChar a :: acc)
              | String "-" rest2 =>
                  match parse_atom rest2 with
                  | Some (b, rest3) => parse_class fuel' rest3 (CRange a b :: acc)
                  | None => None
                  end
              | _ => parse_class fuel' rest (CChar a :: acc)
              end
          end
      end
  end.

Definition in_item (c : ascii) (it : class_item) : bool :=
  match it with
  | CChar d => Ascii.eqb c d
  | CRange lo hi => ((N_of_ascii lo <=? N_of_ascii c) && (N_of_ascii c <=? N_of_ascii hi))%N
  end.

Definition upper_ascii (c : ascii) : ascii :=
  let n := N_of_ascii c in
  if ((97 <=? n) && (n <=? 122))%N then ascii_of_N (n - 32) else c.

Definition in_class (icase : bool) (items : list class_item) (c : ascii) : bool :=
  existsb (in_item c) items
  || icase && (existsb (in_item (lower_ascii c)) items
               || existsb (in_item (upper_ascii c)) items).

Fixpoint take_while (p : ascii -> bool) (s : string) : string :=
  match s with
  | String c s' => if p c then String c (take_while p s') else EmptyString
  | EmptyString => EmptyString
  end.

(** Leftmost maximal run of class members starting at or after [start]. *)
Fixpoint scan (p : ascii -> bool) (s : string) (i start : nat)
  : option (nat * string) :=
  match s with
  | EmptyString => None
  | String c s' =>
      if (start <=? i)%nat && p c then Some (i, String c (take_while p s'))
      else scan p s' (S i) start
  end.

Definition class_exec (global : bool) (p : ascii -> bool) : RegExp :=
  fun text lastIndex =>
    match scan p text 0 (if global then lastIndex else 0) with
    | Some (i, m) => (Some (i, m), if global then i + String.length m else lastIndex)
    | None => (None, if global then 0 else lastIndex)
    end.

Definition has_flag (f : ascii) (flags : string) : bool :=
  negb (string_forallb (fun c => negb (Ascii.eqb c f)) flags).

(** [new RegExp(pattern, flags)] on the fragment [[class]+] with flags
    among [g], [i], [m]; anything else is refused. *)
Definition compile (pattern flags : string) : option RegExp :=
  if string_forallb (fun c => Ascii.eqb c "g" || Ascii.eqb c "i" || Ascii.eqb c "m") flags
  then
    match pattern with
    | String "[" (String "^" _) => None
    | String "[" body =>
        match parse_class (S (String.length body)) body [] with
        | Some (items, "+") =>
            Some (class_exec (has_flag "g" flags) (in_class (has_flag "i" flags) items))
        | _ => None
        end
    | _ => None
    end
  else None.

Definition String_prototype : list string :=
  ["constructor"; "toString"; "valueOf"; "at"; "charAt"; "charCodeAt";
   "codePointAt"; "concat"; "endsWith"; "includes"; "indexOf"; "lastIndexOf";
   "localeCompare"; "match"; "matchAll"; "normalize"; "padEnd"; "padStart";
   "repeat"; "replace"; "replaceAll"; "search"; "slice"; "split";
   "startsWith"; "substring"; "substr"; "toLowerCase"; "toUpperCase";
   "toLocaleLowerCase"; "toLocaleUpperCase"; "trim"; "trimStart"; "trimEnd"].

Definition Array_prototype : list string :=
  ["constructor"; "toString"; "at"; "concat"; "every"; "filter"; "find";
   "findIndex"; "forEach"; "includes"; "indexOf"; "join"; "lastIndexOf";
   "map"; "pop"; "push"; "reduce"; "reverse"; "shift"; "slice"; "some";
   "sort"; "splice"; "unshift"].

Definition Object_prototype : list string :=
  ["constructor"; "toString"; "valueOf"; "hasOwnProperty"; "isPrototypeOf";
   "propertyIsEnumerable"; "toLocaleString"].

#[export] Instance host : Host := {|
  unidecode := fun s => s;
  toLocaleLowerCase := fun _ w => Some (toLowerCase w);
  RegExp_new := compile;
  prototype := fun p k =>
    let own := match p with
               | StringProto => String_prototype
               | ArrayProto => Array_prototype
               | ObjectProto => []
               end in
    if mem_string k own || mem_string k Object_prototype
    then Some VFunction else None
|}.

(** [*] and [?] patterns of the ['like'] operator. *)
Fixpoint like (fuel : nat) (pat s : string) : bool :=
  match fuel with
  | O => false
  | S fuel' =>
      match pat, s with
      | EmptyString, EmptyString => true
      | EmptyString, _ => false
      | String "*" pat', EmptyString => like fuel' pat' s
      | String "*" pat', String _ s' => like fuel' pat' s || like fuel' pat s'
      | String "?" pat', String _ s' => like fuel' pat' s'
      | String c pat', String d s' => Ascii.eqb c d && like fuel' pat' s'
      | String _ _, EmptyString => false
      end
  end.

(** A posting: a word, and the entry of one record under it. *)
Definition Posting := (string * Entry)%type.

Definition matches_word (op w : string) (k : string) : bool :=
  if String.eqb op "like"
  then like (S (String.length w + String.length k)) w k
  else String.eqb w k.

Definition lookup (postings : list Posting) (op w : string) : list Entry :=
  map snd (filter (fun p => matches_word op w (fst p)) postings).

(** The source of a word check, read back as its [like] pattern. *)
Fixpoint unregex (s : string) : string :=
  match s with
  | String "^" s' => unregex s'
  | String "$" EmptyString => EmptyString
  | String "." (String "*" s') => String "*" (unregex s')
  | String "." s' => String "?" (unregex s')
  | String c s' => String c (unregex s')
  | EmptyString => EmptyString
  end.

Definition check_matches (c : WordCheck) (k : string) : bool :=
  match c with
  | CheckWord w => String.eqb k w
  | CheckRegExp source _ =>
      matches_word "like" (toLowerCase (unregex source)) (toLowerCase k)
  end.

Definition posting_substrate (postings : list Posting) : Substrate := {|
  super_count := fun op w => List.length (lookup postings op w);
  super_query := fun op w filter_ =>
    {| entries :=
         filter (fun e =>
                   match filter_ with
                   | Some f => existsb (fun r => String.eqb (path r) (path e)) (entries f)
                   | None => true
                   end)
                (lookup postings op w);
       hints := [];
       filterKey := None |};
  super_query_blacklisting := fun checks =>
    let excluded :=
      map snd (filter (fun p => existsb (fun c => check_matches c (fst p)) checks)
                      postings) in
    {| entries :=
         fold_left
           (fun acc e =>
              if existsb (fun r => String.eqb (path r) (path e)) (excluded ++ acc)
              then acc else (acc ++ [e])%list)
           (map snd postings) [];
       hints := [];
       filterKey := None |};
  super_handleRecordUpdate := fun _ _ _ _ => true
|}.

Definition plain_config : Config :=
  {| c_prepare := None; c_transform := None; c_blacklist := None;
     c_useStoplist := None; c_whitelist := None;
     c_minLength := None; c_maxLength := None |}.

(** An index on the key [text], as [db.indexes.create(path, 'text',
    { type: 'fulltext' })] makes it. *)
Definition text_index : FullTextIndex :=
  {| key := "text"; textLocale := "en"; textLocaleKey := "locale";
     config := plain_config |}.

Definition empty_state : State := {| cache := []; calls := [] |}.

(** The posting a call of [handleRecordUpdate] adds. *)
Definition posting_of (k : string) (c : SuperCall) : list Posting :=
  match c with
  | SuperUpdate p _ (VObject props) (Some stored) =>
      match assoc k props with
      | Some (VString w) => [(w, {| path := p; _occurs_ := MString stored |})]
      | _ => []
      end
  | _ => []
  end.

(** The postings of records written to an empty index. *)
Definition index_records (idx : FullTextIndex) (records : list (string * value))
  : list Posting :=
  flat_map
    (fun r =>
       match update_calls 64 idx (fst r) VNull (snd r) with
       | Ok cs => flat_map (posting_of (key idx)) cs
       | _ => []
       end)
    records.

Definition record (text : string) : value := VObject [("text", VString text)].

Definition paths_of (r : result Results * State) : list string :=
  match fst r with
  | Ok rs => map path (entries rs)
  | _ => []
  end.

Definition the_text_info (r : result TextInfo) : TextInfo :=
  match r with
  | Ok t => t
  | _ => {| locale := ""; words := []; ignored := [] |}
  end.

Definition plain_options : TextInfoOptions :=
  {| o_locale := None; o_pattern := None; o_includeChars := None;
     o_flags := None; o_prepare := None; o_stemming := None;
     o_minLength := None; o_maxLength := None; o_blacklist := None;
     o_whitelist := None; o_useStoplist := None |}.

Definition phrase_options : ContainsOptions :=
  {| phrase := Some true; q_locale := None; minimumWildcardWordLength := Some 2%Z |}.

(** Tokenizer options with a stoplist, a blacklist, a whitelist and short
    bounds on the length. *)
Definition stop_options : TextInfoOptions :=
  {| o_locale := None; o_pattern := None; o_includeChars := None;
     o_flags := None; o_prepare := None; o_stemming := None;
     o_minLength := Some 2%Z; o_maxLength := Some 5%Z; o_blacklist := Some ["fox"];
     o_whitelist := Some ["a"]; o_useStoplist := Some true |}.

Definition the_adds (r : result (list AddCall * list string)) : list AddCall :=
  match r with
  | Ok (adds, _) => adds
  | _ => []
  end.

(** An index on the key ["0"], the first element of an array of texts. *)
Definition first_element_index : FullTextIndex :=
  {| key := "0"; textLocale := "en"; textLocaleKey := "locale";
     config := plain_config |}.


Definition repeated_words : list Posting :=
  index_records text_index [("r1", record "b a x b a")].

Definition late_phrase : list Posting :=
  index_records text_index [("r2", record "a x a b")].


(** The three records of the end-to-end scenarios. *)
Definition three_records : list Posting :=
  index_records text_index
    [("R1", record "The quick brown fox");
     ("R2", record "Quick brown dogs jump");
     ("R3", record "slow green turtles")].

Definition run (postings : list Posting) (op q : string) : list string :=
  paths_of (query (substrate := posting_substrate postings) 12 text_index
              (OpString op) q None empty_state).

End Reference.

(* ================================================================== *)
(** * Properties *)

(** ** Vocabulary of the statements *)

Definition strictly_increasing (l : list N) : Prop := StronglySorted N.lt l.

Record tok_inv (n : N) (ws : list (string * WordInfo)) : Prop := {
  inv_keys : NoDup (map fst ws);
  inv_entry : forall k wi, In (k, wi) ws ->
      word wi = k
      /\ List.length (indexes wi) = List.length (sourceIndexes wi)
      /\ strictly_increasing (indexes wi)
      /\ indexes wi <> []
      /\ (forall i, In i (indexes wi) -> (i < n)%N);
  inv_disjoint : forall k1 w1 k2 w2,
      In (k1, w1) ws -> In (k2, w2) ws -> k1 <> k2 ->
      forall i, In i (indexes w1) -> ~ In i (indexes w2)
}.

Definition not_comma (c : ascii) : bool := negb (Ascii.eqb c ",").

Definition field_ok (f : string) : Prop :=
  f <> "" /\ string_forallb not_comma f = true.

Fixpoint ends_with_comma (s : string) : bool :=
  match s with
  | EmptyString => false
  | String c EmptyString => Ascii.eqb c ","
  | String _ s' => ends_with_comma s'
  end.

Definition safe_index (i : N) : Prop := (i < 2 ^ 53)%N.

(** What the claim calls [changed]: a word of both texts whose occurrence
    count differs, or whose index lists differ at some position. *)
Definition changed (oldTextInfo newTextInfo : TextInfo) (w : string) : Prop :=
  In w (toArray oldTextInfo) /\ In w (toArray newTextInfo)
  /\ exists o n,
      getWordInfo oldTextInfo w = Some o /\ getWordInfo newTextInfo w = Some n
      /\ (occurs o <> occurs n
          \/ exists i a, nth_error (indexes o) i = Some a
                         /\ nth_error (indexes n) i <> Some a).

(** The call that posts word [w] with the metadata of its [WordInfo]. *)
Definition posts (idx : FullTextIndex) (path : string) (newValue : value)
  (newTextInfo : TextInfo) (w : string) (c : SuperCall) : Prop :=
  exists wordInfo,
    getWordInfo newTextInfo w = Some wordInfo
    /\ c = SuperUpdate path (VObject [(key idx, VNull)])
             (VObject (assoc_set (key idx) (VString w) (own_props newValue)))
             (Some (encode_occurs (indexes wordInfo))).


Definition count_of {substrate : Substrate} (w : string) : nat := super_count (word_op w) w.

Definition resolve (options_ : option ContainsOptions) : ContainsOptions :=
  match options_ with Some o => o | None => default_options end.



(** The recursion of [check] is the search it is meant to be, on the arrays
    it is given: some [p] of the first array has [p + i] in the [i]-th. *)
Fixpoint follows (rest : list (list num)) (p : num) : Prop :=
  match rest with
  | [] => True
  | a :: rest' =>
      includes_num a (num_add p (Int 1)) = true /\ follows rest' (num_add p (Int 1))
  end.

(** A word whose first [*] comes after its first character and before the
    minimum. *)
Definition short_wildcard (minimum : Z) (w : string) : bool :=
  ((0 <? indexOf "*" w 0) && (indexOf "*" w 0 <? minimum))%Z.

(** The assignments [arr[index] = word] that [toSequence] makes, in order. *)
Definition writes (ws : list (string * WordInfo)) : list (N * string) :=
  flat_map (fun wi => map (fun i => (i, word (snd wi))) (indexes (snd wi))) ws.

Definition write_all (l : list (N * string)) (arr : list (option string)) :=
  fold_left (fun arr p => sparse_set (N.to_nat (fst p)) (snd p) arr) l arr.

(** The invariant of the tokenizer loop together with what makes the word
    map a sequence: every index below the counter belongs to some word, and
    the occurrences add up to the counter. *)
Record seq_inv (n : N) (ws : list (string * WordInfo)) : Prop := {
  seq_tok : tok_inv n ws;
  seq_cover : forall i, (i < n)%N -> exists k wi, In (k, wi) ws /\ In i (indexes wi);
  seq_count : N.of_nat (list_sum (map (fun p => occurs (snd p)) ws)) = n
}.

Definition is_digit (c : ascii) : bool :=
  ((48 <=? N_of_ascii c) && (N_of_ascii c <=? 57))%N.

(** The substrate honours the [filter] option of a query: the result holds
    the records of the unfiltered query that the filter holds too. *)
Definition honours_filter (substrate : Substrate) : Prop :=
  forall op w f p,
    has_path p (entries (super_query op w (Some f)))
    = has_path p (entries (super_query op w None)) && has_path p (entries f).

(** A count of 0 means a query without filter finds nothing. *)
Definition counts_matches (substrate : Substrate) : Prop :=
  forall op w, super_count op w = 0 -> entries (super_query op w None) = [].

(** The records the substrate holds under word [w]. *)
Definition holds_word {substrate : Substrate} (p w : string) : bool :=
  has_path p (entries (super_query (word_op w) w None)).

(** Two stores of per-word sets with the same paths at the same places. *)
Definition same_paths (a b : list (option (list Entry))) : Prop :=
  Forall2 (fun x y => option_map (map path) x = option_map (map path) y) a b.

(** The options a quoted phrase is queried with. *)
Definition as_phrase (options : ContainsOptions) : ContainsOptions :=
  {| phrase := Some true;
     q_locale := q_locale options;
     minimumWildcardWordLength := minimumWildcardWordLength options |}.

(** What [contains] does with the text left once the phrases are taken out:
    nothing when it is empty or holds no word, a query of its own
    otherwise. *)
Inductive residual_run {host : Host} {substrate : Substrate}
  (fuel : nat) (idx : FullTextIndex) (op : string) (options : ContainsOptions)
  (rest : string) (st1 : State) : list Results -> State -> Prop :=
| residual_empty :
    rest = "" -> residual_run fuel idx op options rest st1 [] st1
| residual_no_word info :
    rest <> "" ->
    contains_getTextInfo fuel idx options rest = Ok info ->
    wordCount info = 0 ->
    residual_run fuel idx op options rest st1 [] st1
| residual_query info rs st2 :
    rest <> "" ->
    contains_getTextInfo fuel idx options rest = Ok info ->
    0 < wordCount info ->
    query fuel idx (OpString op) rest (Some options) st1 = (Ok rs, st2) ->
    residual_run fuel idx op options rest st1 [rs] st2.

(** The word and the [_occurs_] string a call of [add] posts. *)
Definition add_posting (a : AddCall) : option (string * string) :=
  match assoc "_occurs_" (add_metadata a) with
  | Some (VString occ) => Some (add_key a, occ)
  | _ => None
  end.

(** The word and the [_occurs_] string an update of the substrate posts. *)
Definition update_posting (idx : FullTextIndex) (c : SuperCall)
  : option (string * string) :=
  match c with
  | SuperUpdate _ _ (VObject props) (Some occ) =>
      match assoc (key idx) props with
      | Some (VString w) => Some (w, occ)
      | _ => None
      end
  | _ => None
  end.

Ltac rbind_inv H :=
  repeat match type of H with
         | rbind ?r _ = Ok _ =>
             let E := fresh "E" in
             destruct r eqn:E; simpl in H; [|discriminate H|discriminate H]
         end.

(* ================================================================== *)
(** ** Association lists *)

Lemma assoc_In {A} (k : string) (v : A) l : assoc k l = Some v -> In (k, v) l.
Proof.
  induction l as [|[k' v'] l IH]; simpl; [discriminate|].
  destruct (String.eqb_spec k k') as [->|Hne].
  - intros [= ->]. now left.
  - intros H. right. auto.
Qed.

Lemma assoc_None_notin {A} (k : string) (l : list (string * A)) :
  assoc k l = None -> ~ In k (map fst l).
Proof.
  induction l as [|[k' v'] l IH]; simpl; [tauto|].
  destruct (String.eqb_spec k k') as [->|Hne]; [discriminate|].
  intros H [E|E]; [congruence|]. now apply IH.
Qed.

Lemma In_assoc {A} (k : string) (v : A) l :
  NoDup (map fst l) -> In (k, v) l -> assoc k l = Some v.
Proof.
  induction l as [|[k' v'] l IH]; simpl; [tauto|].
  intros Hnd [E|E].
  - injection E as -> ->. now rewrite String.eqb_refl.
  - inversion Hnd as [|? ? Hni Hnd']; subst.
    destruct (String.eqb_spec k k') as [->|Hne].
    + exfalso. apply Hni. now apply (in_map fst) in E.
    + auto.
Qed.

Lemma assoc_set_absent {A} (k : string) (v : A) l :
  assoc k l = None -> assoc_set k v l = (l ++ [(k, v)])%list.
Proof.
  induction l as [|[k' v'] l IH]; simpl; [reflexivity|].
  destruct (String.eqb k k'); [discriminate|].
  intros H. now rewrite IH.
Qed.

Lemma assoc_set_keys {A} (k : string) (v v0 : A) l :
  assoc k l = Some v0 -> map fst (assoc_set k v l) = map fst l.
Proof.
  induction l as [|[k' v'] l IH]; simpl; [discriminate|].
  destruct (String.eqb_spec k k') as [->|Hne]; simpl; [reflexivity|].
  intros H. now rewrite IH.
Qed.

Lemma assoc_set_In {A} (k : string) (v : A) l x :
  NoDup (map fst l) ->
  In x (assoc_set k v l) -> x = (k, v) \/ (fst x <> k /\ In x l).
Proof.
  induction l as [|[k' v'] l IH]; simpl.
  - intros _ [<-|[]]. now left.
  - intros Hnd. inversion Hnd as [|? ? Hni Hnd']; subst.
    destruct (String.eqb_spec k k') as [->|Hne]; simpl.
    + intros [<-|H]; [now left|]. right. split; [|now right].
      intros E. apply Hni. rewrite <- E. now apply in_map.
    + intros [<-|H]; [right; split; [simpl; congruence | now left]|].
      destruct (IH Hnd' H) as [->|[? ?]]; [now left|]. right. split; auto.
Qed.

(* ================================================================== *)
(** ** Invariant of the tokenizer loop *)

Lemma tok_inv_nil : tok_inv 0 [].
Proof. split; simpl; [constructor | tauto | tauto]. Qed.

Lemma strictly_increasing_snoc l n :
  strictly_increasing l -> (forall i, In i l -> (i < n)%N) ->
  strictly_increasing (l ++ [n]).
Proof.
  unfold strictly_increasing. induction 1 as [|a l Hs IH Hall]; simpl; intros Hlt.
  - repeat constructor.
  - constructor; [apply IH; auto|].
    apply Forall_app. split; [assumption|]. constructor; [|constructor]. auto.
Qed.

Lemma push_occurrence_inv w n at_ ws :
  tok_inv n ws -> tok_inv (n + 1) (push_occurrence w n at_ ws).
Proof.
  intros [Hk He Hd]. unfold push_occurrence.
  destruct (assoc w ws) as [wi|] eqn:Hw.
  - pose proof (assoc_In _ _ _ Hw) as Hin.
    destruct (He _ _ Hin) as (Hword & Hlen & Hinc & Hne & Hlt).
    split.
    + now rewrite (assoc_set_keys _ _ _ _ Hw).
    + intros k x Hx. apply assoc_set_In in Hx; [|assumption].
      destruct Hx as [E|[Hne' Hx]].
      * injection E as -> ->. simpl. repeat split; auto.
        -- rewrite !length_app. simpl. lia.
        -- now apply strictly_increasing_snoc.
        -- now destruct (indexes wi).
        -- intros i Hi. apply in_app_or in Hi. destruct Hi as [Hi|[<-|[]]]; [|lia].
           specialize (Hlt _ Hi). lia.
      * destruct (He _ _ Hx) as (? & ? & ? & ? & Hlt'). repeat split; auto.
        intros i Hi. specialize (Hlt' _ Hi). lia.
    + intros k1 w1 k2 w2 H1 H2 Hne12 i Hi1 Hi2.
      apply assoc_set_In in H1; [|assumption].
      apply assoc_set_In in H2; [|assumption].
      destruct H1 as [E1|[N1 H1]], H2 as [E2|[N2 H2]].
      * congruence.
      * injection E1 as -> ->. simpl in Hi1.
        apply in_app_or in Hi1. destruct Hi1 as [Hi1|[<-|[]]].
        -- exact (Hd _ _ _ _ Hin H2 Hne12 _ Hi1 Hi2).
        -- destruct (He _ _ H2) as (_ & _ & _ & _ & Hlt2). specialize (Hlt2 _ Hi2). lia.
      * injection E2 as -> ->. simpl in Hi2.
        apply in_app_or in Hi2. destruct Hi2 as [Hi2|[<-|[]]].
        -- exact (Hd _ _ _ _ H1 Hin Hne12 _ Hi1 Hi2).
        -- destruct (He _ _ H1) as (_ & _ & _ & _ & Hlt1). specialize (Hlt1 _ Hi1). lia.
      * exact (Hd _ _ _ _ H1 H2 Hne12 _ Hi1 Hi2).
  - pose proof (assoc_None_notin _ _ Hw) as Hni.
    rewrite (assoc_set_absent _ _ _ Hw).
    split.
    + rewrite map_app. simpl. apply NoDup_app; auto.
      * repeat constructor. simpl. tauto.
      * intros x Hx [<-|[]]. contradiction.
    + intros k x Hx. apply in_app_or in Hx. destruct Hx as [Hx|[E|[]]].
      * destruct (He _ _ Hx) as (? & ? & ? & ? & Hlt'). repeat split; auto.
        intros i Hi. specialize (Hlt' _ Hi). lia.
      * injection E as <- <-. simpl. repeat split; auto.
        -- repeat constructor.
        -- discriminate.
        -- intros i [<-|[]]. lia.
    + intros k1 w1 k2 w2 H1 H2 Hne12 i Hi1 Hi2.
      apply in_app_or in H1. apply in_app_or in H2.
      destruct H1 as [H1|[E1|[]]], H2 as [H2|[E2|[]]].
      * exact (Hd _ _ _ _ H1 H2 Hne12 _ Hi1 Hi2).
      * injection E2 as <- <-. simpl in Hi2. destruct Hi2 as [<-|[]].
        destruct (He _ _ H1) as (_ & _ & _ & _ & Hlt1). specialize (Hlt1 _ Hi1). lia.
      * injection E1 as <- <-. simpl in Hi1. destruct Hi1 as [<-|[]].
        destruct (He _ _ H2) as (_ & _ & _ & _ & Hlt2). specialize (Hlt2 _ Hi2). lia.
      * congruence.
Qed.

Section TokenizerFacts.
Context {host : Host}.

Lemma tokenize_inv fuel re text loc options minL maxL bl wl :
  forall lastIndex n ws ign r,
    tok_inv n ws ->
    tokenize fuel re text loc options minL maxL bl wl lastIndex n ws ign = Ok r ->
    exists n', tok_inv n' (fst r).
Proof.
  induction fuel as [|fuel IH]; simpl; intros lastIndex n ws ign r Hinv; [discriminate|].
  destruct (re text lastIndex) as [[[at_ w0]|] lastIndex'].
  2:{ intros [= <-]. now exists n. }
  destruct (match o_stemming options with Some f => f w0 loc | None => Some w0 end) as [w1|].
  2:{ eauto. }
  destruct (toLocaleLowerCase loc w1) as [w2|]; [|discriminate].
  destruct ((Z.of_nat (String.length w2) <? minL)%Z || mem_string w2 bl).
  - destruct (negb (mem_string w2 wl)); [eauto|].
    apply IH. now apply push_occurrence_inv.
  - apply IH. now apply push_occurrence_inv.
Qed.

Lemma TextInfo_new_inv fuel text options ti :
  TextInfo_new fuel text options = Ok ti -> exists n, tok_inv n (words ti).
Proof.
  unfold TextInfo_new. intros H. rbind_inv H.
  destruct text;
    try (injection H as <-; exists 0%N; apply tok_inv_nil);
    rbind_inv H; injection H as <-; simpl;
    eapply tokenize_inv; try apply tok_inv_nil; eassumption.
Qed.

End TokenizerFacts.

Lemma wordCount_sum (t : TextInfo) :
  wordCount t = list_sum (map (fun p => occurs (snd p)) (words t)).
Proof.
  unfold wordCount.
  assert (G : forall l a, fold_left (fun total wi => total + occurs (snd wi)) l a
                          = a + list_sum (map (fun p : string * WordInfo => occurs (snd p)) l)).
  { induction l as [|x l IH]; simpl; intros a; [lia|]. rewrite IH. lia. }
  now rewrite G.
Qed.

(** C8. For every text and every tokenizer options, the [TextInfo] the
    constructor returns has: [wordCount] equal to the sum of [occurs] over
    its entries; one entry per word; in every entry, [indexes] strictly
    increasing and as long as [sourceIndexes]; and no index shared by two
    distinct entries. *)
Theorem TextInfo_invariants {host : Host} fuel text options ti :
  TextInfo_new fuel text options = Ok ti ->
  wordCount ti = list_sum (map (fun p => occurs (snd p)) (words ti))
  /\ NoDup (toArray ti)
  /\ (forall k wi, In (k, wi) (words ti) ->
        strictly_increasing (indexes wi)
        /\ List.length (indexes wi) = List.length (sourceIndexes wi))
  /\ (forall a b e1 e2,
        nth_error (words ti) a = Some e1 -> nth_error (words ti) b = Some e2 ->
        a <> b ->
        forall i, In i (indexes (snd e1)) -> ~ In i (indexes (snd e2))).
Proof.
  intros H. destruct (TextInfo_new_inv _ _ _ _ H) as [n [Hk He Hd]].
  split; [apply wordCount_sum|]. split; [exact Hk|]. split.
  - intros k wi Hin. destruct (He _ _ Hin) as (_ & Hlen & Hinc & _). now split.
  - intros a b [k1 w1] [k2 w2] Ha Hb Hab. cbn [snd].
    apply (Hd k1 w1 k2 w2); [eapply nth_error_In; eassumption
                            | eapply nth_error_In; eassumption |].
    intros ->. apply Hab.
    apply (proj1 (NoDup_nth_error (map fst (words ti))) Hk).
    + rewrite length_map. apply nth_error_Some. congruence.
    + rewrite !nth_error_map, Ha, Hb. reflexivity.
Qed.

(* ================================================================== *)
(** ** Strings *)

Lemma length_append (a b : string) :
  String.length (a ++ b) = String.length a + String.length b.
Proof. induction a; simpl; auto. Qed.

Lemma substring_0_length (n : nat) (s : string) :
  String.length (substring 0 n s) <= n.
Proof.
  revert s. induction n as [|n IH]; intros [|c s]; simpl; auto with arith.
Qed.

Lemma substring_0_all (s : string) n :
  String.length s <= n -> substring 0 n s = s.
Proof.
  revert n. induction s as [|c s IH]; intros [|n]; simpl; auto; intros H; try lia.
  f_equal. apply IH. lia.
Qed.

Lemma substring_0_append (a b : string) n :
  substring 0 (String.length a + n) (a ++ b) = a ++ substring 0 n b.
Proof. induction a as [|c a IH]; simpl; [reflexivity | now rewrite IH]. Qed.

Lemma get_append_l (a b : string) n :
  n < String.length a -> get n (a ++ b) = get n a.
Proof. intros H. symmetry. now apply append_correct1. Qed.

Lemma get_append_r (a b : string) n :
  get (String.length a + n) (a ++ b) = get n b.
Proof. rewrite Nat.add_comm. symmetry. apply append_correct2. Qed.

Lemma forallb_get p s n c :
  string_forallb p s = true -> get n s = Some c -> p c = true.
Proof.
  revert n. induction s as [|d s IH]; simpl; intros n Hp; [discriminate|].
  apply andb_true_iff in Hp. destruct Hp as [Hd Hs].
  destruct n; [intros [= <-]; assumption | eauto].
Qed.

Lemma prefix_comma c s : prefix "," (String c s) = Ascii.eqb "," c.
Proof.
  change (prefix "," (String c s))
    with (if ascii_dec ","%char c then prefix "" s else false).
  destruct (ascii_dec ","%char c) as [<-|Hne].
  - now destruct s.
  - symmetry. now apply Ascii.eqb_neq.
Qed.

(* ================================================================== *)
(** ** [lastIndexOf] of a comma *)

Lemma lastIndexOf_go_spec s : forall i pos best,
  (lastIndexOf_go "," s i pos best = best
   /\ forall j, i + j <= pos -> get j s <> Some ","%char)
  \/ exists k, lastIndexOf_go "," s i pos best = Z.of_nat (i + k)
               /\ i + k <= pos /\ get k s = Some ","%char
               /\ forall j, k < j -> i + j <= pos -> get j s <> Some ","%char.
Proof.
  induction s as [|c s IH]; intros i pos best.
  - left. split; [reflexivity | discriminate].
  - cbn [lastIndexOf_go]. rewrite prefix_comma.
    destruct (IH (S i) pos (if (Ascii.eqb "," c && (i <=? pos)%nat)%bool
                            then Z.of_nat i else best))
      as [[E Hno]|(k & E & Hle & Hg & Hmax)].
    + rewrite E. destruct (Ascii.eqb_spec "," c) as [<-|Hc]; simpl.
      * destruct (Nat.leb_spec i pos).
        -- right. exists 0. rewrite Nat.add_0_r. repeat split; auto.
           intros [|j] Hj Hle; [lia|]. simpl. apply Hno. lia.
        -- left. split; [reflexivity|]. intros j Hj. lia.
      * left. split; [reflexivity|].
        intros [|j] Hj; simpl; [congruence|]. apply Hno. lia.
    + right. exists (S k). rewrite E. split; [f_equal; lia|]. split; [lia|].
      split; [exact Hg|]. intros [|j] Hj Hle'; [lia|]. simpl. apply Hmax; lia.
Qed.

(** [lastIndexOf(',', pos)] finds the last comma at or before [pos], when
    there is one. *)
Lemma lastIndexOf_comma s pos j :
  get j s = Some ","%char -> j <= pos ->
  exists k, lastIndexOf "," s pos = Z.of_nat k /\ k <= pos
            /\ get k s = Some ","%char
            /\ forall j', k < j' -> j' <= pos -> get j' s <> Some ","%char.
Proof.
  intros Hg Hle. unfold lastIndexOf.
  destruct (lastIndexOf_go_spec s 0 pos (-1)%Z) as [[_ Hno]|(k & E & Hk & Hgk & Hmax)].
  - exfalso. exact (Hno j Hle Hg).
  - exists k. auto.
Qed.

Lemma get_Some_lt s n c : get n s = Some c -> n < String.length s.
Proof.
  revert n. induction s as [|d s IH]; intros [|n]; simpl; try discriminate; try lia.
  intros H. apply IH in H. lia.
Qed.

Lemma slice_0 s k :
  k <= String.length s -> slice s 0 (Z.of_nat k) = substring 0 k s.
Proof.
  intros H. unfold slice, rel_index.
  destruct (Z.ltb_spec 0 0); [lia|].
  destruct (Z.ltb_spec (Z.of_nat k) 0); [lia|].
  rewrite Nat2Z.id. simpl Z.to_nat. rewrite Nat.min_0_l, Nat.sub_0_r.
  now rewrite Nat.min_l.
Qed.

(* ================================================================== *)
(** ** Comma-joined fields *)

Lemma field_no_comma f n : field_ok f -> get n f <> Some ","%char.
Proof.
  intros [_ H] Hg. pose proof (forallb_get _ _ _ _ H Hg) as Hc. discriminate.
Qed.

Lemma ends_with_comma_append a b :
  b <> "" -> ends_with_comma (a ++ b) = ends_with_comma b.
Proof.
  intros Hb. induction a as [|c a IH]; [reflexivity|].
  simpl. destruct (a ++ b) eqn:E; [|exact IH].
  destruct a; simpl in E; [contradiction|discriminate].
Qed.

Lemma field_not_ending f : field_ok f -> ends_with_comma f = false.
Proof.
  intros [_ H]. induction f as [|c f IH]; [reflexivity|].
  simpl in H. apply andb_true_iff in H. destruct H as [Hc Hf].
  simpl. destruct f; [|auto].
  unfold not_comma in Hc. now apply negb_true_iff in Hc.
Qed.

Lemma join_not_ending fields :
  Forall field_ok fields -> ends_with_comma (join "," fields) = false.
Proof.
  unfold join. induction 1 as [|f l Hf Hl IH]; [reflexivity|].
  destruct l as [|g l]; [now apply field_not_ending|].
  change (String.concat "," (f :: g :: l)) with (f ++ "," ++ String.concat "," (g :: l)).
  rewrite ends_with_comma_append by discriminate.
  inversion Hl as [|? ? [Hg _] _]; subst.
  change ("," ++ String.concat "," (g :: l)) with (String "," (String.concat "," (g :: l))).
  cbn [ends_with_comma].
  destruct (String.concat "," (g :: l)) eqn:E; [|exact IH].
  exfalso. destruct l; simpl in E; [contradiction|].
  destruct g; [contradiction|discriminate].
Qed.

(** Cutting a joined string at one of its commas leaves whole fields. *)
Lemma join_cut fields :
  Forall field_ok fields ->
  forall c, get c (join "," fields) = Some ","%char ->
  exists k, 0 < k < List.length fields
            /\ substring 0 c (join "," fields) = join "," (firstn k fields).
Proof.
  unfold join. induction 1 as [|f l Hf Hl IH]; intros c Hg; [discriminate|].
  destruct l as [|g l].
  - exfalso. exact (field_no_comma _ _ Hf Hg).
  - change (String.concat "," (f :: g :: l))
      with (f ++ String "," (String.concat "," (g :: l))) in *.
    destruct (Nat.lt_ge_cases c (String.length f)) as [Hlt|Hge].
    + exfalso. rewrite get_append_l in Hg by assumption.
      exact (field_no_comma _ _ Hf Hg).
    + replace c with (String.length f + (c - String.length f)) in * by lia.
      rewrite get_append_r in Hg. rewrite substring_0_append.
      destruct (c - String.length f) as [|c'] eqn:Ec.
      * exists 1. split; [simpl; lia|]. simpl.
        destruct f; simpl; [reflexivity|]. f_equal.
        clear. induction f; simpl; congruence.
      * simpl in Hg. destruct (IH c' Hg) as (k & Hk & E).
        exists (S k). split; [simpl in *; lia|].
        cbn [substring]. rewrite E.
        destruct k as [|k]; [lia|]. reflexivity.
Qed.

(* ================================================================== *)
(** ** Decimal rendering *)

Lemma digit_char_not_comma d : (d < 10)%N -> not_comma (digit_char d) = true.
Proof.
  intros H.
  assert (E : (d = 0 \/ d = 1 \/ d = 2 \/ d = 3 \/ d = 4 \/ d = 5 \/ d = 6 \/ d = 7
              \/ d = 8 \/ d = 9)%N) by lia.
  repeat (destruct E as [->|E]; [reflexivity|]). now subst.
Qed.

Lemma digits_go_ok fuel : forall n acc,
  string_forallb not_comma acc = true ->
  string_forallb not_comma (digits_go fuel n acc) = true.
Proof.
  induction fuel as [|fuel IH]; simpl; intros n acc H; [assumption|].
  assert (H' : string_forallb not_comma (String (digit_char (n mod 10)) acc) = true).
  { simpl. rewrite H, digit_char_not_comma; [reflexivity|].
    apply N.mod_lt. discriminate. }
  destruct (n / 10 =? 0)%N; auto.
Qed.

Lemma digits_go_length fuel : forall n acc k,
  (n < 10 ^ N.of_nat k)%N -> 1 <= k ->
  String.length (digits_go fuel n acc) <= k + String.length acc.
Proof.
  induction fuel as [|fuel IH]; simpl; intros n acc k Hn Hk; [lia|].
  destruct (N.eqb_spec (n / 10) 0) as [E|E]; [simpl; lia|].
  destruct k as [|[|k]]; [lia| |].
  - exfalso. apply E. apply N.div_small. exact Hn.
  - specialize (IH (n / 10)%N (String (digit_char (n mod 10)) acc) (S k)).
    simpl String.length in IH.
    assert ((n / 10 < 10 ^ N.of_nat (S k))%N).
    { apply N.Div0.div_lt_upper_bound.
      replace (N.of_nat (S (S k))) with (N.succ (N.of_nat (S k))) in Hn by lia.
      now rewrite N.pow_succ_r' in Hn. }
    specialize (IH H ltac:(lia)). lia.
Qed.

Lemma digits_go_nonempty fuel n acc :
  0 < fuel -> digits_go fuel n acc <> "".
Proof.
  destruct fuel as [|fuel]; [lia|]. intros _. simpl.
  assert (G : forall f m a, a <> "" -> digits_go f m a <> "").
  { induction f as [|f IH]; simpl; intros m a Ha; [assumption|].
    destruct (m / 10 =? 0)%N; [discriminate|]. apply IH. discriminate. }
  destruct (n / 10 =? 0)%N; [discriminate|]. apply G. discriminate.
Qed.

Lemma N_toString_ok n : field_ok (N_toString n).
Proof.
  split.
  - apply digits_go_nonempty. lia.
  - now apply digits_go_ok.
Qed.

Lemma N_toString_length n :
  (n < 2 ^ 53)%N -> String.length (N_toString n) <= 16.
Proof.
  intros H. unfold N_toString.
  pose proof (digits_go_length (S (N.to_nat (N.log2 n))) n "" 16) as G.
  simpl String.length in G. rewrite Nat.add_0_r in G. apply G; [|lia].
  eapply N.lt_le_trans; [exact H|]. now vm_compute.
Qed.

(* ================================================================== *)
(** ** The stored [_occurs_] string *)

Lemma encode_occurs_spec (l : list N) :
  Forall safe_index l ->
  let full := join "," (map N_toString l) in
  (String.length full <= 255 -> encode_occurs l = full)
  /\ (255 < String.length full ->
      exists c, c <= 255 /\ get c full = Some ","%char
                /\ (forall j, c < j -> j <= 255 -> get j full <> Some ","%char)
                /\ encode_occurs l = substring 0 c full)
  /\ String.length (encode_occurs l) <= 255
  /\ ends_with_comma (encode_occurs l) = false
  /\ (exists k, k <= List.length l
               /\ encode_occurs l = join "," (map N_toString (firstn k l))).
Proof.
  intros Hsafe full. unfold encode_occurs. fold full.
  assert (Hok : Forall field_ok (map N_toString l)).
  { apply Forall_forall. intros f Hf. apply in_map_iff in Hf.
    destruct Hf as (n & <- & _). apply N_toString_ok. }
  destruct (Nat.ltb_spec 255 (String.length full)) as [Hlong|Hshort].
  2:{ split; [reflexivity|]. split; [lia|]. split; [assumption|].
      split; [now apply join_not_ending|].
      exists (List.length l). split; [lia|]. now rewrite firstn_all. }
  (* a comma lies within the first 256 bytes: the one after the first field *)
  assert (Hcomma : exists j, get j full = Some ","%char /\ j <= 255).
  { unfold full in *. destruct l as [|a [|b l]]; simpl in Hlong; [lia| |].
    - inversion Hsafe as [|? ? Ha _]; subst.
      pose proof (N_toString_length a Ha). lia.
    - inversion Hsafe as [|? ? Ha _]; subst.
      pose proof (N_toString_length a Ha).
      exists (String.length (N_toString a)). split; [|lia].
      change (join "," (map N_toString (a :: b :: l)))
        with (N_toString a ++ String "," (join "," (map N_toString (b :: l)))).
      rewrite <- (Nat.add_0_r (String.length (N_toString a))) at 1.
      now rewrite get_append_r. }
  destruct Hcomma as (j & Hj & Hj255).
  destruct (lastIndexOf_comma _ 255 j Hj Hj255) as (c & -> & Hc & Hgc & Hmax).
  pose proof (get_Some_lt _ _ _ Hgc) as Hclen.
  rewrite slice_0 by lia.
  destruct (join_cut _ Hok c Hgc) as (k & Hk & E). fold full in E.
  split; [lia|].
  split; [intros _; exists c; auto|].
  split; [pose proof (substring_0_length c full); lia|].
  split.
  { rewrite E. apply join_not_ending.
    apply Forall_forall. intros f Hf.
    assert (Hin : In f (map N_toString l)).
    { rewrite <- (firstn_skipn k (map N_toString l)). apply in_or_app. now left. }
    revert f Hin Hf. intros f Hin _. revert f Hin. now apply Forall_forall. }
  exists k. rewrite length_map in Hk. split; [lia|].
  rewrite E. now rewrite firstn_map.
Qed.

Lemma mem_string_In x l : mem_string x l = true <-> In x l.
Proof.
  unfold mem_string. rewrite existsb_exists. split.
  - intros (y & Hy & E). apply String.eqb_eq in E. now subst.
  - intros H. exists x. split; [assumption | apply String.eqb_refl].
Qed.

Lemma mem_string_false x l : mem_string x l = false <-> ~ In x l.
Proof.
  rewrite <- mem_string_In. destruct (mem_string x l); split; congruence.
Qed.

Lemma In_keys_assoc {A} (k : string) (l : list (string * A)) :
  In k (map fst l) -> exists v, assoc k l = Some v.
Proof.
  induction l as [|[k' v'] l IH]; simpl; [tauto|].
  destruct (String.eqb_spec k k') as [->|Hne]; [eauto|].
  intros [E|H]; [congruence | auto].
Qed.

Lemma assoc_In_keys {A} (k : string) (v : A) l :
  assoc k l = Some v -> In k (map fst l).
Proof. intros H. apply assoc_In in H. now apply (in_map fst) in H. Qed.

Lemma In_indexed_from {A} (l : list A) : forall s i a,
  In (i, a) (indexed_from s l) <-> (s <= i /\ nth_error l (i - s) = Some a).
Proof.
  induction l as [|x l IH]; simpl; intros s i a.
  - split; [tauto|]. intros [_ H]. destruct (i - s); discriminate.
  - rewrite IH. split.
    + intros [E|[Hle Hn]].
      * injection E as <- <-. rewrite Nat.sub_diag. auto.
      * split; [lia|]. replace (i - s) with (S (i - S s)) by lia. exact Hn.
    + intros [Hle Hn]. destruct (i - s) as [|d] eqn:E.
      * left. injection Hn as <-. f_equal. lia.
      * right. split; [lia|]. replace (i - S s) with d by lia. exact Hn.
Qed.

Lemma In_indexed {A} (l : list A) i a :
  In (i, a) (indexed l) <-> nth_error l i = Some a.
Proof.
  unfold indexed. rewrite In_indexed_from, Nat.sub_0_r. split; [tauto|]. split; [lia|auto].
Qed.

Lemma word_changed_spec o n :
  word_changed o n = true <->
  (occurs o <> occurs n
   \/ exists i a, nth_error (indexes o) i = Some a /\ nth_error (indexes n) i <> Some a).
Proof.
  unfold word_changed. rewrite orb_true_iff, negb_true_iff, Nat.eqb_neq, existsb_exists.
  split; (intros [H|H]; [now left|right]).
  - destruct H as ([i a] & Hin & Hc). apply In_indexed in Hin. simpl in Hc.
    exists i, a. split; [assumption|].
    destruct (nth_error (indexes n) i) as [j|]; [|discriminate].
    apply negb_true_iff, N.eqb_neq in Hc. congruence.
  - destruct H as (i & a & Ho & Hn). exists (i, a). split; [now apply In_indexed|].
    simpl. destruct (nth_error (indexes n) i) as [j|]; [|reflexivity].
    apply negb_true_iff, N.eqb_neq. congruence.
Qed.

Lemma changed_words_spec o n w :
  In w (changed_words o n) <-> changed o n w.
Proof.
  unfold changed_words, changed. rewrite !filter_In, mem_string_In. split.
  - intros [[Ho Hn] Hc].
    destruct (getWordInfo o w) as [wo|]; [|discriminate].
    destruct (getWordInfo n w) as [wn|]; [|discriminate].
    split; [assumption|]. split; [assumption|].
    exists wo, wn. split; [reflexivity|]. split; [reflexivity|].
    now apply word_changed_spec.
  - intros (Ho & Hn & wo & wn & -> & -> & Hc).
    split; [now split|]. now apply word_changed_spec.
Qed.

Section MaintenanceFacts.
Context {host : Host} {substrate : Substrate}.

Lemma add_calls_total idx path newValue newTextInfo added :
  (forall w, In w added -> In w (toArray newTextInfo)) ->
  exists adds,
    map_r (add_call idx path newValue newTextInfo) added = Ok adds
    /\ Forall2 (posts idx path newValue newTextInfo) added adds.
Proof.
  induction added as [|w l IH]; intros Hin; simpl.
  - exists []. split; [reflexivity | constructor].
  - destruct IH as (adds & E & HF); [intros; apply Hin; now right|].
    destruct (In_keys_assoc w (words newTextInfo) (Hin w (or_introl eq_refl)))
      as (wi & Hwi).
    unfold add_call at 1. unfold getWordInfo. rewrite Hwi. simpl. rewrite E. simpl.
    eexists. split; [reflexivity|]. constructor; [|assumption].
    exists wi. split; [exact Hwi | reflexivity].
Qed.

Lemma update_calls_shape fuel idx path oldValue newValue oldTextInfo newTextInfo :
  record_text_info fuel idx oldValue = Ok oldTextInfo ->
  record_text_info fuel idx newValue = Ok newTextInfo ->
  let ch := changed_words oldTextInfo newTextInfo in
  let removed := (removed_words (toArray oldTextInfo) (toArray newTextInfo) ++ ch)%list in
  let added := (added_words (toArray oldTextInfo) (toArray newTextInfo) ++ ch)%list in
  exists adds,
    Forall2 (posts idx path newValue newTextInfo) added adds
    /\ update_calls fuel idx path oldValue newValue
       = Ok (map (remove_call idx path) removed ++ adds)%list.
Proof.
  intros Ho Hn ch removed added.
  destruct (add_calls_total idx path newValue newTextInfo added) as (adds & E & HF).
  { intros w Hw. unfold added in Hw. apply in_app_or in Hw. destruct Hw as [Hw|Hw].
    - unfold added_words in Hw. now apply filter_In in Hw.
    - apply changed_words_spec in Hw. now destruct Hw as (_ & Hw & _). }
  exists adds. split; [exact HF|].
  unfold update_calls. rewrite Ho, Hn. simpl.
  fold ch. fold removed added. now rewrite E.
Qed.





End MaintenanceFacts.

(* ================================================================== *)
(** ** Sorting by a key *)

Lemma insert_by_perm {A} (key : A -> nat) x l :
  Permutation (insert_by key x l) (x :: l).
Proof.
  induction l as [|y l IH]; simpl; [reflexivity|].
  destruct (key x <? key y)%nat; [reflexivity|].
  rewrite IH. apply perm_swap.
Qed.

Lemma sort_by_perm {A} (key : A -> nat) l : Permutation (sort_by key l) l.
Proof.
  unfold sort_by.
  assert (G : forall l acc,
             Permutation (fold_left (fun acc x => insert_by key x acc) l acc)
                         (acc ++ l)).
  { clear l. induction l as [|x l IH]; simpl; intros acc.
    - now rewrite app_nil_r.
    - rewrite IH, insert_by_perm. apply Permutation_cons_app. reflexivity. }
  apply (G l []).
Qed.




(* ================================================================== *)
(** ** [query]: the operators it accepts *)

Section QueryFacts.
Context {host : Host} {substrate : Substrate}.

(** C9. [query] with a blacklisting operator fails as not implemented, with
    any operator name other than the two valid ones it fails as
    unsupported (and so does [contains]), both without a call to the
    substrate or a change of the cache; it succeeds only for
    ['fulltext:contains'] and ['fulltext:!contains']. *)
Theorem query_operators fuel idx val options st :
  query fuel idx OpBlacklisting val options st = (Throw NotImplemented, st)
  /\ (forall s, s <> op_contains -> s <> op_not_contains ->
        query fuel idx (OpString s) val options st = (Throw UnsupportedOperator, st)
        /\ contains (S fuel) idx s val options st = (Throw UnsupportedOperator, st))
  /\ (forall op r st', query fuel idx op val options st = (Ok r, st') ->
        op = OpString op_contains \/ op = OpString op_not_contains).
Proof.
  split; [reflexivity|]. split.
  - intros s H1 H2. unfold query, query_with. simpl.
    apply String.eqb_neq in H1, H2.
    unfold mem_string, validOperators. simpl. rewrite H1, H2. simpl. now split.
  - intros [s|] r st'; unfold query, query_with; [|discriminate].
    destruct (String.eqb_spec s op_contains) as [->|]; [now left|].
    destruct (String.eqb_spec s op_not_contains) as [->|]; [now right|].
    simpl. discriminate.
Qed.

(* ================================================================== *)
(** ** Bare words: a word the index lacks *)

Lemma counts_run words : forall st,
  mapM (fun w => bind (count_ (word_op w) w) (fun c => ret (w, c))) words st
  = (Ok (map (fun w => (w, count_of w)) words),
     {| cache := cache st;
        calls := (calls st ++ map (fun w => SuperCount (word_op w) w) words)%list |}).
Proof.
  induction words as [|w l IH]; intros st; simpl.
  - unfold ret. rewrite app_nil_r. now destruct st.
  - unfold bind at 1. unfold bind at 1. unfold count_. simpl.
    unfold bind at 1. rewrite IH. simpl. unfold ret. simpl.
    now rewrite <- app_assoc.
Qed.


End QueryFacts.

(* ================================================================== *)
(** ** Splitting on [' OR '] *)

Lemma prefix_nil s : prefix "" s = true.
Proof. now destruct s. Qed.

Lemma prefix_cons a p b s :
  prefix (String a p) (String b s) = (Ascii.eqb a b && prefix p s)%bool.
Proof.
  change (prefix (String a p) (String b s))
    with (if ascii_dec a b then prefix p s else false).
  destruct (ascii_dec a b) as [->|Hne].
  - now rewrite Ascii.eqb_refl.
  - apply Ascii.eqb_neq in Hne. now rewrite Hne.
Qed.

Lemma append_nil_r s : s ++ "" = s.
Proof. induction s; simpl; congruence. Qed.

Lemma append_assoc (a b c : string) : (a ++ b) ++ c = a ++ b ++ c.
Proof. induction a; simpl; congruence. Qed.

Lemma includes_cons sep c s :
  includes sep (String c s) = false ->
  prefix sep (String c s) = false /\ includes sep s = false.
Proof.
  unfold includes. cbn [index_of].
  destruct (prefix sep (String c s)); [discriminate|].
  destruct (index_of sep s); [discriminate|]. auto.
Qed.

(** A string without the separator is a single piece. *)
Lemma split_go_single sep s : forall cur,
  includes sep s = false -> split_go sep 0 cur s = [cur ++ s].
Proof.
  induction s as [|c s IH]; intros cur H; cbn [split_go].
  - now rewrite append_nil_r.
  - apply includes_cons in H. destruct H as [Hp Hs].
    rewrite Hp, IH by assumption.
    now rewrite append_assoc.
Qed.



(* ================================================================== *)
(** ** Union of OR branches *)




Section UnionFacts.
Context {host : Host} {substrate : Substrate}.


End UnionFacts.

(* ================================================================== *)
(** ** The phrase checker *)

Lemma check_next_follows a rest p :
  (check_next (map Some (a :: rest)) p = Ok true <-> follows (a :: rest) p)
  /\ (check_next (map Some (a :: rest)) p = Ok true
      \/ check_next (map Some (a :: rest)) p = Ok false).
Proof.
  revert a p. induction rest as [|b rest IH]; intros a p; cbn [map check_next follows].
  - destruct (includes_num a (num_add p (Int 1))); split; auto; split; try tauto;
      try discriminate. intros [H _]. discriminate.
  - destruct (includes_num a (num_add p (Int 1))).
    + destruct (IH b (num_add p (Int 1))) as [IH1 IH2]. cbn [map] in IH1, IH2.
      split; [|exact IH2]. rewrite IH1. cbn [follows]. tauto.
    + split; [|now right]. split; [discriminate|]. intros [H _]. discriminate.
Qed.

Lemma check_searches first a rest :
  check (map Some (first :: a :: rest)) = Ok true
  <-> exists p, In p first /\ follows (a :: rest) p.
Proof.
  cbn [map check].
  change (Some a :: map Some rest) with (map Some (a :: rest)).
  induction first as [|q first IH]; cbn [some_r].
  - split; [discriminate | intros (p & [] & _)].
  - destruct (check_next_follows a rest q) as [Hq [E|E]]; rewrite E; cbn [rbind].
    + split; [|reflexivity]. intros _. exists q. split; [now left | now apply Hq].
    + rewrite IH. split.
      * intros (p & Hp & Hf). exists p. split; [now right | exact Hf].
      * intros (p & [<-|Hp] & Hf); [|eauto].
        apply Hq in Hf. congruence.
Qed.

(* ================================================================== *)
(** ** Evaluations on the reference host *)

(** Whatever the second field is, it is parsed in radix 1. *)
Lemma decode_occurs_second s f0 f1 rest :
  split "," s = f0 :: f1 :: rest -> nth_error (decode_occurs s) 1 = Some NaN.
Proof.
  intros E. unfold decode_occurs, indexed. rewrite E. cbn [indexed_from map nth_error fst snd].
  unfold parseInt.
  match goal with |- Some (let '(_, _) := ?m in _) = _ => now destruct m end.
Qed.

(* ================================================================== *)
(** ** Wildcard-only words *)

Lemma ignore_wildcards_only_diverges fuel words i :
  findIndex wildcards_only words = Some i ->
  forall info, ignore_wildcards_only fuel words info = OutOfFuel.
Proof.
  intros E. induction fuel as [|fuel IH]; intros info; cbn [ignore_wildcards_only].
  - reflexivity.
  - rewrite E. apply IH.
Qed.

Section PredicateFacts.
Context {host : Host}.

Lemma some_r_all_false {A} (f : A -> result bool) l :
  (forall x, f x = Ok false) -> some_r f l = Ok false.
Proof.
  intros H. induction l as [|x l IH]; cbn [some_r]; [reflexivity|].
  rewrite H. cbn [rbind]. exact IH.
Qed.

(** C10, as amended. For an object whose indexed key holds a string that
    has itself no property under the index key, and a query value with
    [' OR '], [test] for ['fulltext:contains'] answers [false] once the
    text is tokenized: every branch is tested against the text string in
    place of the object. *)
Theorem test_or_never_matches fuel idx obj text val textInfo :
  get_prop obj (key idx) = Ok (VString text) ->
  get_prop (VString text) (key idx) = Ok VUndefined ->
  includes " OR " val = true ->
  getTextInfo (S fuel) idx (VString text)
    (nullish_or (get_prop_opt obj (textLocaleKey idx)) (VString (textLocale idx)))
  = Ok textInfo ->
  test (S (S fuel)) idx obj op_contains val = Ok (TBool false).
Proof.
  intros Hobj Htext Hor Hinfo.
  assert (Hbranch : forall v,
             (t <?- test (S fuel) idx (VString text) op_contains v ;; Ok (truthy t))
             = Ok false).
  { intros v. cbn [test]. rewrite Htext. reflexivity. }
  destruct obj; try discriminate;
    cbn [test]; rewrite Hobj; cbn [rbind]; rewrite Hinfo; cbn [rbind];
    change (String.eqb op_contains op_contains) with true; cbv iota;
    rewrite Hor; rewrite (some_r_all_false _ _ Hbranch); reflexivity.
Qed.

End PredicateFacts.

(* ================================================================== *)
(** ** Pruning of wildcard words *)

Lemma filter_filter {A} (f g : A -> bool) l :
  filter f (filter g l) = filter (fun x => g x && f x) l.
Proof.
  induction l as [|x l IH]; simpl; [reflexivity|].
  destruct (g x); simpl; [destruct (f x)|]; now rewrite IH.
Qed.

Lemma filter_all {A} (f : A -> bool) l :
  (forall x, In x l -> f x = true) -> filter f l = l.
Proof.
  induction l as [|x l IH]; simpl; intros H; [reflexivity|].
  rewrite (H x (or_introl eq_refl)). f_equal. apply IH. intros; apply H; now right.
Qed.

Lemma assoc_delete_keys {A} (k : string) (l : list (string * A)) :
  NoDup (map fst l) ->
  map fst (assoc_delete k l) = filter (fun k' => negb (String.eqb k' k)) (map fst l).
Proof.
  induction l as [|[k' v] l IH]; simpl; intros Hnd; [reflexivity|].
  inversion Hnd as [|? ? Hni Hnd']; subst.
  rewrite (String.eqb_sym k' k).
  destruct (String.eqb_spec k k') as [->|Hne]; simpl.
  - symmetry. apply filter_all. intros x Hx.
    apply negb_true_iff, String.eqb_neq. intros ->. contradiction.
  - f_equal. now apply IH.
Qed.

Lemma ignore_short_wildcards_spec minimum ws : forall info,
  NoDup (toArray info) ->
  toArray (ignore_short_wildcards minimum ws info)
  = filter (fun k => negb (short_wildcard minimum k && mem_string k ws)) (toArray info)
  /\ ignored (ignore_short_wildcards minimum ws info)
     = (ignored info ++ filter (short_wildcard minimum) ws)%list.
Proof.
  unfold ignore_short_wildcards.
  induction ws as [|w ws IH]; intros info Hnd; cbn [fold_left].
  - split; [|now rewrite app_nil_r].
    symmetry. apply filter_all. intros x _. cbn. now rewrite andb_false_r.
  - fold (short_wildcard minimum w). cbn [filter].
    destruct (short_wildcard minimum w) eqn:Hs.
    + destruct (IH (ignore_word info w)) as [IH1 IH2].
      { unfold toArray, ignore_word. cbn [words].
        rewrite assoc_delete_keys by exact Hnd. now apply NoDup_filter. }
      rewrite IH1, IH2. split.
      * unfold toArray at 1, ignore_word. cbn [words].
        rewrite assoc_delete_keys by exact Hnd. fold (toArray info).
        rewrite filter_filter. apply filter_ext. intros k. cbn [mem_string existsb].
        destruct (String.eqb_spec k w) as [->|Hne]; cbn.
        -- now rewrite Hs.
        -- reflexivity.
      * unfold ignore_word. cbn [ignored]. now rewrite <- app_assoc.
    + destruct (IH info Hnd) as [IH1 IH2]. rewrite IH1, IH2. split; [|reflexivity].
      apply filter_ext. intros k. cbn [mem_string existsb].
      destruct (String.eqb_spec k w) as [->|Hne]; cbn; [|reflexivity].
      now rewrite Hs.
Qed.

Lemma findIndex_None {A} (p : A -> bool) l :
  (forall x, In x l -> p x = false) -> findIndex p l = None.
Proof.
  induction l as [|x l IH]; intros H; cbn [findIndex]; [reflexivity|].
  rewrite (H x (or_introl eq_refl)), IH; [reflexivity|]. intros; apply H; now right.
Qed.

Section PruningFacts.
Context {host : Host} {substrate : Substrate}.

Lemma query_text_fuel fuel idx options text info0 :
  TextInfo_new fuel (VString text) (query_text_options idx options) = Ok info0 ->
  fuel <> 0.
Proof. intros H ->. vm_compute in H. discriminate. Qed.

Lemma contains_words_hints fuel idx op val options st r st' info :
  contains_getTextInfo fuel idx options val = Ok info ->
  contains_words fuel idx op val options st = (Ok r, st') ->
  forall w, In w (ignored info) ->
            In {| hint_kind := ignoredWord; hint_word := w |} (hints r).
Proof.
  intros Hinfo Hrun w Hw.
  assert (Hh : In {| hint_kind := ignoredWord; hint_word := w |} (ignored_hints info)).
  { unfold ignored_hints. now apply (in_map (fun w => {| hint_kind := ignoredWord; hint_word := w |})). }
  unfold contains_words in Hrun. unfold bind at 1 in Hrun. unfold lift in Hrun.
  rewrite Hinfo in Hrun.
  destruct (toArray info) as [|w1 ws].
  { injection Hrun as <- _. exact Hh. }
  destruct (String.eqb op op_not_contains).
  - unfold bind, query_blacklisting_, cache_, ret in Hrun.
    injection Hrun as <- _. cbn [hints]. apply in_or_app. now right.
  - unfold bind at 1 in Hrun. rewrite counts_run in Hrun.
    destruct (sort_by snd _) as [|c0 cs]; [discriminate|].
    destruct (snd c0 =? 0)%nat.
    + unfold bind, cache_, ret in Hrun. injection Hrun as <- _.
      cbn [hints]. apply in_or_app. now left.
    + unfold bind at 1 in Hrun.
      destruct (nextWord _ _ _ _ _) as [[[[last rpw] slot]| |] s1]; try discriminate.
      unfold bind at 1 in Hrun.
      match type of Hrun with
      | (let (_, _) := ?m s1 in _) = _ => destruct (m s1) as [[results| |] s2]
      end; try discriminate.
      unfold bind, cache_, ret in Hrun. injection Hrun as <- _.
      cbn [hints]. apply in_or_app. now right.
Qed.

(** C6, as amended. When the query text tokenizes to words none of which
    is made of wildcards only, and the minimum is positive: the words left
    are those whose first [*] is not at a position [p] with
    [0 < p < minimum], the others are appended to the ignored words in
    order, and every ignored word has its hint on the result of the
    bare-words path. *)
Theorem query_tokens_pruned fuel idx options text info0 minimum :
  TextInfo_new fuel (VString text) (query_text_options idx options) = Ok info0 ->
  (forall w, In w (toArray info0) -> wildcards_only w = false) ->
  minimumWildcardWordLength options = Some minimum ->
  (0 < minimum)%Z ->
  exists info,
    contains_getTextInfo fuel idx options text = Ok info
    /\ toArray info = filter (fun w => negb (short_wildcard minimum w)) (toArray info0)
    /\ ignored info
       = (ignored info0 ++ filter (short_wildcard minimum) (toArray info0))%list
    /\ forall op st r st',
         contains_words fuel idx op text options st = (Ok r, st') ->
         forall w, In w (ignored info) ->
                   In {| hint_kind := ignoredWord; hint_word := w |} (hints r).
Proof.
  intros Hnew Hnone Hmin Hpos.
  pose proof (query_text_fuel _ _ _ _ _ Hnew) as Hfuel.
  destruct (TextInfo_new_inv _ _ _ _ Hnew) as [n [Hnd _ _]].
  destruct (ignore_short_wildcards_spec minimum (toArray info0) info0 Hnd) as [Hw Hi].
  assert (Hrun : contains_getTextInfo fuel idx options text
                 = Ok (ignore_short_wildcards minimum (toArray info0) info0)).
  { unfold contains_getTextInfo. fold (query_text_options idx options).
    rewrite Hnew. cbn [rbind].
    destruct fuel as [|fuel]; [contradiction|]. cbn [ignore_wildcards_only].
    rewrite (findIndex_None _ _ Hnone). cbn [rbind]. rewrite Hmin.
    destruct (Z.ltb_spec 0 minimum); [reflexivity | lia]. }
  eexists. split; [exact Hrun|]. split; [|split; [exact Hi|]].
  - rewrite Hw. apply filter_ext_in. intros k Hk.
    assert (Hm : mem_string k (toArray info0) = true) by now apply mem_string_In.
    now rewrite Hm, andb_true_r.
  - intros op st r st'. now apply contains_words_hints.
Qed.

End PruningFacts.

(* ================================================================== *)
(** * Further properties *)

(* ================================================================== *)
(** ** Substrings and single characters *)

Lemma substring_length s : forall n m,
  n + m <= String.length s -> String.length (substring n m s) = m.
Proof.
  induction s as [|c s IH]; intros [|n] [|m]; cbn [substring String.length]; intros H;
    try lia; try reflexivity.
  - rewrite IH; lia.
  - apply IH. lia.
  - apply IH. lia.
Qed.

Lemma slice_from_nat s a :
  a <= String.length s -> slice_from s (Z.of_nat a) = substring a (String.length s - a) s.
Proof.
  intros H. unfold slice_from, rel_index.
  destruct (Z.ltb_spec (Z.of_nat a) 0); [lia|].
  rewrite Nat2Z.id. now rewrite Nat.min_l.
Qed.

Lemma slice_0_cut s m :
  (0 <= m)%Z -> (m < Z.of_nat (String.length s))%Z ->
  Z.of_nat (String.length (slice s 0 m)) = m.
Proof.
  intros H0 Hlt. unfold slice, rel_index.
  destruct (Z.ltb_spec 0 0); [lia|]. destruct (Z.ltb_spec m 0); [lia|].
  simpl Z.to_nat. rewrite Nat.min_0_l, Nat.sub_0_r.
  rewrite substring_length by lia. lia.
Qed.

Lemma prefix_char c d s : prefix (str1 c) (String d s) = Ascii.eqb c d.
Proof. unfold str1. rewrite prefix_cons, prefix_nil. apply andb_true_r. Qed.

Lemma includes_char_cons c d s :
  includes (str1 c) (String d s) = false -> Ascii.eqb c d = false /\ includes (str1 c) s = false.
Proof.
  intros H. apply includes_cons in H. destruct H as [H1 H2]. now rewrite prefix_char in H1.
Qed.

Lemma index_of_char_append c a b :
  includes (str1 c) a = false ->
  index_of (str1 c) (a ++ String c b) = Some (String.length a).
Proof.
  induction a as [|d a IH]; intros H.
  - cbn [append index_of]. now rewrite prefix_char, Ascii.eqb_refl.
  - apply includes_char_cons in H. destruct H as [Hd Ha].
    cbn [append index_of]. rewrite prefix_char, Hd, (IH Ha). reflexivity.
Qed.

Lemma split_go_char c a b : forall cur,
  includes (str1 c) a = false ->
  split_go (str1 c) 0 cur (a ++ String c b) = (cur ++ a) :: split_go (str1 c) 0 "" b.
Proof.
  induction a as [|d a IH]; intros cur H.
  - cbn [append split_go]. rewrite prefix_char, Ascii.eqb_refl. cbn.
    now rewrite append_nil_r.
  - apply includes_char_cons in H. destruct H as [Hd Ha].
    cbn [append split_go]. rewrite prefix_char, Hd.
    rewrite IH by assumption. now rewrite append_assoc.
Qed.

Lemma includes_nonempty sep s : includes sep s = true -> sep <> "" -> s <> "".
Proof.
  intros H Hsep ->. unfold includes in H. cbn in H.
  destruct sep; [contradiction|]. discriminate.
Qed.

(* ================================================================== *)
(** ** The locale registry *)

Section LocaleFacts.
Context {host : Host}.

(** X1. [TextInfo.locales.get] on a locale name [a-b] that the registry does
    not define, with [a] not empty: the settings are those of the second
    segment [b], so the English stoplist applies exactly when [b] is
    ["en"]; the name ["en-US"] gets none. *)
Theorem locales_get_second_segment a b :
  a <> "" ->
  includes "-" a = false ->
  includes "-" b = false ->
  locale_defined (a ++ "-" ++ b) = false ->
  ls_stoplist (locales_get (a ++ "-" ++ b))
  = if String.eqb b "en" then Some en_stoplist else None.
Proof.
  intros Ha Hia Hib Hdef. unfold locales_get. cbn [ls_stoplist]. rewrite Hdef. cbn [negb andb].
  change ("-" ++ b) with (String "-" b).
  assert (Hidx : indexOf "-" (a ++ String "-" b) 0 = Z.of_nat (String.length a)).
  { unfold indexOf. rewrite Nat.min_0_l, Nat.sub_0_r, substring_0_all by lia.
    change "-" with (str1 "-"). now rewrite index_of_char_append. }
  rewrite Hidx.
  assert (Hpos : (0 <? Z.of_nat (String.length a))%Z = true).
  { apply Z.ltb_lt. destruct a; [contradiction | cbn [String.length]; lia]. }
  rewrite Hpos. unfold split. change "-" with (str1 "-").
  rewrite split_go_char by assumption.
  rewrite (split_go_single (str1 "-") b "" Hib). reflexivity.
Qed.

End LocaleFacts.

(* ================================================================== *)
(** ** The sequence of a text *)

Lemma sparse_set_length {A} (x : A) : forall i arr,
  List.length (sparse_set i x arr) = Nat.max (List.length arr) (S i).
Proof.
  induction i as [|i IH]; intros [|y arr]; cbn [sparse_set List.length].
  - reflexivity.
  - lia.
  - rewrite IH. cbn [List.length]. lia.
  - rewrite IH. lia.
Qed.

Lemma sparse_set_nth {A} (x : A) : forall i arr j,
  nth j (sparse_set i x arr) None = if (j =? i)%nat then Some x else nth j arr None.
Proof.
  induction i as [|i IH]; intros [|y arr] [|j]; cbn [sparse_set nth Nat.eqb]; try reflexivity.
  - now destruct j.
  - rewrite IH. destruct (j =? i)%nat; [reflexivity|]. now destruct j.
  - apply IH.
Qed.

Lemma toSequence_writes t : toSequence t = write_all (writes (words t)) [].
Proof.
  unfold toSequence, write_all, writes. generalize (@nil (option string)).
  induction (words t) as [|[k wi] ws IH]; intros arr; cbn [fold_left flat_map]; [reflexivity|].
  rewrite fold_left_app, IH. f_equal. cbn [snd].
  clear. revert arr. induction (indexes wi) as [|i l IH]; intros arr; cbn [fold_left map]; [reflexivity|].
  now rewrite IH.
Qed.

Lemma write_all_origin l : forall arr j v,
  nth j (write_all l arr) None = Some v ->
  In (N.of_nat j, v) l \/ nth j arr None = Some v.
Proof.
  induction l as [|[i w] l IH]; intros arr j v H; cbn [write_all fold_left] in H; [now right|].
  apply IH in H. destruct H as [H|H]; [left; now right|].
  cbn [fst snd] in H. rewrite sparse_set_nth in H.
  destruct (Nat.eqb_spec j (N.to_nat i)) as [->|Hne]; [|now right].
  left. left. rewrite N2Nat.id. congruence.
Qed.

Lemma write_all_keeps l : forall arr j v,
  nth j arr None = Some v -> exists v', nth j (write_all l arr) None = Some v'.
Proof.
  induction l as [|[i w] l IH]; intros arr j v H; cbn [write_all fold_left]; [eauto|].
  cbn [fst snd]. 
  destruct (Nat.eqb_spec j (N.to_nat i)) as [E|Hne].
  - apply (IH _ j w). rewrite sparse_set_nth. rewrite <- E, Nat.eqb_refl. reflexivity.
  - apply (IH _ j v). rewrite sparse_set_nth.
    destruct (Nat.eqb_spec j (N.to_nat i)); [contradiction|assumption].
Qed.

Lemma write_all_written l : forall arr i w,
  In (i, w) l -> exists v, nth (N.to_nat i) (write_all l arr) None = Some v.
Proof.
  induction l as [|[i' w'] l IH]; intros arr i w H; [destruct H|].
  destruct H as [E|H]; cbn [write_all fold_left].
  - injection E as -> ->. cbn [fst snd].
    apply (write_all_keeps l _ _ w). rewrite sparse_set_nth, Nat.eqb_refl. reflexivity.
  - eapply IH. eassumption.
Qed.

Lemma write_all_length_le l n : forall arr,
  List.length arr <= n -> (forall i w, In (i, w) l -> N.to_nat i < n) ->
  List.length (write_all l arr) <= n.
Proof.
  induction l as [|[i w] l IH]; intros arr Ha Hl; cbn [write_all fold_left]; [assumption|].
  apply IH.
  - rewrite sparse_set_length. cbn [fst]. specialize (Hl i w (or_introl eq_refl)). lia.
  - intros i' w' H. apply (Hl i' w'). now right.
Qed.

Lemma nth_Some_lt {A} (l : list (option A)) j v : nth j l None = Some v -> j < List.length l.
Proof.
  intros H. destruct (Nat.lt_ge_cases j (List.length l)) as [|Hge]; [assumption|].
  rewrite nth_overflow in H by assumption. discriminate.
Qed.

Lemma In_writes ws i w :
  In (i, w) (writes ws) <-> exists k wi, In (k, wi) ws /\ In i (indexes wi) /\ word wi = w.
Proof.
  unfold writes. rewrite in_flat_map. split.
  - intros ([k wi] & Hin & H). cbn [snd] in H. apply in_map_iff in H.
    destruct H as (i' & E & Hi). injection E as -> <-. exists k, wi. auto.
  - intros (k & wi & Hin & Hi & <-). exists (k, wi). split; [assumption|].
    cbn [snd]. apply in_map_iff. exists i. auto.
Qed.

Lemma list_sum_assoc_set (f : WordInfo -> nat) k v v0 : forall ws : list (string * WordInfo),
  assoc k ws = Some v0 ->
  list_sum (map (fun p => f (snd p)) (assoc_set k v ws)) + f v0
  = list_sum (map (fun p => f (snd p)) ws) + f v.
Proof.
  induction ws as [|[k' v'] ws IH]; cbn [assoc assoc_set]; [discriminate|].
  destruct (String.eqb k k').
  - intros [= ->]. cbn [map list_sum snd fold_right].
    generalize (fold_right Init.Nat.add 0 (map (fun p : string * WordInfo => f (snd p)) ws)).
    generalize (f v) (f v0). intros; lia.
  - intros H. specialize (IH H). cbn [map list_sum snd fold_right] in *.
    unfold list_sum in IH. revert IH.
    generalize (fold_right Init.Nat.add 0 (map (fun p : string * WordInfo => f (snd p)) ws)).
    generalize (fold_right Init.Nat.add 0 (map (fun p : string * WordInfo => f (snd p)) (assoc_set k v ws))).
    generalize (f v) (f v0) (f v'). intros; lia.
Qed.

Lemma push_occurrence_seq_inv w n at_ ws :
  seq_inv n ws -> seq_inv (n + 1) (push_occurrence w n at_ ws).
Proof.
  intros [Ht Hc Hs]. split; [now apply push_occurrence_inv| |].
  - intros i Hi. unfold push_occurrence.
    destruct (assoc w ws) as [wi|] eqn:Hw.
    + pose proof (assoc_In _ _ _ Hw) as Hin.
      destruct (N.eq_dec i n) as [->|Hne].
      * eexists w, _. split.
        -- assert (G : forall (l : list (string * WordInfo)) v v0, assoc w l = Some v0 -> In (w, v) (assoc_set w v l)).
           { clear. induction l as [|[k' v'] l IH]; cbn [assoc assoc_set]; [discriminate|].
             intros v v0. destruct (String.eqb w k'); [now left|]. intros H. right. eauto. }
           eapply G. exact Hw.
        -- cbn. apply in_or_app. right. now left.
      * destruct (Hc i ltac:(lia)) as (k & wi' & Hk & Hi').
        destruct (String.eqb_spec k w) as [->|Hkw].
        -- destruct Ht as [Hnd _ _]. rewrite (In_assoc _ _ _ Hnd Hk) in Hw. injection Hw as ->.
           eexists w, _. split.
           ++ assert (G : forall (l : list (string * WordInfo)) v v0, assoc w l = Some v0 -> In (w, v) (assoc_set w v l)).
              { clear. induction l as [|[k' v'] l IH]; cbn [assoc assoc_set]; [discriminate|].
                intros v v0. destruct (String.eqb w k'); [now left|]. intros H. right. eauto. }
              eapply G. eapply In_assoc; eassumption.
           ++ cbn. apply in_or_app. now left.
        -- exists k, wi'. split; [|assumption].
           assert (G : forall (l : list (string * WordInfo)) v, In (k, wi') l -> In (k, wi') (assoc_set w v l)).
           { clear - Hkw. induction l as [|[k' v'] l IH]; cbn [assoc_set]; [intros v []|].
             intros v [E|H].
             - injection E as -> ->. destruct (String.eqb_spec w k); [congruence|now left].
             - destruct (String.eqb w k'); right; auto. }
           now apply G.
    + rewrite (assoc_set_absent _ _ _ Hw).
      destruct (N.eq_dec i n) as [->|Hne].
      * eexists w, _. split; [apply in_or_app; right; now left|]. now left.
      * destruct (Hc i ltac:(lia)) as (k & wi' & Hk & Hi').
        exists k, wi'. split; [apply in_or_app; now left | assumption].
  - unfold push_occurrence. destruct (assoc w ws) as [wi|] eqn:Hw.
    + pose proof (list_sum_assoc_set occurs w
                    {| word := word wi; indexes := indexes wi ++ [n];
                       sourceIndexes := sourceIndexes wi ++ [at_] |} wi ws Hw) as E.
      set (new := {| word := word wi; indexes := indexes wi ++ [n];
                     sourceIndexes := sourceIndexes wi ++ [at_] |}) in *.
      assert (En : occurs new = S (occurs wi)).
      { unfold occurs, new. cbn [indexes]. rewrite List.length_app. cbn [List.length]. lia. }
      rewrite En in E. lia.
    + rewrite (assoc_set_absent _ _ _ Hw), map_app, list_sum_app. cbn. lia.
Qed.

Lemma seq_inv_nil : seq_inv 0 [].
Proof.
  split; [apply tok_inv_nil | intros i Hi; lia | reflexivity].
Qed.

Section TokenizerSeq.
Context {host : Host}.

Lemma tokenize_seq_inv fuel re text loc options minL maxL bl wl :
  forall lastIndex n ws ign r,
    seq_inv n ws ->
    tokenize fuel re text loc options minL maxL bl wl lastIndex n ws ign = Ok r ->
    exists n', seq_inv n' (fst r).
Proof.
  induction fuel as [|fuel IH]; simpl; intros lastIndex n ws ign r Hinv; [discriminate|].
  destruct (re text lastIndex) as [[[at_ w0]|] lastIndex'].
  2:{ intros [= <-]. now exists n. }
  destruct (match o_stemming options with Some f => f w0 loc | None => Some w0 end) as [w1|].
  2:{ eauto. }
  destruct (toLocaleLowerCase loc w1) as [w2|]; [|discriminate].
  destruct ((Z.of_nat (String.length w2) <? minL)%Z || mem_string w2 bl).
  - destruct (negb (mem_string w2 wl)); [eauto|].
    apply IH. now apply push_occurrence_seq_inv.
  - apply IH. now apply push_occurrence_seq_inv.
Qed.

Lemma TextInfo_new_seq_inv fuel text options ti :
  TextInfo_new fuel text options = Ok ti -> exists n, seq_inv n (words ti).
Proof.
  unfold TextInfo_new. intros H. rbind_inv H.
  destruct text;
    try (injection H as <-; exists 0%N; apply seq_inv_nil);
    rbind_inv H; injection H as <-; simpl;
    eapply tokenize_seq_inv; try apply seq_inv_nil; eassumption.
Qed.

End TokenizerSeq.

(** What [toSequence] holds at each position, for a word map that satisfies
    the invariant of the tokenizer. *)
Lemma toSequence_spec n t :
  seq_inv n (words t) ->
  List.length (toSequence t) = wordCount t
  /\ wordCount t = N.to_nat n
  /\ (forall i w, nth i (toSequence t) None = Some w <->
                  exists wi, getWordInfo t w = Some wi /\ In (N.of_nat i) (indexes wi)).
Proof.
  intros [[Hnd He Hd] Hc Hs].
  assert (Horigin : forall i w, nth i (toSequence t) None = Some w ->
                       exists wi, getWordInfo t w = Some wi /\ In (N.of_nat i) (indexes wi)).
  { intros i w H. rewrite toSequence_writes in H. apply write_all_origin in H.
    destruct H as [H|H]; [|now destruct i].
    apply In_writes in H. destruct H as (k & wi & Hin & Hi & Hw).
    destruct (He _ _ Hin) as (Hk & _). exists wi. split; [|assumption].
    unfold getWordInfo. apply In_assoc; [assumption|]. congruence. }
  assert (Hwc : wordCount t = N.to_nat n).
  { rewrite wordCount_sum. rewrite <- Hs. now rewrite Nat2N.id. }
  assert (Hwritten : forall k wi i, In (k, wi) (words t) -> In i (indexes wi) ->
                       nth (N.to_nat i) (toSequence t) None = Some k).
  { intros k wi i Hin Hi.
    destruct (He _ _ Hin) as (Hk & _).
    destruct (write_all_written (writes (words t)) [] i (word wi)) as (v & Hv).
    { apply In_writes. exists k, wi. auto. }
    rewrite <- toSequence_writes in Hv. rewrite Hv. f_equal.
    destruct (Horigin _ _ Hv) as (wi' & Hg & Hi'). rewrite N2Nat.id in Hi'.
    apply assoc_In in Hg.
    destruct (String.eqb_spec k v) as [E|Hne]; [now symmetry|].
    exfalso. exact (Hd _ _ _ _ Hin Hg Hne _ Hi Hi'). }
  split; [|split; [exact Hwc|]].
  - rewrite Hwc. apply Nat.le_antisymm.
    + rewrite toSequence_writes. apply write_all_length_le; [simpl; lia|].
      intros i w H. apply In_writes in H. destruct H as (k & wi & Hin & Hi & _).
      destruct (He _ _ Hin) as (_ & _ & _ & _ & Hlt). specialize (Hlt _ Hi). lia.
    + destruct (N.to_nat n) as [|m] eqn:En; [lia|].
      destruct (Hc (N.of_nat m) ltac:(lia)) as (k & wi & Hin & Hi).
      pose proof (Hwritten _ _ _ Hin Hi) as Hv. rewrite Nat2N.id in Hv.
      apply nth_Some_lt in Hv. lia.
  - intros i w. split; [apply Horigin|].
    intros (wi & Hg & Hi). apply assoc_In in Hg.
    pose proof (Hwritten _ _ _ Hg Hi) as Hv. now rewrite Nat2N.id in Hv.
Qed.

Lemma nth_error_nth_None {A} (l : list (option A)) i :
  i < List.length l -> nth_error l i = Some (nth i l None).
Proof.
  revert i. induction l as [|x l IH]; intros [|i]; simpl; intros H; try lia; [reflexivity|].
  apply IH. lia.
Qed.

Lemma nth_error_Some_nth {A} (l : list (option A)) i w :
  nth_error l i = Some (Some w) <-> nth i l None = Some w.
Proof.
  split.
  - intros E. assert (Hi : i < List.length l) by (apply nth_error_Some; congruence).
    rewrite nth_error_nth_None in E by assumption. congruence.
  - intros E. pose proof (nth_Some_lt _ _ _ E) as Hi.
    rewrite nth_error_nth_None by assumption. congruence.
Qed.

(** Below [wordCount] the sequence has no hole. *)
Lemma toSequence_dense n t i :
  seq_inv n (words t) -> i < wordCount t ->
  exists w wi, nth_error (toSequence t) i = Some (Some w)
               /\ getWordInfo t w = Some wi
               /\ In (N.of_nat i) (indexes wi).
Proof.
  intros Hinv Hi. destruct (toSequence_spec n t Hinv) as (Hlen & Hwc & Hnth).
  destruct Hinv as [[Hnd _ _] Hc _].
  destruct (Hc (N.of_nat i) ltac:(lia)) as (k & wi & Hin & Hin').
  exists k, wi.
  assert (Hg : getWordInfo t k = Some wi) by now apply In_assoc.
  split; [|now split]. apply nth_error_Some_nth. apply Hnth. eauto.
Qed.

Lemma toSequence_members n t :
  seq_inv n (words t) ->
  forall w, In (Some w) (toSequence t) <-> In w (toArray t).
Proof.
  intros Hinv w. destruct (toSequence_spec n t Hinv) as (_ & _ & Hnth). split.
  - intros Hin. destruct (In_nth _ _ None Hin) as (i & Hi & E).
    apply Hnth in E. destruct E as (wi & Hg & _). eapply assoc_In_keys. exact Hg.
  - intros Hin. destruct (In_keys_assoc w (words t) Hin) as (wi & Hwi).
    destruct Hinv as [[_ He _] _ _].
    destruct (He _ _ (assoc_In _ _ _ Hwi)) as (_ & _ & _ & Hne & _).
    destruct (indexes wi) as [|i l] eqn:Ei; [contradiction|].
    assert (Hv : nth (N.to_nat i) (toSequence t) None = Some w).
    { apply Hnth. exists wi. split; [exact Hwi|]. rewrite N2Nat.id, Ei. now left. }
    rewrite <- Hv. apply nth_In. eapply nth_Some_lt. eassumption.
Qed.

(** X2. For a [TextInfo] the constructor returns, [toSequence] has as many
    places as [wordCount], none of them a hole, and holds word [w] at place
    [i] exactly when [i] is among the indexes of [w]. *)
Theorem toSequence_reconstructs {host : Host} fuel text options ti :
  TextInfo_new fuel text options = Ok ti ->
  List.length (toSequence ti) = wordCount ti
  /\ (forall i, i < wordCount ti ->
        exists w wi, nth_error (toSequence ti) i = Some (Some w)
                     /\ getWordInfo ti w = Some wi
                     /\ In (N.of_nat i) (indexes wi))
  /\ (forall i w, nth_error (toSequence ti) i = Some (Some w) <->
        exists wi, getWordInfo ti w = Some wi /\ In (N.of_nat i) (indexes wi)).
Proof.
  intros H. destruct (TextInfo_new_seq_inv _ _ _ _ H) as (n & Hinv).
  destruct (toSequence_spec n ti Hinv) as (Hlen & Hwc & Hnth).
  split; [exact Hlen|]. split.
  - intros i Hi. now apply (toSequence_dense n).
  - intros i w. rewrite <- Hnth. apply nth_error_Some_nth.
Qed.

(* ================================================================== *)
(** ** The words the tokenizer keeps and ignores *)

Lemma push_occurrence_keys w n at_ ws k :
  In k (map fst (push_occurrence w n at_ ws)) -> k = w \/ In k (map fst ws).
Proof.
  unfold push_occurrence. destruct (assoc w ws) as [wi|] eqn:Hw.
  - rewrite (assoc_set_keys _ _ _ _ Hw). now right.
  - rewrite (assoc_set_absent _ _ _ Hw), map_app, in_app_iff. simpl. intuition.
Qed.

Lemma push_ignored_NoDup w ign : NoDup ign -> NoDup (push_ignored w ign).
Proof.
  intros H. unfold push_ignored. destruct (mem_string w ign) eqn:E; [assumption|].
  apply mem_string_false in E. apply NoDup_app; [assumption | repeat constructor; simpl; tauto |].
  intros x Hx [<-|[]]. contradiction.
Qed.

Lemma push_ignored_In w ign x : In x (push_ignored w ign) -> x = w \/ In x ign.
Proof.
  unfold push_ignored. destruct (mem_string w ign); [now right|].
  rewrite in_app_iff. simpl. intuition.
Qed.

Section TokenizerWords.
Context {host : Host}.

(** Every key the loop adds is a lower-cased word that is whitelisted, or
    one that passed the length and blacklist tests, cut to the maximal
    length. *)
Lemma tokenize_keys (P : string -> Prop) fuel re text loc options minL maxL bl wl :
  (forall w, mem_string w wl = true -> P w) ->
  (forall w, (Z.of_nat (String.length w) <? minL)%Z || mem_string w bl = false ->
             P (if (maxL <? Z.of_nat (String.length w))%Z then slice w 0 maxL else w)) ->
  forall lastIndex n ws ign r,
    (forall k, In k (map fst ws) -> P k) ->
    tokenize fuel re text loc options minL maxL bl wl lastIndex n ws ign = Ok r ->
    forall k, In k (map fst (fst r)) -> P k.
Proof.
  intros Hwl Hcut.
  induction fuel as [|fuel IH]; simpl; intros lastIndex n ws ign r Hws; [discriminate|].
  destruct (re text lastIndex) as [[[at_ w0]|] lastIndex'].
  2:{ intros [= <-]. exact Hws. }
  destruct (match o_stemming options with Some f => f w0 loc | None => Some w0 end) as [w1|].
  2:{ eauto. }
  destruct (toLocaleLowerCase loc w1) as [w2|]; [|discriminate].
  destruct ((Z.of_nat (String.length w2) <? minL)%Z || mem_string w2 bl) eqn:Ec.
  - destruct (mem_string w2 wl) eqn:Ew; simpl; [|eauto].
    apply IH. intros k Hk. apply push_occurrence_keys in Hk.
    destruct Hk as [->|Hk]; auto.
  - apply IH. intros k Hk. apply push_occurrence_keys in Hk.
    destruct Hk as [->|Hk]; auto.
Qed.

Lemma tokenize_ignored fuel re text loc options minL maxL bl wl :
  forall lastIndex n ws ign r,
    NoDup ign ->
    tokenize fuel re text loc options minL maxL bl wl lastIndex n ws ign = Ok r ->
    NoDup (snd r)
    /\ (o_stemming options = None ->
        forall w, In w (snd r) -> In w ign \/ mem_string w wl = false).
Proof.
  induction fuel as [|fuel IH]; simpl; intros lastIndex n ws ign r Hnd; [discriminate|].
  destruct (re text lastIndex) as [[[at_ w0]|] lastIndex'].
  2:{ intros [= <-]. split; [assumption|]. intros _ w Hw. now left. }
  destruct (o_stemming options) as [f|] eqn:Est.
  - destruct (f w0 loc) as [w1|].
    2:{ intros H. apply IH in H; [|now apply push_ignored_NoDup].
        split; [apply H | discriminate]. }
    destruct (toLocaleLowerCase loc w1) as [w2|]; [|discriminate].
    destruct ((Z.of_nat (String.length w2) <? minL)%Z || mem_string w2 bl).
    + destruct (negb (mem_string w2 wl)); intros H; apply IH in H;
        try (now apply push_ignored_NoDup); try assumption;
        (split; [apply H | discriminate]).
    + intros H; apply IH in H; [|assumption]. split; [apply H | discriminate].
  - destruct (toLocaleLowerCase loc w0) as [w2|]; [|discriminate].
    destruct ((Z.of_nat (String.length w2) <? minL)%Z || mem_string w2 bl).
    + destruct (mem_string w2 wl) eqn:Ew; simpl; intros H; apply IH in H;
        try (now apply push_ignored_NoDup); try assumption.
      destruct H as [H1 H2]. split; [assumption|]. intros _ w Hw.
      destruct (H2 eq_refl w Hw) as [Hi|Hi]; [|now right].
      apply push_ignored_In in Hi. destruct Hi as [->|Hi]; [now right | now left].
    + intros H; apply IH in H; assumption.
Qed.

(** X3. With a maximal length that is not negative, every word the
    constructor stores is whitelisted, or is at most [maxLength] long; and
    when it is shorter than [maxLength] it is at least [minLength] long,
    not in the blacklist and, with [useStoplist], not in the stoplist of
    the locale. *)
Theorem stored_words_filtered fuel text options ti :
  TextInfo_new fuel text options = Ok ti ->
  let locale := match truthy_string (o_locale options) with Some l => l | None => "en" end in
  let minLength := match o_minLength options with Some n => n | None => 1%Z end in
  let maxLength := match o_maxLength options with Some n => n | None => 25%Z end in
  let blacklist := match o_blacklist options with Some l => l | None => [] end in
  let whitelist := match o_whitelist options with Some l => l | None => [] end in
  (0 <= maxLength)%Z ->
  forall w, In w (toArray ti) ->
    In w whitelist
    \/ ((Z.of_nat (String.length w) <= maxLength)%Z
        /\ ((Z.of_nat (String.length w) < maxLength)%Z ->
            (minLength <= Z.of_nat (String.length w))%Z
            /\ ~ In w blacklist
            /\ (o_useStoplist options = Some true ->
                forall stop, ls_stoplist (locales_get locale) = Some stop -> ~ In w stop))).
Proof.
  intros H locale minLength maxLength blacklist whitelist Hmax.
  set (bl := match ls_stoplist (locales_get locale), o_useStoplist options with
             | Some stop, Some true => (blacklist ++ stop)%list
             | _, _ => blacklist
             end).
  set (P := fun w =>
              In w whitelist
              \/ ((Z.of_nat (String.length w) <= maxLength)%Z
                  /\ ((Z.of_nat (String.length w) < maxLength)%Z ->
                      (minLength <= Z.of_nat (String.length w))%Z
                      /\ mem_string w bl = false))).
  assert (Hwl : forall w, mem_string w whitelist = true -> P w).
  { intros w Hw. left. now apply mem_string_In. }
  assert (Hcut : forall w,
             (Z.of_nat (String.length w) <? minLength)%Z || mem_string w bl = false ->
             P (if (maxLength <? Z.of_nat (String.length w))%Z
                then slice w 0 maxLength else w)).
  { intros w Hc. right. apply orb_false_iff in Hc. destruct Hc as [Hlen Hbl].
    apply Z.ltb_ge in Hlen.
    destruct (Z.ltb_spec maxLength (Z.of_nat (String.length w))).
    - rewrite slice_0_cut by assumption. split; lia.
    - split; [assumption|]. intros _. now split. }
  assert (HP : forall w, In w (toArray ti) -> P w).
  { unfold TextInfo_new in H. rbind_inv H.
    destruct text; try (injection H as <-; intros w Hw; simpl in Hw; contradiction).
    all: rbind_inv H; injection H as <-; unfold toArray; cbn [words].
    all: assert (Hnil : forall k, In k (map fst (@nil (string * WordInfo))) -> P k)
           by (intros k []).
    all: match goal with
         | E : tokenize _ _ _ _ _ _ _ _ _ _ _ _ _ = Ok _ |- _ =>
             exact (tokenize_keys P _ _ _ _ _ _ _ _ _ Hwl Hcut _ _ _ _ _ Hnil E)
         end. }
  intros w Hw. destruct (HP w Hw) as [Hin|[Hle Hrest]]; [now left|]. right.
  split; [assumption|]. intros Hlt. destruct (Hrest Hlt) as [Hmin Hbl].
  split; [assumption|]. apply mem_string_false in Hbl. unfold bl in Hbl. split.
  - intros Hin. apply Hbl.
    destruct (ls_stoplist (locales_get locale)) as [stop|]; [|assumption].
    destruct (o_useStoplist options) as [[|]|]; try assumption.
    apply in_or_app. now left.
  - intros Hstop stop Hls Hin. apply Hbl. rewrite Hls, Hstop.
    apply in_or_app. now right.
Qed.

(** X4. The ignored words of a constructed [TextInfo] are pairwise
    distinct; without a stemming callback none of them is whitelisted. *)
Theorem ignored_words_distinct fuel text options ti :
  TextInfo_new fuel text options = Ok ti ->
  NoDup (ignored ti)
  /\ (o_stemming options = None ->
      forall w, In w (ignored ti) ->
        ~ In w (match o_whitelist options with Some l => l | None => [] end)).
Proof.
  intros H. unfold TextInfo_new in H. rbind_inv H.
  destruct text;
    try (injection H as <-; cbn [ignored]; split; [apply NoDup_nil | intros _ w Hw; destruct Hw]);
    rbind_inv H; injection H as <-; cbn [ignored];
    match goal with
    | E : tokenize _ _ _ _ _ _ _ _ _ _ _ _ _ = Ok _ |- _ =>
        apply tokenize_ignored in E; [|apply NoDup_nil]; destruct E as [Hn1 Hn2]
    end;
    (split; [exact Hn1|]); intros Hst w Hw;
    destruct (Hn2 Hst w Hw) as [[]|Hf]; now apply mem_string_false.
Qed.

End TokenizerWords.

(* ================================================================== *)
(** ** More fuel gives the same [TextInfo] *)

Lemma rbind_mono {A B} (m m' : result A) (k k' : A -> result B) r :
  (forall a, m = Ok a -> m' = Ok a) ->
  (forall a, k a = Ok r -> k' a = Ok r) ->
  rbind m k = Ok r -> rbind m' k' = Ok r.
Proof.
  intros Hm Hk. destruct m as [a| |]; cbn [rbind]; try discriminate.
  rewrite (Hm a eq_refl). cbn [rbind]. apply Hk.
Qed.

Section FuelFacts.
Context {host : Host}.

Lemma splice_includeChars_mono insert : forall f f' pattern pos r,
  f <= f' ->
  splice_includeChars f pattern insert pos = Ok r ->
  splice_includeChars f' pattern insert pos = Ok r.
Proof.
  induction f as [|f IH]; intros f' pattern pos r Hle; cbn [splice_includeChars];
    [discriminate|].
  destruct f' as [|f']; [lia|]. cbn [splice_includeChars].
  destruct (_ =? 0)%Z; [auto|]. apply IH. lia.
Qed.

Lemma safe_unidecode_mono : forall f f' str r,
  f <= f' -> safe_unidecode f str = Ok r -> safe_unidecode f' str = Ok r.
Proof.
  induction f as [|f IH]; intros f' str r Hle; cbn [safe_unidecode]; [discriminate|].
  destruct f' as [|f']; [lia|]. cbn [safe_unidecode].
  destruct (String.eqb str (unidecode str)); [auto|]. apply IH. lia.
Qed.

Lemma tokenize_mono re text loc options minL maxL bl wl : forall f f' lastIndex n ws ign r,
  f <= f' ->
  tokenize f re text loc options minL maxL bl wl lastIndex n ws ign = Ok r ->
  tokenize f' re text loc options minL maxL bl wl lastIndex n ws ign = Ok r.
Proof.
  induction f as [|f IH]; intros f' lastIndex n ws ign r Hle; cbn [tokenize];
    [discriminate|].
  destruct f' as [|f']; [lia|]. cbn [tokenize].
  assert (Hle' : f <= f') by lia.
  destruct (re text lastIndex) as [[[at_ w0]|] lastIndex']; [|auto].
  destruct (match o_stemming options with Some g => g w0 loc | None => Some w0 end)
    as [w1|]; [|now apply IH].
  destruct (toLocaleLowerCase loc w1) as [w2|]; [|auto].
  destruct (_ || _); [destruct (negb _)|]; now apply IH.
Qed.

Lemma TextInfo_new_mono f f' text options ti :
  f <= f' -> TextInfo_new f text options = Ok ti -> TextInfo_new f' text options = Ok ti.
Proof.
  intros Hle. unfold TextInfo_new. cbv zeta.
  apply rbind_mono.
  { intros a. destruct (truthy_string (o_includeChars options)); [|auto].
    destruct (0 <=? _)%Z; [|auto]. now apply splice_includeChars_mono. }
  intros pattern. apply rbind_mono; [auto|]. intros re.
  destruct text; auto;
    (apply rbind_mono; [auto|]; intros text1;
     apply rbind_mono; [intros a; now apply safe_unidecode_mono|]; intros text2;
     apply rbind_mono; [intros a; now apply tokenize_mono | auto]).
Qed.

Lemma TextInfo_new_agree f1 f2 text options t1 t2 :
  TextInfo_new f1 text options = Ok t1 -> TextInfo_new f2 text options = Ok t2 -> t1 = t2.
Proof.
  intros H1 H2.
  apply (TextInfo_new_mono _ (Nat.max f1 f2)) in H1; [|lia].
  apply (TextInfo_new_mono _ (Nat.max f1 f2)) in H2; [|lia].
  congruence.
Qed.

End FuelFacts.

(* ================================================================== *)
(** ** [test] on words and on phrases *)

Lemma some_r_not_true {A} (f : A -> result bool) l :
  (forall x, In x l -> f x <> Ok true) -> some_r f l <> Ok true.
Proof.
  induction l as [|x l IH]; cbn [some_r]; intros H; [discriminate|].
  pose proof (H x (or_introl eq_refl)) as Hx.
  destruct (f x) as [[|]| |]; cbn [rbind]; try discriminate; [congruence|].
  apply IH. intros; apply H; now right.
Qed.

Lemma every_r_true {A} (f : A -> result bool) l :
  every_r f l = Ok true -> forall x, In x l -> f x = Ok true.
Proof.
  induction l as [|x l IH]; cbn [every_r]; intros H y Hy; [destruct Hy|].
  destruct (f x) as [[|]| |] eqn:E; cbn [rbind] in H; try discriminate.
  destruct Hy as [<-|Hy]; [exact E | now apply IH].
Qed.

Lemma skipn_nth_error {A} (l : list A) : forall n x,
  nth_error l n = Some x -> skipn n l = x :: skipn (S n) l.
Proof.
  induction l as [|y l IH]; intros [|n] x; cbn [nth_error skipn]; try discriminate.
  - now intros [= ->].
  - intros H. rewrite (IH _ _ H). reflexivity.
Qed.

(** With a further word to look for, the recursion calls itself on the same
    word and never answers [true]. *)
Lemma hasSequenceAtIndex_not_true fuel : forall opw w o occ,
  nth_error opw (w + 1) = Some (Some occ) ->
  hasSequenceAtIndex fuel opw w o <> Ok true.
Proof.
  induction fuel as [|fuel IH]; intros opw w o occ Hn; cbn [hasSequenceAtIndex];
    [discriminate|].
  rewrite (skipn_nth_error _ _ _ Hn). unfold indexed. cbn [indexed_from every_r snd fst].
  match goal with
  | |- rbind ?m _ <> _ => assert (Hm : m <> Ok true); [|destruct m as [[|]| |];
                            cbn [rbind]; congruence]
  end.
  apply some_r_not_true. intros ji _.
  destruct (match nth_error opw w with Some (Some l) => nth_error l o | _ => None end);
    [|discriminate].
  destruct (snd ji =? n + 1)%N; [|discriminate].
  rewrite Nat.add_0_r. now apply (IH opw w (fst ji) occ).
Qed.

Lemma extract_phrases_mono : forall f f' val acc r,
  f <= f' -> extract_phrases f val acc = Ok r -> extract_phrases f' val acc = Ok r.
Proof.
  induction f as [|f IH]; intros f' val acc r Hle; cbn [extract_phrases]; [discriminate|].
  destruct f' as [|f']; [lia|]. cbn [extract_phrases].
  destruct (phrase_exec val 0) as [[i g]|]; [|auto]. apply IH. lia.
Qed.

Section TestFacts.
Context {host : Host}.

Lemma getTextInfo_seq_inv fuel idx v loc ti :
  getTextInfo fuel idx v loc = Ok ti -> exists n, seq_inv n (words ti).
Proof.
  unfold getTextInfo. intros H. rbind_inv H. eapply TextInfo_new_seq_inv. eassumption.
Qed.

Lemma getTextInfo_agree f1 f2 idx v loc t1 t2 :
  getTextInfo f1 idx v loc = Ok t1 -> getTextInfo f2 idx v loc = Ok t2 -> t1 = t2.
Proof.
  unfold getTextInfo. intros H1 H2.
  destruct (locale_option (nullish_or loc (VString (textLocale idx)))) as [l| |];
    try discriminate. cbn [rbind] in H1, H2.
  eapply TextInfo_new_agree; eassumption.
Qed.

(** X5. [test] with ['fulltext:!contains'] on an object that has a text
    under the index key answers [undefined], whatever the words asked for,
    once the text is tokenized: the operator has no branch of its own. *)
Theorem test_not_contains fuel idx obj text val textInfo :
  obj <> VNull ->
  get_prop obj (key idx) = Ok text ->
  text <> VUndefined ->
  getTextInfo fuel idx text
    (nullish_or (get_prop_opt obj (textLocaleKey idx)) (VString (textLocale idx)))
  = Ok textInfo ->
  test (S fuel) idx obj op_not_contains val = Ok TUndefined.
Proof.
  intros Hnull Hobj Hundef Hinfo. cbn [test].
  destruct obj; try contradiction; rewrite Hobj; cbn [rbind];
    destruct text; try contradiction; rewrite Hinfo; reflexivity.
Qed.

(** X6. [test] with ['fulltext:contains'] and a value without [' OR '] and
    without a quote answers [true] exactly when every word of the value is
    a word of the text. *)
Theorem test_words fuel idx obj text val textInfo wordsInfo :
  obj <> VNull ->
  get_prop obj (key idx) = Ok text ->
  text <> VUndefined ->
  getTextInfo fuel idx text
    (nullish_or (get_prop_opt obj (textLocaleKey idx)) (VString (textLocale idx)))
  = Ok textInfo ->
  includes " OR " val = false ->
  includes dquote val = false ->
  getTextInfo fuel idx (VString val)
    (nullish_or (get_prop_opt obj (textLocaleKey idx)) (VString (textLocale idx)))
  = Ok wordsInfo ->
  exists b,
    test (S fuel) idx obj op_contains val = Ok (TBool b)
    /\ (b = true <-> forall w, In w (toArray wordsInfo) -> In w (toArray textInfo)).
Proof.
  intros Hnull Hobj Hundef Hinfo Hor Hq Hwords.
  destruct (getTextInfo_seq_inv _ _ _ _ _ Hwords) as (n & Hinv).
  eexists. split.
  - cbn [test].
    destruct obj; try contradiction; rewrite Hobj; cbn [rbind];
      destruct text; try contradiction; rewrite Hinfo; cbn [rbind];
      change (String.eqb op_contains op_contains) with true; cbv iota;
      rewrite Hor, Hq, Hwords; reflexivity.
  - rewrite forallb_forall. split.
    + intros H w Hw. apply (toSequence_members n _ Hinv) in Hw.
      specialize (H _ Hw). cbn in H.
      destruct (getWordInfo textInfo w) as [wi|] eqn:E; [|discriminate].
      eapply assoc_In_keys. exact E.
    + intros H [w|] Hin; [|reflexivity].
      apply (toSequence_members n _ Hinv) in Hin.
      destruct (In_keys_assoc w (words textInfo) (H w Hin)) as (wi & Hwi).
      unfold getWordInfo. now rewrite Hwi.
Qed.

Lemma occurrences_of_nth textInfo : forall l opw,
  occurrences_of textInfo l = Ok opw ->
  forall i w, nth_error l i = Some (Some w) ->
    exists wi, getWordInfo textInfo w = Some wi
               /\ nth_error opw i = Some (Some (indexes wi)).
Proof.
  induction l as [|[x|] l IH]; intros opw H i w Hi; cbn [occurrences_of] in H.
  - destruct i; discriminate.
  - destruct (getWordInfo textInfo x) as [wx|] eqn:Ex; [|discriminate].
    rbind_inv H. injection H as <-. destruct i as [|i]; cbn [nth_error] in *.
    + injection Hi as <-. eauto.
    + eapply IH; [reflexivity | eassumption].
  - rbind_inv H. injection H as <-. destruct i as [|i]; cbn [nth_error] in *;
      [discriminate|]. eapply IH; [reflexivity | eassumption].
Qed.

Lemma occurrences_of_missing textInfo w : forall l,
  In (Some w) l -> getWordInfo textInfo w = None ->
  occurrences_of textInfo l = Throw TypeError.
Proof.
  induction l as [|[x|] l IH]; intros Hin Hw; [destruct Hin| |]; cbn [occurrences_of].
  - destruct (getWordInfo textInfo x) as [wx|] eqn:Ex; [|reflexivity].
    destruct Hin as [E|Hin]; [congruence|]. now rewrite IH.
  - destruct Hin as [E|Hin]; [discriminate|]. now rewrite IH.
Qed.

Lemma test_phrase_not_true fuel idx textInfo loc p phraseInfo :
  getTextInfo fuel idx (VString p) loc = Ok phraseInfo ->
  2 <= wordCount phraseInfo ->
  test_phrase fuel idx textInfo loc p <> Ok true.
Proof.
  intros Hp Hc. unfold test_phrase. rewrite Hp. cbn [rbind].
  destruct (occurrences_of textInfo (toSequence phraseInfo)) as [opw| |] eqn:Eo;
    cbn [rbind]; try discriminate.
  destruct (getTextInfo_seq_inv _ _ _ _ _ Hp) as (n & Hinv).
  destruct (toSequence_dense n phraseInfo 1 Hinv ltac:(lia)) as (w1 & wi1 & Hn1 & _).
  destruct (occurrences_of_nth _ _ _ Eo 1 w1 Hn1) as (wi & _ & Hopw).
  destruct opw as [|[first|] rest]; try discriminate.
  apply some_r_not_true. intros i _. now apply (hasSequenceAtIndex_not_true _ _ 0 _ (indexes wi)).
Qed.

(** X7. Whatever the fuel, [test] never answers [true] for a value with a
    quoted phrase, or a remainder, of two or more words:
    [hasSequenceAtIndex] calls itself on the same word. *)
Theorem test_phrase_never_true fuel0 idx obj val r p phraseInfo :
  includes " OR " val = false ->
  includes dquote val = true ->
  extract_phrases fuel0 val [] = Ok r ->
  In p (fst r) \/ (p = snd r /\ p <> "") ->
  getTextInfo fuel0 idx (VString p)
    (nullish_or (get_prop_opt obj (textLocaleKey idx)) (VString (textLocale idx)))
  = Ok phraseInfo ->
  2 <= wordCount phraseInfo ->
  forall fuel, test fuel idx obj op_contains val <> Ok (TBool true).
Proof.
  intros Hor Hq Hex Hp Hpi Hc fuel Htest.
  destruct fuel as [|fuel]; [discriminate|]. cbn [test] in Htest.
  destruct obj; try discriminate Htest.
  all: match type of Htest with
       | rbind ?m _ = _ => destruct m as [text| |]; cbn [rbind] in Htest;
                           try discriminate Htest
       end.
  all: destruct text; try discriminate Htest.
  all: match type of Htest with
       | rbind ?m _ = _ => destruct m as [textInfo| |]; cbn [rbind] in Htest;
                           try discriminate Htest
       end.
  all: change (String.eqb op_contains op_contains) with true in Htest; cbv iota in Htest;
    rewrite Hor, Hq in Htest.
  all: destruct (extract_phrases fuel val []) as [r'| |] eqn:Ex; cbn [rbind] in Htest;
    try discriminate Htest.
  all: pose proof (extract_phrases_mono _ (Nat.max fuel fuel0) _ _ _
                     (Nat.le_max_l _ _) Ex) as Hm1.
  all: pose proof (extract_phrases_mono _ (Nat.max fuel fuel0) _ _ _
                     (Nat.le_max_r _ _) Hex) as Hm2.
  all: rewrite Hm1 in Hm2; injection Hm2 as ->; clear Hm1.
  all: match type of Htest with
       | rbind ?m _ = _ => destruct m as [[|]| |] eqn:Ee; cbn [rbind] in Htest;
                           try discriminate Htest
       end.
  all: assert (Hin : In p (if (0 <? String.length (snd r))%nat
                           then (fst r ++ [snd r])%list else fst r))
         by (destruct Hp as [Hp|[-> Hne]];
             [destruct (0 <? String.length (snd r))%nat;
                [apply in_or_app; now left | assumption]
             |destruct (snd r); [contradiction|]; cbn; apply in_or_app; right; now left]).
  all: pose proof (every_r_true _ _ Ee p Hin) as Htp.
  all: match type of Hpi with
       | getTextInfo _ _ _ ?loc = _ =>
           assert (Hpi' : exists pi, getTextInfo fuel idx (VString p) loc = Ok pi)
             by (unfold test_phrase in Htp;
                 match type of Htp with
                 | rbind ?m _ = _ =>
                     destruct m as [pi| |]; [eauto | discriminate | discriminate]
                 end)
       end.
  all: destruct Hpi' as (pi & Hpi').
  all: rewrite (getTextInfo_agree _ _ _ _ _ _ _ Hpi' Hpi) in Hpi'.
  all: exact (test_phrase_not_true _ _ _ _ _ _ Hpi' Hc Htp).
Qed.

(** X8. In [test], a phrase with a word that the text lacks throws a
    [TypeError] (the [indexes] of [undefined]) in place of answering
    [false]. *)
Theorem test_phrase_missing_word fuel idx textInfo loc p phraseInfo w :
  getTextInfo fuel idx (VString p) loc = Ok phraseInfo ->
  In w (toArray phraseInfo) ->
  getWordInfo textInfo w = None ->
  test_phrase fuel idx textInfo loc p = Throw TypeError.
Proof.
  intros Hp Hw Hmiss. unfold test_phrase. rewrite Hp. cbn [rbind].
  rewrite (occurrences_of_missing textInfo w); [reflexivity| |assumption].
  destruct (getTextInfo_seq_inv _ _ _ _ _ Hp) as (n & Hinv).
  now apply (toSequence_members n).
Qed.

End TestFacts.

(* ================================================================== *)
(** ** Updates that create, delete or keep a text *)

Lemma filter_none {A} (f : A -> bool) l :
  (forall x, In x l -> f x = false) -> filter f l = [].
Proof.
  induction l as [|x l IH]; simpl; intros H; [reflexivity|].
  rewrite (H x (or_introl eq_refl)). apply IH. intros; apply H; now right.
Qed.

Lemma word_changed_same_indexes o n :
  indexes o = indexes n -> word_changed o n = false.
Proof.
  intros Hi. destruct (word_changed o n) eqn:E; [|reflexivity].
  apply word_changed_spec in E. unfold occurs in E. rewrite Hi in E.
  destruct E as [E|(i & a & H1 & H2)]; congruence.
Qed.

Section UpdateFacts.
Context {host : Host} {substrate : Substrate}.



(** X9. An update that leaves the words and their positions as they were,
    whatever happens to the source offsets, issues no call on the
    substrate and leaves the state as it was. *)
Theorem handleRecordUpdate_same_positions fuel idx path oldValue newValue
    oldTextInfo newTextInfo st :
  record_text_info fuel idx oldValue = Ok oldTextInfo ->
  record_text_info fuel idx newValue = Ok newTextInfo ->
  toArray oldTextInfo = toArray newTextInfo ->
  (forall w o n, getWordInfo oldTextInfo w = Some o -> getWordInfo newTextInfo w = Some n ->
                 indexes o = indexes n) ->
  update_calls fuel idx path oldValue newValue = Ok []
  /\ handleRecordUpdate fuel idx path oldValue newValue st = (Ok tt, st).
Proof.
  intros Ho Hn Hw Hidx.
  assert (E : update_calls fuel idx path oldValue newValue = Ok []).
  { unfold update_calls. rewrite Ho, Hn. cbn [rbind].
    assert (Ech : changed_words oldTextInfo newTextInfo = []).
    { unfold changed_words. apply filter_none. intros w _.
      destruct (getWordInfo oldTextInfo w) as [o|] eqn:Eo; [|reflexivity].
      destruct (getWordInfo newTextInfo w) as [n|] eqn:En; [|reflexivity].
      apply word_changed_same_indexes. eapply Hidx; eassumption. }
    assert (Erem : removed_words (toArray oldTextInfo) (toArray newTextInfo) = []).
    { unfold removed_words. rewrite Hw. apply filter_none. intros w Hin.
      apply negb_false_iff. now apply mem_string_In. }
    assert (Eadd : added_words (toArray oldTextInfo) (toArray newTextInfo) = []).
    { unfold added_words. rewrite Hw. apply filter_none. intros w Hin.
      apply negb_false_iff. now apply mem_string_In. }
    rewrite Ech, Erem, Eadd. reflexivity. }
  split; [exact E|]. unfold handleRecordUpdate. rewrite E. cbn [forallb].
  rewrite app_nil_r. now destruct st.
Qed.


End UpdateFacts.

(* ================================================================== *)
(** ** [build] against [handleRecordUpdate] *)

Lemma assoc_assoc_set_same {A} (k : string) (v : A) l : assoc k (assoc_set k v l) = Some v.
Proof.
  induction l as [|[k' v'] l IH]; cbn [assoc_set assoc].
  - now rewrite String.eqb_refl.
  - destruct (String.eqb k k') eqn:E; cbn [assoc]; [now rewrite String.eqb_refl|].
    now rewrite E.
Qed.

Lemma assoc_assoc_set_other {A} (k k' : string) (v : A) l :
  k <> k' -> assoc k (assoc_set k' v l) = assoc k l.
Proof.
  intros Hne. induction l as [|[k2 v2] l IH]; cbn [assoc_set assoc].
  - apply String.eqb_neq in Hne. now rewrite Hne.
  - destruct (String.eqb_spec k' k2) as [->|Hne2]; cbn [assoc].
    + apply String.eqb_neq in Hne. now rewrite Hne.
    + now rewrite IH.
Qed.

Lemma object_assign_keeps k source : forall target,
  assoc k source = None -> assoc k (object_assign target source) = assoc k target.
Proof.
  unfold object_assign.
  induction source as [|[k' v'] source IH]; intros target; cbn [fold_left assoc fst snd];
    [reflexivity|].
  destruct (String.eqb_spec k k') as [->|Hne]; [discriminate|].
  intros H. rewrite IH by assumption. now apply assoc_assoc_set_other.
Qed.

Lemma posts_postings idx path newValue ti :
  NoDup (map fst (words ti)) ->
  forall l cs,
    (forall x, In x l -> In x (words ti)) ->
    Forall2 (posts idx path newValue ti) (map fst l) cs ->
    map (update_posting idx) cs
    = map Some (map (fun wi => (fst wi, encode_occurs (indexes (snd wi)))) l).
Proof.
  intros Hnd. induction l as [|[k wi] l IH]; intros cs Hall HF.
  - inversion HF. reflexivity.
  - inversion HF as [|? c ? cs' Hp HF']; subst. cbn [map fst snd]. f_equal.
    + destruct Hp as (wi' & Hg & ->). cbn [update_posting].
      rewrite assoc_assoc_set_same.
      assert (Hin : In (k, wi) (words ti)) by (apply Hall; now left).
      unfold getWordInfo in Hg. rewrite (In_assoc _ _ _ Hnd Hin) in Hg.
      injection Hg as <-. reflexivity.
    + apply IH; [|assumption]. intros x Hx. apply Hall. now right.
Qed.

Section BuildFacts.
Context {host : Host}.

Lemma getTextInfo_null fuel idx v l l' ti :
  getTextInfo fuel idx v (VString l) = Ok ti ->
  exists ti', getTextInfo fuel idx VNull (VString l') = Ok ti' /\ words ti' = [].
Proof.
  unfold getTextInfo. cbn [nullish_or locale_option rbind].
  unfold TextInfo_new. cbv zeta.
  cbn [o_pattern o_includeChars o_flags truthy_string rbind locales_get ls_pattern ls_flags].
  destruct (RegExp_new default_pattern default_flags); cbn [rbind]; [|discriminate].
  intros _. eexists. split; reflexivity.
Qed.

(** X11. For a record with a defined text, the callback of [build] and
    [handleRecordUpdate] from [null] post the same words with the same
    [_occurs_] strings in the same order, when the extra metadata has no
    [_occurs_] of its own; the callback returns these words. *)
Theorem build_posts_as_update fuel idx path newValue text recordPointer metadata
    env_locale adds returned :
  text_of idx newValue = text ->
  text <> VUndefined ->
  nullish_or (get_prop_opt newValue (textLocaleKey idx)) (VString (textLocale idx))
  = VString (match truthy_string env_locale with
             | Some l => l
             | None => textLocale idx
             end) ->
  assoc "_occurs_" metadata = None ->
  build_addCallback fuel idx text recordPointer metadata env_locale = Ok (adds, returned) ->
  exists postings cs,
    map add_posting adds = map Some postings
    /\ returned = map fst postings
    /\ update_calls fuel idx path VNull newValue = Ok cs
    /\ map (update_posting idx) cs = map Some postings.
Proof.
  intros Htext Hundef Hloc Hmeta Hbuild.
  unfold build_addCallback in Hbuild. cbv zeta in Hbuild.
  assert (Ht2 : match join_array text with VUndefined => VString "" | _ => join_array text end
                = join_array text).
  { destruct text; try reflexivity. contradiction. }
  rewrite Ht2 in Hbuild. rbind_inv Hbuild. injection Hbuild as <- <-.
  rename a into ti.
  assert (Hnew : record_text_info fuel idx newValue = Ok ti).
  { unfold record_text_info. now rewrite Htext, Hloc. }
  destruct (getTextInfo_null _ _ _ _ (textLocale idx) _ E) as (ti0 & Hold & Hw0).
  assert (Hold' : record_text_info fuel idx VNull = Ok ti0) by exact Hold.
  destruct (update_calls_shape fuel idx path _ _ _ _ Hold' Hnew) as (cs & HF & Ecs).
  assert (Ech : changed_words ti0 ti = []).
  { unfold changed_words, toArray. now rewrite Hw0. }
  assert (Erem : removed_words (toArray ti0) (toArray ti) = []).
  { unfold removed_words, toArray. now rewrite Hw0. }
  assert (Eadd : added_words (toArray ti0) (toArray ti) = toArray ti).
  { unfold added_words. apply filter_all. intros w _. unfold toArray. now rewrite Hw0. }
  rewrite Ech, Erem, Eadd, app_nil_r in *. cbn [map app] in Ecs.
  destruct (TextInfo_new_inv fuel (join_array text)
              _ ti ltac:(unfold getTextInfo in E; cbn [locale_option nullish_or rbind] in E;
                         exact E)) as (n & [Hnd He _]).
  exists (map (fun wi => (fst wi, encode_occurs (indexes (snd wi)))) (words ti)), cs.
  split; [|split; [|split; [exact Ecs|]]].
  - rewrite !map_map. apply map_ext_in. intros [k wi] Hin. cbn [fst snd].
    unfold add_posting. cbn [add_metadata add_key].
    rewrite object_assign_keeps by assumption. cbn [assoc String.eqb Ascii.eqb Bool.eqb].
    destruct (He _ _ Hin) as (-> & _). reflexivity.
  - unfold toArray. rewrite map_map. reflexivity.
  - unfold toArray in HF. now apply (posts_postings idx path newValue ti Hnd).
Qed.

End BuildFacts.

(* ================================================================== *)
(** ** The stored string read back *)

Lemma includes_no_comma f :
  string_forallb not_comma f = true -> includes "," f = false.
Proof.
  unfold includes. induction f as [|c f IH]; [reflexivity|].
  cbn [string_forallb index_of]. intros H. apply andb_true_iff in H. destruct H as [Hc Hf].
  rewrite prefix_comma. unfold not_comma in Hc. apply negb_true_iff in Hc.
  rewrite Ascii.eqb_sym, Hc. specialize (IH Hf).
  now destruct (index_of "," f).
Qed.

Lemma split_go_field f rest : forall cur,
  string_forallb not_comma f = true ->
  split_go "," 0 cur (f ++ String "," rest) = (cur ++ f) :: split_go "," 0 "" rest.
Proof.
  induction f as [|c f IH]; intros cur H.
  - cbn [append split_go]. rewrite prefix_comma. cbn. now rewrite append_nil_r.
  - cbn [string_forallb] in H. apply andb_true_iff in H. destruct H as [Hc Hf].
    cbn [append split_go]. rewrite prefix_comma.
    unfold not_comma in Hc. apply negb_true_iff in Hc. rewrite Ascii.eqb_sym, Hc.
    rewrite IH by assumption. now rewrite append_assoc.
Qed.

(** [split] undoes [join] on fields without a comma. *)
Lemma split_join fields :
  Forall field_ok fields -> fields <> [] -> split "," (join "," fields) = fields.
Proof.
  unfold split, join. induction 1 as [|f l [_ Hf] Hl IH]; intros Hne; [contradiction|].
  destruct l as [|g l].
  - cbn [String.concat]. rewrite split_go_single by now apply includes_no_comma.
    reflexivity.
  - change (String.concat "," (f :: g :: l))
      with (f ++ String "," (String.concat "," (g :: l))).
    rewrite split_go_field by assumption. cbn [append]. f_equal. apply IH. discriminate.
Qed.

Lemma digit_char_cases (P : N -> Prop) d :
  (d < 10)%N -> P 0%N -> P 1%N -> P 2%N -> P 3%N -> P 4%N -> P 5%N -> P 6%N -> P 7%N
  -> P 8%N -> P 9%N -> P d.
Proof.
  intros H.
  assert (E : (d = 0 \/ d = 1 \/ d = 2 \/ d = 3 \/ d = 4 \/ d = 5 \/ d = 6 \/ d = 7
              \/ d = 8 \/ d = 9)%N) by lia.
  intros. repeat (destruct E as [->|E]; [assumption|]). now subst.
Qed.

Lemma digit_value_digit_char d :
  (d < 10)%N -> digit_value (digit_char d) = Some (Z.of_N d).
Proof.
  intros H.
  apply (digit_char_cases (fun d => digit_value (digit_char d) = Some (Z.of_N d)) d H);
    reflexivity.
Qed.

Lemma is_digit_digit_char d : (d < 10)%N -> is_digit (digit_char d) = true.
Proof.
  intros H.
  apply (digit_char_cases (fun d => is_digit (digit_char d) = true) d H); reflexivity.
Qed.

Lemma digits_go_digits fuel : forall n acc,
  string_forallb is_digit acc = true ->
  string_forallb is_digit (digits_go fuel n acc) = true.
Proof.
  induction fuel as [|fuel IH]; simpl; intros n acc H; [assumption|].
  assert (H' : string_forallb is_digit (String (digit_char (n mod 10)) acc) = true).
  { simpl. rewrite H, is_digit_digit_char; [reflexivity|].
    apply N.mod_lt. discriminate. }
  destruct (n / 10 =? 0)%N; auto.
Qed.

Lemma parse_digits_go fuel : forall n acc,
  (n < 2 ^ N.of_nat fuel)%N -> 1 <= fuel ->
  parse_digits 10 (digits_go fuel n acc) None = parse_digits 10 acc (Some (Z.of_N n)).
Proof.
  induction fuel as [|fuel IH]; intros n acc Hn Hf; [lia|].
  cbn [digits_go].
  assert (Hd : (n mod 10 < 10)%N) by (apply N.mod_lt; discriminate).
  pose proof (N.div_mod n 10 ltac:(discriminate)) as Hdm.
  destruct (N.eqb_spec (n / 10) 0) as [E|E].
  - cbn [parse_digits]. rewrite digit_value_digit_char by assumption.
    destruct (Z.ltb_spec (Z.of_N (n mod 10)) 10); [|lia].
    do 2 f_equal. lia.
  - assert (Hlt : (n / 10 < 2 ^ N.of_nat fuel)%N).
    { apply N.Div0.div_lt_upper_bound.
      replace (N.of_nat (S fuel)) with (N.succ (N.of_nat fuel)) in Hn by lia.
      rewrite N.pow_succ_r' in Hn. lia. }
    assert (Hf' : 1 <= fuel).
    { destruct fuel; [|lia]. simpl in Hlt. lia. }
    rewrite IH by assumption. cbn [parse_digits].
    rewrite digit_value_digit_char by assumption.
    destruct (Z.ltb_spec (Z.of_N (n mod 10)) 10); [|lia].
    do 2 f_equal. lia.
Qed.

Lemma parse_digits_N_toString n :
  parse_digits 10 (N_toString n) None = Some (Z.of_N n).
Proof.
  unfold N_toString. rewrite parse_digits_go; [reflexivity| |lia].
  destruct n as [|p]; [reflexivity|].
  pose proof (N.log2_spec (N.pos p) ltac:(lia)) as [_ H].
  replace (N.of_nat (S (N.to_nat (N.log2 (N.pos p))))) with (N.succ (N.log2 (N.pos p))) by lia.
  exact H.
Qed.

Lemma N_toString_digits n :
  N_toString n <> "" /\ string_forallb is_digit (N_toString n) = true.
Proof.
  split; [apply digits_go_nonempty; lia | now apply digits_go_digits].
Qed.

(** [parseInt] with no radix reads a decimal rendering back. *)
Lemma parseInt_digits s :
  s <> "" -> string_forallb is_digit s = true ->
  parseInt s 0 = match parse_digits 10 s None with Some v => Int v | None => NaN end.
Proof.
  intros Hne Hd. destruct s as [|c s]; [contradiction|].
  cbn [string_forallb] in Hd. apply andb_true_iff in Hd. destruct Hd as [Hc Hs].
  unfold parseInt. cbn [trim_start].
  assert (Hw : is_white c = false).
  { unfold is_digit in Hc. unfold is_white.
    apply andb_true_iff in Hc. destruct Hc as [H1 H2].
    apply N.leb_le in H1. apply N.leb_le in H2.
    destruct (N.leb_spec 9 (N_of_ascii c)); destruct (N.leb_spec (N_of_ascii c) 13);
      destruct (N.eqb_spec (N_of_ascii c) 32); simpl; try reflexivity; lia. }
  rewrite Hw.
  assert (Hsign : match String c s with
                  | String "-" t => ((-1)%Z, t)
                  | String "+" t => (1%Z, t)
                  | _ => (1%Z, String c s)
                  end = (1%Z, String c s)).
  { destruct c as [b0 b1 b2 b3 b4 b5 b6 b7].
    destruct b0, b1, b2, b3, b4, b5, b6, b7; try reflexivity; discriminate Hc. }
  rewrite Hsign. cbn [Z.eqb orb andb].
  assert (Hx : (prefix "0x" (String c s) || prefix "0X" (String c s)) = false).
  { rewrite !prefix_cons. destruct s as [|d s]; [now rewrite !andb_false_r|].
    rewrite !prefix_cons. cbn [string_forallb] in Hs.
    apply andb_true_iff in Hs. destruct Hs as [Hdd _].
    assert (Ascii.eqb "x" d = false /\ Ascii.eqb "X" d = false) as [-> ->].
    { destruct d as [b0 b1 b2 b3 b4 b5 b6 b7].
      destruct b0, b1, b2, b3, b4, b5, b6, b7; try (split; reflexivity); discriminate Hdd. }
    now rewrite !andb_false_r. }
  rewrite Hx. destruct (parse_digits 10 (String c s) None) as [v|]; [|reflexivity].
  f_equal. destruct v; reflexivity.
Qed.

Lemma parseInt_N_toString n : parseInt (N_toString n) 0 = Int (Z.of_N n).
Proof.
  destruct (N_toString_digits n) as [Hne Hd].
  now rewrite parseInt_digits, parse_digits_N_toString.
Qed.

Lemma Forall_field_ok l : Forall field_ok (map N_toString l).
Proof.
  apply Forall_forall. intros f Hf. apply in_map_iff in Hf.
  destruct Hf as (n & <- & _). apply N_toString_ok.
Qed.

(** The fields read back are those of a prefix of the positions. *)
Lemma decode_encode l :
  Forall safe_index l -> l <> [] ->
  exists k, 1 <= k <= List.length l
    /\ decode_occurs (encode_occurs l)
       = map (fun p => parseInt (N_toString (snd p)) (Z.of_nat (fst p)))
             (indexed (firstn k l)).
Proof.
  intros Hsafe Hne.
  destruct (encode_occurs_spec l Hsafe) as (_ & _ & _ & _ & k & Hk & E).
  destruct k as [|k].
  { exfalso. cbn in E. unfold encode_occurs in E.
    destruct l as [|a l]; [contradiction|].
    destruct (Nat.ltb_spec 255 (String.length (join "," (map N_toString (a :: l))))) as [Hl|Hl].
    - destruct (encode_occurs_spec (a :: l) Hsafe) as (_ & Hcut & _).
      destruct (Hcut Hl) as (c & Hc & Hg & _ & E').
      unfold encode_occurs in E'.
      destruct (Nat.ltb_spec 255 (String.length (join "," (map N_toString (a :: l))))); [|lia].
      rewrite E' in E.
      destruct (join_cut _ (Forall_field_ok (a :: l)) c Hg) as (k' & Hk' & E2).
      rewrite E2 in E. destruct k' as [|k']; [lia|]. cbn [map firstn] in E.
      destruct (N_toString_ok a) as [Ha _].
      unfold join in E. cbn [String.concat] in E.
      destruct (firstn k' (map N_toString l)); [contradiction|].
      destruct (N_toString a); [contradiction|discriminate].
    - destruct (N_toString_ok a) as [Ha _]. unfold join in E. cbn [map String.concat] in E.
      destruct (map N_toString l); [contradiction|].
      destruct (N_toString a); [contradiction|discriminate]. }
  exists (S k). split; [lia|].
  unfold decode_occurs. rewrite E, split_join.
  - unfold indexed. generalize 0. generalize (firstn (S k) l). clear.
    intros xs. induction xs as [|x xs IH]; intros s;
      cbn [map indexed_from fst snd]; [reflexivity|].
    now rewrite IH.
  - apply Forall_field_ok.
  - destruct l; [contradiction|discriminate].
Qed.

Lemma parseInt_radix_1 s : parseInt s 1 = NaN.
Proof.
  unfold parseInt.
  match goal with |- (let '(_, _) := ?m in _) = _ => now destruct m end.
Qed.

Lemma indexed_from_length {A} (l : list A) : forall s,
  List.length (indexed_from s l) = List.length l.
Proof. induction l as [|x l IH]; intros s; simpl; [reflexivity | now rewrite IH]. Qed.

(** X12. Reading back the stored string of the positions [n :: l]: the
    first number is [n], so a single position is recovered; the second,
    when there is one, is [NaN]; and there are at most as many numbers as
    positions. *)
Theorem decode_encode_first n l :
  Forall safe_index (n :: l) ->
  exists rest,
    decode_occurs (encode_occurs (n :: l)) = Int (Z.of_N n) :: rest
    /\ List.length rest <= List.length l
    /\ (forall x, nth_error rest 0 = Some x -> x = NaN).
Proof.
  intros Hsafe.
  destruct (decode_encode (n :: l) Hsafe ltac:(discriminate)) as (k & Hk & E).
  destruct k as [|k]; [lia|]. cbn [firstn] in E. unfold indexed in E.
  cbn [indexed_from map fst snd] in E. change (Z.of_nat 0) with 0%Z in E.
  rewrite parseInt_N_toString in E.
  eexists. split; [exact E|]. split.
  - rewrite length_map, indexed_from_length.
    pose proof (firstn_le_length k l). cbn [List.length] in Hk. lia.
  - intros x. destruct (firstn k l) as [|m xs]; cbn [indexed_from map nth_error fst snd];
      [discriminate|].
    intros [= <-]. apply parseInt_radix_1.
Qed.

Lemma decode_encode_single n :
  safe_index n -> decode_occurs (encode_occurs [n]) = [Int (Z.of_N n)].
Proof.
  intros Hn. destruct (decode_encode [n] ltac:(now repeat constructor) ltac:(discriminate))
    as (k & Hk & E).
  cbn [List.length] in Hk. assert (k = 1) as -> by lia.
  rewrite E. unfold indexed. cbn [firstn indexed_from map fst snd].
  change (Z.of_nat 0) with 0%Z. now rewrite parseInt_N_toString.
Qed.

Lemma follows_singletons l : forall z,
  follows (map (fun p => [Int (Z.of_N p)]) l) (Int z)
  <-> forall i p, nth_error l i = Some p -> Z.of_N p = (z + 1 + Z.of_nat i)%Z.
Proof.
  induction l as [|a l IH]; intros z; cbn [map follows].
  - split; [|tauto]. intros _ [|i] p; discriminate.
  - cbn [num_add includes_num existsb same_value_zero]. rewrite orb_false_r, IH. split.
    + intros [Ha Hl] [|i] p; cbn [nth_error].
      * intros [= <-]. apply Z.eqb_eq in Ha. lia.
      * intros Hp. specialize (Hl i p Hp). lia.
    + intros H. split.
      * apply Z.eqb_eq. specialize (H 0 a eq_refl). lia.
      * intros i p Hp. specialize (H (S i) p Hp). lia.
Qed.

(** X13. On words that each occur once in a record the phrase check is
    exact: it accepts exactly when the positions are consecutive. *)
Theorem check_single_occurrences p0 p1 ps :
  Forall safe_index (p0 :: p1 :: ps) ->
  check (map (fun p => Some (decode_occurs (encode_occurs [p]))) (p0 :: p1 :: ps)) = Ok true
  <-> forall i p, nth_error (p0 :: p1 :: ps) i = Some p -> p = (p0 + N.of_nat i)%N.
Proof.
  intros Hsafe.
  assert (E : map (fun p => Some (decode_occurs (encode_occurs [p]))) (p0 :: p1 :: ps)
              = map Some ([Int (Z.of_N p0)] :: [Int (Z.of_N p1)]
                          :: map (fun p => [Int (Z.of_N p)]) ps)).
  { change ([Int (Z.of_N p0)] :: [Int (Z.of_N p1)] :: map (fun p => [Int (Z.of_N p)]) ps)
      with (map (fun p => [Int (Z.of_N p)]) (p0 :: p1 :: ps)).
    rewrite map_map. apply map_ext_in. intros p Hp. f_equal.
    apply decode_encode_single. revert p Hp. now apply Forall_forall. }
  rewrite E, check_searches.
  change ([Int (Z.of_N p1)] :: map (fun p => [Int (Z.of_N p)]) ps)
    with (map (fun p => [Int (Z.of_N p)]) (p1 :: ps)).
  split.
  - intros (q & [<-|[]] & Hf).
    pose proof (proj1 (follows_singletons _ _) Hf) as Hf'. clear Hf. rename Hf' into Hf.
    intros [|i] p; cbn [nth_error].
    + intros [= <-]. lia.
    + intros Hp. specialize (Hf i p Hp). lia.
  - intros H. exists (Int (Z.of_N p0)). split; [now left|].
    apply (proj2 (follows_singletons _ _)). intros i p Hp. specialize (H (S i) p Hp). lia.
Qed.

(** X23. On the arrays it is given, the recursion of the phrase check is
    the search it is meant to be: it accepts exactly when some [p] of the
    first array has [p + i] in the [i]-th array, for every [i]. *)
Theorem check_is_search first a rest :
  check (map Some (first :: a :: rest)) = Ok true
  <-> exists p, In p first /\ follows (a :: rest) p.
Proof. exact (check_searches first a rest). Qed.

(* ================================================================== *)
(** ** The quoted phrases of a query *)

Lemma phrase_body_bounds s : forall n g,
  phrase_body s n = Some g ->
  String.length g + 1 <= String.length s /\ (n = 0 -> g <> "").
Proof.
  induction s as [|c s IH]; intros n g; cbn [phrase_body]; [discriminate|].
  destruct (is_dquote c && (0 <? n)%nat) eqn:E.
  - intros [= <-]. cbn. split; [lia|].
    intros ->. apply andb_true_iff in E. destruct E as [_ E]. discriminate.
  - destruct (line_terminator c); [discriminate|].
    destruct (phrase_body s (S n)) as [g'|] eqn:Eg; [|discriminate].
    intros [= <-]. apply IH in Eg. cbn [String.length]. split; [lia | discriminate].
Qed.

Lemma phrase_exec_bounds s : forall i0 i g,
  phrase_exec s i0 = Some (i, g) ->
  i0 <= i /\ (i - i0) + String.length g + 2 <= String.length s /\ g <> "".
Proof.
  induction s as [|c s IH]; intros i0 i g; cbn [phrase_exec]; [discriminate|].
  assert (Hrec : phrase_exec s (S i0) = Some (i, g) ->
                 i0 <= i /\ i - i0 + String.length g + 2 <= String.length (String c s)
                 /\ g <> "").
  { intros H. apply IH in H. cbn [String.length]. destruct H as (H1 & H2 & H3).
    split; [lia|]. split; [lia | assumption]. }
  destruct (is_dquote c); [|exact Hrec].
  destruct (phrase_body s 0) as [g'|] eqn:Eg; [|exact Hrec].
  intros [= <- <-]. apply phrase_body_bounds in Eg. destruct Eg as [H1 H2].
  cbn [String.length]. split; [lia|]. split; [lia | auto].
Qed.

Lemma extract_step_length val i g :
  i + String.length g + 2 <= String.length val ->
  String.length (slice val 0 (Z.of_nat i)
                 ++ slice_from val (Z.of_nat (i + (String.length g + 2))))
  + (String.length g + 2) = String.length val.
Proof.
  intros H. rewrite length_append, slice_0, slice_from_nat by lia.
  rewrite !substring_length by lia. lia.
Qed.

(** X14. The loop that takes the quoted phrases out of a query string ends
    within [length val + 1] rounds; what is left holds no complete phrase,
    no phrase is empty, and the phrases with their quotes and the
    remainder account for every character. *)
Theorem extract_phrases_terminates fuel val :
  String.length val < fuel ->
  exists phrases rest,
    extract_phrases fuel val [] = Ok (phrases, rest)
    /\ phrase_exec rest 0 = None
    /\ String.length rest + list_sum (map (fun p => String.length p + 2) phrases)
       = String.length val
    /\ Forall (fun p => p <> "") phrases.
Proof.
  assert (G : forall fuel val acc,
             String.length val < fuel ->
             exists phrases rest,
               extract_phrases fuel val acc = Ok ((acc ++ phrases)%list, rest)
               /\ phrase_exec rest 0 = None
               /\ String.length rest + list_sum (map (fun p => String.length p + 2) phrases)
                  = String.length val
               /\ Forall (fun p => p <> "") phrases).
  { clear. induction fuel as [|fuel IH]; intros val acc Hf; [lia|].
    cbn [extract_phrases]. destruct (phrase_exec val 0) as [[i g]|] eqn:E.
    - apply phrase_exec_bounds in E. destruct E as (_ & Hb & Hg).
      rewrite Nat.sub_0_r in Hb.
      pose proof (extract_step_length val i g Hb) as Hl.
      destruct (IH (slice val 0 (Z.of_nat i)
                    ++ slice_from val (Z.of_nat (i + (String.length g + 2))))
                   (acc ++ [g])%list ltac:(lia))
        as (phrases & rest & E & Hn & Hlen & Hall).
      exists (g :: phrases), rest. rewrite E, <- app_assoc. split; [reflexivity|].
      split; [assumption|].
      split; [unfold list_sum in *; cbn [map fold_right] in *; lia | now constructor].
    - exists [], val. rewrite app_nil_r. repeat split; auto. }
  intros Hf. exact (G fuel val [] Hf).
Qed.

Section UnclosedQuote.
Context {host : Host} {substrate : Substrate}.

(** X15. A query with a quote but no complete phrase, no [' OR '] and no
    cached result never yields a result: [contains] calls itself with the
    same string, or fails on an empty list of result sets. *)
Theorem contains_unclosed_quote fuel idx op val options st :
  includes " OR " val = false ->
  includes dquote val = true ->
  phrase_exec val 0 = None ->
  cache_read (cache st) op val = None ->
  forall r st', contains fuel idx op val options st <> (Ok r, st').
Proof.
  intros Hor Hq Hex Hcache. revert options.
  induction fuel as [|fuel IH]; intros options r st'; cbn [contains]; [discriminate|].
  destruct (mem_string op validOperators) eqn:Hop; cbn [negb]; [|discriminate].
  rewrite Hcache, Hor, Hq.
  unfold contains_phrases. unfold bind at 1. unfold lift at 1.
  destruct fuel as [|fuel]; [discriminate|].
  cbn [extract_phrases]. rewrite Hex. cbn [fst snd mapM].
  unfold bind at 1. unfold ret at 1.
  assert (Hlen : (0 <? String.length val)%nat = true).
  { apply Nat.ltb_lt. pose proof (includes_nonempty _ _ Hq ltac:(discriminate)).
    destruct val; [contradiction | cbn; lia]. }
  rewrite Hlen. unfold bind at 1. unfold bind at 1. unfold lift at 1.
  destruct (contains_getTextInfo (S fuel) idx
              match options with Some o => o | None => default_options end val)
    as [info| |]; try discriminate.
  destruct (0 <? wordCount info)%nat.
  - unfold bind at 1. unfold query_with.
    assert (Hvalid : String.eqb op op_contains || String.eqb op op_not_contains = true).
    { unfold mem_string, validOperators in Hop. cbn [existsb] in Hop.
      now rewrite orb_false_r in Hop. }
    rewrite Hvalid.
    destruct (contains (S fuel) idx op val _ st) as [[rs| |] st1] eqn:Ec; try discriminate.
    exfalso. exact (IH _ _ _ Ec).
  - unfold ret. cbn [app sort_by fold_left]. discriminate.
Qed.

End UnclosedQuote.

Lemma forallb_perm {A} (f : A -> bool) l l' :
  Permutation l l' -> forallb f l = forallb f l'.
Proof.
  induction 1 as [|x l l' _ IH|x y l|l l' l'' _ IH1 _ IH2]; simpl.
  - reflexivity.
  - now rewrite IH.
  - now rewrite !andb_assoc, (andb_comm (f y)).
  - congruence.
Qed.

Lemma forallb_false_In {A} (f : A -> bool) l x :
  In x l -> f x = false -> forallb f l = false.
Proof.
  intros Hin Hf. destruct (forallb f l) eqn:E; [|reflexivity].
  rewrite forallb_forall in E. rewrite (E x Hin) in Hf. discriminate.
Qed.

Lemma has_path_cons p e l :
  has_path p (e :: l) = String.eqb (path e) p || has_path p l.
Proof. reflexivity. Qed.

Lemma has_path_filter p (g : Entry -> bool) b l :
  (forall e, path e = p -> g e = b) ->
  has_path p (filter g l) = has_path p l && b.
Proof.
  intros Hg. induction l as [|e l IH]; [reflexivity|].
  cbn [filter]. rewrite has_path_cons.
  destruct (String.eqb_spec (path e) p) as [E|Hne].
  - rewrite (Hg e E). destruct b.
    + rewrite has_path_cons, IH. apply String.eqb_eq in E. rewrite E. reflexivity.
    + rewrite IH. now rewrite !andb_false_r.
  - apply String.eqb_neq in Hne. destruct (g e); [rewrite has_path_cons, Hne|]; exact IH.
Qed.

Lemma merge_reduce_paths p s others :
  has_path p (merge_reduce s others)
  = forallb (fun set => has_path p (entries set)) (s :: others).
Proof.
  unfold merge_reduce. cbn [forallb]. apply has_path_filter. now intros e <-.
Qed.

Lemma all_hints_flat_map sets : all_hints sets = flat_map hints sets.
Proof.
  unfold all_hints.
  assert (G : forall l acc, fold_left (fun hs set => (hs ++ hints set)%list) l acc
                            = (acc ++ flat_map hints l)%list).
  { induction l as [|x l IH]; intros acc; cbn [fold_left flat_map].
    - now rewrite app_nil_r.
    - now rewrite IH, app_assoc. }
  apply (G sets []).
Qed.

Section PhraseSets.
Context {host : Host} {substrate : Substrate}.

(** X16. For a query with quoted phrases: the result holds exactly the
    paths that every sub-result holds (one for each phrase, one for the
    remainder when it has words), its hints are theirs, and with no
    sub-result at all the call fails with a [TypeError]. *)
Theorem contains_phrases_intersect fuel idx op val options st phrases rest
    sets st1 more st2 :
  mem_string op validOperators = true ->
  cache_read (cache st) op val = None ->
  includes " OR " val = false ->
  includes dquote val = true ->
  extract_phrases fuel val [] = Ok (phrases, rest) ->
  mapM (fun p => query fuel idx (OpString op) p (Some (as_phrase (resolve options))))
       phrases st = (Ok sets, st1) ->
  residual_run fuel idx op (resolve options) rest st1 more st2 ->
  ((sets ++ more)%list <> [] ->
   exists r,
     contains (S fuel) idx op val options st = (Ok r, st2)
     /\ (forall p, has_path p (entries r)
                   = forallb (fun s => has_path p (entries s)) (sets ++ more))
     /\ Permutation (hints r) (flat_map hints (sets ++ more)))
  /\ ((sets ++ more)%list = [] ->
      contains (S fuel) idx op val options st = (Throw TypeError, st2)).
Proof.
  intros Hop Hcache Hor Hq Hex Hsets Hres.
  assert (Hrun : contains (S fuel) idx op val options st
                 = match sort_by (fun s => List.length (entries s)) (sets ++ more) with
                   | [] => (Throw TypeError, st2)
                   | shortestSet :: otherSets =>
                       (Ok {| entries := merge_reduce shortestSet otherSets;
                              hints := all_hints (shortestSet :: otherSets);
                              filterKey := Some (key idx) |}, st2)
                   end).
  { cbn [contains]. fold (resolve options). rewrite Hop. cbn [negb].
    rewrite Hcache, Hor, Hq. unfold contains_phrases.
    unfold bind at 1. unfold lift at 1. rewrite Hex. cbn [fst snd].
    unfold bind at 1. unfold query, as_phrase in Hsets. rewrite Hsets.
    unfold bind at 1.
    destruct Hres as [->|info Hne Hinfo Hwc|info rs st2 Hne Hinfo Hwc Hq2].
    - cbn [String.length Nat.ltb Nat.leb]. unfold ret.
      now destruct (sort_by _ _).
    - assert (Hl : (0 <? String.length rest)%nat = true).
      { destruct rest; [contradiction | reflexivity]. }
      rewrite Hl. unfold bind at 1. unfold lift at 1. rewrite Hinfo, Hwc.
      cbn [Nat.ltb Nat.leb]. unfold ret. now destruct (sort_by _ _).
    - assert (Hl : (0 <? String.length rest)%nat = true).
      { destruct rest; [contradiction | reflexivity]. }
      rewrite Hl. unfold bind at 1. unfold lift at 1. rewrite Hinfo.
      apply Nat.ltb_lt in Hwc. rewrite Hwc.
      unfold bind at 1. unfold query in Hq2. rewrite Hq2. unfold ret.
      now destruct (sort_by _ _). }
  pose proof (sort_by_perm (fun s => List.length (entries s)) (sets ++ more)) as Hperm.
  rewrite Hrun. destruct (sort_by _ (sets ++ more)) as [|s others]; split.
  - intros Hne. apply Permutation_nil in Hperm. contradiction.
  - reflexivity.
  - intros _. eexists. split; [reflexivity|]. cbn [entries hints]. split.
    + intros p. rewrite merge_reduce_paths. now apply forallb_perm.
    + rewrite all_hints_flat_map. now apply Permutation_flat_map.
  - intros E. rewrite E in Hperm. apply Permutation_sym, Permutation_nil in Hperm.
    discriminate.
Qed.

End PhraseSets.

(* ================================================================== *)
(** ** Bare words: the cache *)

Section CacheFacts.
Context {host : Host} {substrate : Substrate}.

Lemma cache_read_head c op val r : cache_read ((op, val, r) :: c) op val = Some r.
Proof. cbn [cache_read]. now rewrite !String.eqb_refl. Qed.

Lemma contains_words_caches fuel idx op val options st r st' info :
  contains_getTextInfo fuel idx options val = Ok info ->
  toArray info <> [] ->
  contains_words fuel idx op val options st = (Ok r, st') ->
  cache st' = (op, val, r) :: cache st.
Proof.
  intros Hinfo Hne Hrun.
  unfold contains_words in Hrun. unfold bind at 1 in Hrun. unfold lift in Hrun.
  rewrite Hinfo in Hrun.
  destruct (toArray info) as [|w1 ws]; [contradiction|].
  destruct (String.eqb op op_not_contains).
  - unfold bind, query_blacklisting_, cache_, ret in Hrun.
    injection Hrun as <- <-. reflexivity.
  - unfold bind at 1 in Hrun. rewrite counts_run in Hrun.
    destruct (sort_by snd _) as [|c0 cs]; [discriminate|].
    destruct (snd c0 =? 0)%nat.
    + unfold bind, cache_, ret in Hrun. injection Hrun as <- <-. reflexivity.
    + unfold bind at 1 in Hrun.
      destruct (nextWord _ _ _ _ _) as [[[[last rpw] slot]| |] s1] eqn:En; try discriminate.
      assert (Hc1 : cache s1 = cache st).
      { revert En. clear. 
        generalize (repeat (@None Results) (List.length (w1 :: ws))).
        generalize (@None Results).
        set (s0 := {| cache := cache st; calls := _ |}).
        assert (Hs0 : cache s0 = cache st) by reflexivity. revert Hs0.
        generalize s0. generalize (map fst (c0 :: cs)).
        induction l as [|w l IH]; intros s Hs res rpw0; cbn [nextWord]; [discriminate|].
        unfold bind at 1. unfold query_ at 1.
        destruct l as [|w' l'].
        - unfold ret. intros [= _ _ _ <-]. exact Hs.
        - destruct (_ =? 0)%nat.
          + unfold ret. intros [= _ _ _ <-]. exact Hs.
          + apply IH. exact Hs. }
      unfold bind at 1 in Hrun.
      match type of Hrun with
      | (let (_, _) := ?m s1 in _) = _ => destruct (m s1) as [[results| |] s2] eqn:Em
      end; try discriminate.
      assert (Hc2 : cache s2 = cache s1).
      { revert Em. destruct (phrase options) as [[|]|].
        - destruct (1 <? _)%nat.
          + unfold bind, lift, ret. destruct (phrase_check _ _ _ _); try discriminate.
            now intros [= _ <-].
          + unfold ret. now intros [= _ <-].
        - unfold ret. now intros [= _ <-].
        - unfold ret. now intros [= _ <-]. }
      unfold bind, cache_, ret in Hrun. injection Hrun as <- <-.
      cbn [cache cache_write]. now rewrite Hc2, Hc1.
Qed.

(** X17. When every word of a bare-words query is ignored, the result has
    no entry and the ignored-word hints, and neither the substrate nor the
    cache is touched. *)
Theorem contains_no_words fuel idx op val options st info :
  mem_string op validOperators = true ->
  cache_read (cache st) op val = None ->
  includes " OR " val = false ->
  includes dquote val = false ->
  contains_getTextInfo fuel idx (resolve options) val = Ok info ->
  toArray info = [] ->
  contains (S fuel) idx op val options st
  = (Ok {| entries := []; hints := ignored_hints info; filterKey := Some (key idx) |}, st).
Proof.
  intros Hop Hcache Hor Hq Hinfo Hw.
  cbn [contains]. fold (resolve options).
  rewrite Hop. cbn [negb]. rewrite Hcache, Hor, Hq.
  unfold contains_words. unfold bind at 1. unfold lift. rewrite Hinfo, Hw. reflexivity.
Qed.

(** X18. A bare-words query with at least one word that returns is cached
    under its operator and string alone: asking again returns the same
    result with no further effect, whatever the options, the [phrase] flag
    included. *)
Theorem contains_result_cached fuel idx op val options st r st' info :
  cache_read (cache st) op val = None ->
  includes " OR " val = false ->
  includes dquote val = false ->
  contains_getTextInfo fuel idx (resolve options) val = Ok info ->
  toArray info <> [] ->
  contains (S fuel) idx op val options st = (Ok r, st') ->
  cache st' = (op, val, r) :: cache st
  /\ forall fuel' options', contains (S fuel') idx op val options' st' = (Ok r, st').
Proof.
  intros Hcache Hor Hq Hinfo Hne Hrun.
  cbn [contains] in Hrun. fold (resolve options) in Hrun.
  destruct (mem_string op validOperators) eqn:Hop; cbn [negb] in Hrun; [|discriminate].
  rewrite Hcache, Hor, Hq in Hrun.
  pose proof (contains_words_caches _ _ _ _ _ _ _ _ _ Hinfo Hne Hrun) as Hc.
  split; [exact Hc|]. intros fuel' options'. cbn [contains].
  rewrite Hop. cbn [negb]. now rewrite Hc, cache_read_head.
Qed.

End CacheFacts.

(* ================================================================== *)
(** ** Bare words: a word of wildcards only *)

Lemma findIndex_Some {A} (p : A -> bool) l x :
  In x l -> p x = true -> exists i, findIndex p l = Some i.
Proof.
  induction l as [|y l IH]; intros Hin Hp; [destruct Hin|]. cbn [findIndex].
  destruct (p y) eqn:Ey; [eauto|].
  destruct Hin as [->|Hin]; [congruence|].
  destruct (IH Hin Hp) as (i & ->). cbn. eauto.
Qed.

Section WildcardsOnly.
Context {host : Host} {substrate : Substrate}.

(** X19. A bare-words query one of whose words is made of [*] and [?] only
    never returns. *)
Theorem contains_wildcards_only_word fuel0 idx op val options st info0 w :
  TextInfo_new fuel0 (VString val) (query_text_options idx (resolve options)) = Ok info0 ->
  In w (toArray info0) ->
  wildcards_only w = true ->
  includes " OR " val = false ->
  includes dquote val = false ->
  cache_read (cache st) op val = None ->
  forall fuel r st', contains fuel idx op val options st <> (Ok r, st').
Proof.
  intros Hnew Hw Hwild Hor Hq Hcache fuel r st'.
  destruct fuel as [|fuel]; cbn [contains]; [discriminate|].
  fold (resolve options).
  destruct (mem_string op validOperators); cbn [negb]; [|discriminate].
  rewrite Hcache, Hor, Hq. unfold contains_words. unfold bind at 1. unfold lift.
  unfold contains_getTextInfo.
  destruct (TextInfo_new fuel (VString val) (query_text_options idx (resolve options)))
    as [info| |] eqn:E; cbn [rbind]; try discriminate.
  rewrite (TextInfo_new_agree _ _ _ _ _ _ E Hnew).
  destruct (findIndex_Some wildcards_only _ _ Hw Hwild) as (i & Hi).
  rewrite (ignore_wildcards_only_diverges _ _ _ Hi). discriminate.
Qed.

End WildcardsOnly.

(* ================================================================== *)
(** ** Bare words: the records returned *)

Lemma nth_error_set_nth {A} (y : A) : forall i l x,
  nth_error (set_nth i y l) i = Some x -> x = y.
Proof.
  induction i as [|i IH]; intros [|z l] x; cbn [set_nth nth_error]; try discriminate.
  - now intros [= <-].
  - apply IH.
Qed.

Section AllWords.
Context {host : Host} {substrate : Substrate}.
Hypothesis Hfilter : honours_filter substrate.

Lemma nextWord_all words : forall allWords results rpw st,
  allWords <> [] ->
  exists last rpw' slot st',
    nextWord words allWords results rpw st = (Ok (last, rpw', slot), st')
    /\ cache st' = cache st
    /\ (forall x, nth_error rpw' slot = Some x -> x = Some last)
    /\ forall p, has_path p (entries last)
                 = match results with
                   | Some f => has_path p (entries f)
                   | None => true
                   end && forallb (holds_word p) allWords.
Proof.
  induction allWords as [|w rest IH]; intros results rpw st Hne; [contradiction|].
  cbn [nextWord]. unfold bind at 1. unfold query_ at 1.
  set (fr := super_query (word_op w) w results).
  assert (Hfr : forall p, has_path p (entries fr)
                          = match results with
                            | Some f => has_path p (entries f)
                            | None => true
                            end && holds_word p w).
  { intros p. unfold fr, holds_word. destruct results as [f|].
    - rewrite Hfilter. apply andb_comm.
    - reflexivity. }
  destruct rest as [|w' rest'].
  - unfold ret. eexists _, _, _, _. split; [reflexivity|]. split; [reflexivity|].
    split; [apply nth_error_set_nth|].
    intros p. rewrite Hfr. cbn [forallb]. now rewrite andb_true_r.
  - destruct (Nat.eqb_spec (List.length (entries fr)) 0) as [E|E].
    + unfold ret. eexists _, _, _, _. split; [reflexivity|]. split; [reflexivity|].
      split; [apply nth_error_set_nth|].
      intros p. pose proof (Hfr p) as Hp.
      destruct (entries fr); [|discriminate]. cbn [has_path existsb] in *.
      cbn [forallb]. rewrite andb_assoc, <- Hp. reflexivity.
    + edestruct (IH (Some fr)) as (last & rpw' & slot & st' & -> & Hc & Hs & Hl);
        [discriminate|].
      eexists _, _, _, _. split; [reflexivity|]. split; [exact Hc|]. split; [exact Hs|].
      intros p. rewrite Hl, Hfr. cbn [forallb]. now rewrite <- !andb_assoc.
Qed.

(** X20. On a substrate that honours filters and whose zero counts are
    exact, a bare-words query without phrase check returns exactly the
    paths that the substrate holds under every word of the query. *)
Theorem contains_all_words fuel idx val options st info :
  counts_matches substrate ->
  cache_read (cache st) op_contains val = None ->
  includes " OR " val = false ->
  includes dquote val = false ->
  contains_getTextInfo fuel idx (resolve options) val = Ok info ->
  toArray info <> [] ->
  phrase (resolve options) <> Some true ->
  exists r st',
    contains (S fuel) idx op_contains val options st = (Ok r, st')
    /\ forall p, has_path p (entries r) = forallb (holds_word p) (toArray info).
Proof.
  intros Hcount Hcache Hor Hq Hinfo Hne Hphrase.
  cbn [contains]. fold (resolve options).
  change (mem_string op_contains validOperators) with true. cbn [negb].
  rewrite Hcache, Hor, Hq.
  unfold contains_words. unfold bind at 1. unfold lift. rewrite Hinfo.
  destruct (toArray info) as [|w1 ws] eqn:Ew; [contradiction|].
  change (String.eqb op_contains op_not_contains) with false. cbv iota.
  unfold bind at 1. rewrite counts_run.
  set (counts0 := map (fun w => (w, count_of w)) (w1 :: ws)).
  pose proof (sort_by_perm snd counts0) as Hperm.
  assert (Hwords : Permutation (map fst (sort_by snd counts0)) (w1 :: ws)).
  { rewrite Hperm. unfold counts0. rewrite map_map. cbn [fst]. now rewrite map_id. }
  destruct (sort_by snd counts0) as [|c0 cs] eqn:Es.
  { apply Permutation_nil in Hperm. discriminate. }
  destruct (Nat.eqb_spec (snd c0) 0) as [Hz|Hnz].
  - unfold bind, cache_, ret. eexists _, _. split; [reflexivity|].
    intros p. cbn [entries has_path existsb]. symmetry.
    assert (Hin : In c0 counts0).
    { apply (Permutation_in _ Hperm). now left. }
    unfold counts0 in Hin. apply in_map_iff in Hin. destruct Hin as (w & <- & Hw).
    cbn [snd] in Hz. apply (forallb_false_In _ _ w Hw).
    unfold holds_word. unfold count_of in Hz. now rewrite (Hcount _ _ Hz).
  - unfold bind at 1.
    edestruct (nextWord_all (w1 :: ws) (map fst (c0 :: cs)) None)
      as (last & rpw' & slot & st' & -> & _ & _ & Hl); [discriminate|].
    assert (Hres : forall p, has_path p (entries last) = forallb (holds_word p) (w1 :: ws)).
    { intros p. rewrite Hl. cbn [andb]. now apply forallb_perm. }
    destruct (phrase (resolve options)) as [[|]|]; try contradiction;
      unfold bind, cache_, ret; eexists _, _; (split; [reflexivity|]); exact Hres.
Qed.

End AllWords.

Lemma same_paths_refl a : same_paths a a.
Proof. induction a; constructor; auto. Qed.

Lemma same_paths_trans a b c : same_paths a b -> same_paths b c -> same_paths a c.
Proof.
  unfold same_paths. intros H. revert c. induction H as [|x y a b Hxy Hab IH]; intros c Hc.
  - inversion Hc. constructor.
  - inversion Hc as [|? z ? c' Hyz Hbc]; subst. constructor; [congruence | auto].
Qed.

Lemma same_paths_nth a b i set' :
  same_paths a b -> nth_error b i = Some (Some set') ->
  exists set, nth_error a i = Some (Some set) /\ map path set = map path set'.
Proof.
  intros H. revert i. induction H as [|x y a b Hxy Hab IH]; intros [|i]; cbn [nth_error];
    try discriminate.
  - intros [= ->]. destruct x as [set|]; [|discriminate]. injection Hxy as E. eauto.
  - apply IH.
Qed.

Lemma set_nth_paths k (x : Entry) : forall set e,
  nth_error set k = Some e -> path x = path e ->
  map path (set_nth k x set) = map path set.
Proof.
  induction k as [|k IH]; intros [|y set] e; cbn [nth_error set_nth map]; try discriminate.
  - intros [= ->] ->. reflexivity.
  - intros H E. f_equal. eapply IH; eassumption.
Qed.

Lemma convert_occurs_paths p : forall store c,
  convert_occurs p store = Ok c -> same_paths store (fst c).
Proof.
  induction store as [|[set|] store IH]; intros c; cbn [convert_occurs].
  - intros [= <-]. constructor.
  - destruct (findIndex _ set) as [k|]; [|discriminate].
    destruct (nth_error set k) as [[q [s|a]]|] eqn:En; try discriminate.
    intros H. rbind_inv H. injection H as <-. cbn [fst]. constructor; [|now apply IH].
    cbn [option_map]. f_equal. symmetry. eapply set_nth_paths; [exact En | reflexivity].
  - intros H. rbind_inv H. injection H as <-. cbn [fst]. constructor; [reflexivity | now apply IH].
Qed.

(** Every entry the phrase check keeps stands at a place of the set it
    walks, under the path that set had there at the start. *)
Lemma phrase_check_paths slot store0 : forall positions store matches ms,
  same_paths store0 store ->
  phrase_check slot positions store matches = Ok ms ->
  forall m, In m ms ->
    In m matches
    \/ exists set0 k e, nth_error store0 slot = Some (Some set0)
                        /\ nth_error set0 k = Some e /\ path e = path m.
Proof.
  induction positions as [|k rest IH]; intros store matches ms Hs; cbn [phrase_check].
  - intros [= <-] m Hm. now left.
  - destruct (nth_error store slot) as [[set|]|] eqn:Eslot; try discriminate.
    destruct (nth_error set k) as [m0|] eqn:Ek; [|discriminate].
    intros H. rbind_inv H.
    pose proof (convert_occurs_paths _ _ _ E) as Hc.
    pose proof (same_paths_trans _ _ _ Hs Hc) as Hs'.
    intros m Hm. destruct (IH _ _ _ Hs' H m Hm) as [Hin|Hin]; [|now right].
    destruct a0; [|now left].
    apply in_app_or in Hin. destruct Hin as [Hin|Hin]; [now left|]. right.
    destruct (nth_error (fst a) slot) as [[set'|]|] eqn:Es'; try destruct Hin.
    destruct (nth_error set' k) as [m'|] eqn:Ek'; [|destruct Hin].
    destruct Hin as [<-|[]].
    destruct (same_paths_nth _ _ _ _ Hs' Es') as (set0 & Hset0 & Hp).
    assert (Hn : nth_error (map path set0) k = Some (path m')).
    { rewrite Hp, nth_error_map, Ek'. reflexivity. }
    rewrite nth_error_map in Hn. destruct (nth_error set0 k) as [e|] eqn:Ee; [|discriminate].
    injection Hn as Hn. exists set0, k, e. auto.
Qed.

Lemma has_path_In p l : has_path p l = true <-> exists e, In e l /\ path e = p.
Proof.
  unfold has_path. rewrite existsb_exists. split; intros (e & He & E); exists e;
    (split; [assumption|]); now apply String.eqb_eq.
Qed.

Section EveryWord.
Context {host : Host} {substrate : Substrate}.
Hypothesis Hfilter : honours_filter substrate.

(** X21. On a substrate that honours filters, every path a bare-words
    query returns, with or without phrase check, is held under every word
    of the query. *)
Theorem contains_every_word fuel idx val options st info r st' :
  cache_read (cache st) op_contains val = None ->
  includes " OR " val = false ->
  includes dquote val = false ->
  contains_getTextInfo fuel idx (resolve options) val = Ok info ->
  contains (S fuel) idx op_contains val options st = (Ok r, st') ->
  forall p, has_path p (entries r) = true ->
            forallb (holds_word p) (toArray info) = true.
Proof.
  intros Hcache Hor Hq Hinfo Hrun p Hp.
  cbn [contains] in Hrun. fold (resolve options) in Hrun.
  change (mem_string op_contains validOperators) with true in Hrun. cbn [negb] in Hrun.
  rewrite Hcache, Hor, Hq in Hrun.
  unfold contains_words in Hrun. unfold bind at 1 in Hrun. unfold lift in Hrun.
  rewrite Hinfo in Hrun.
  destruct (toArray info) as [|w1 ws] eqn:Ew; [reflexivity|].
  change (String.eqb op_contains op_not_contains) with false in Hrun. cbv iota in Hrun.
  unfold bind at 1 in Hrun. rewrite counts_run in Hrun.
  set (counts0 := map (fun w => (w, count_of w)) (w1 :: ws)) in *.
  pose proof (sort_by_perm snd counts0) as Hperm.
  assert (Hwords : Permutation (map fst (sort_by snd counts0)) (w1 :: ws)).
  { rewrite Hperm. unfold counts0. rewrite map_map. cbn [fst]. now rewrite map_id. }
  destruct (sort_by snd counts0) as [|c0 cs] eqn:Es; [discriminate|].
  destruct (snd c0 =? 0)%nat.
  { unfold bind, cache_, ret in Hrun. injection Hrun as <- _. discriminate. }
  unfold bind at 1 in Hrun.
  edestruct (nextWord_all Hfilter (w1 :: ws) (map fst (c0 :: cs)) None)
    as (last & rpw' & slot & s1 & En & _ & Hslot & Hl); [discriminate|].
  rewrite En in Hrun.
  assert (Hlast : has_path p (entries last) = true ->
                  forallb (holds_word p) (w1 :: ws) = true).
  { intros H. rewrite Hl in H. cbn [andb] in H. now rewrite <- (forallb_perm _ _ _ Hwords). }
  apply Hlast.
  destruct (phrase (resolve options)) as [[|]|].
  - destruct (1 <? List.length (map fst (c0 :: cs)))%nat.
    + unfold bind at 1 in Hrun. unfold bind at 1 in Hrun. unfold lift in Hrun.
      destruct (phrase_check _ _ _ _) as [ms| |] eqn:Epc; try discriminate.
      unfold bind, cache_, ret in Hrun. injection Hrun as <- _. cbn [entries] in Hp.
      apply has_path_In in Hp. destruct Hp as (m & Hm & <-).
      destruct (phrase_check_paths _ _ _ _ _ _ (same_paths_refl _) Epc m Hm)
        as [[]|(set0 & k & e & Hset0 & He & Hpe)].
      rewrite nth_error_map in Hset0.
      destruct (nth_error rpw' slot) as [x|] eqn:Ex; [|discriminate].
      rewrite (Hslot x eq_refl) in Hset0. injection Hset0 as <-.
      apply has_path_In. exists e. split; [|assumption]. eapply nth_error_In. eassumption.
    + unfold bind, cache_, ret in Hrun. injection Hrun as <- _. exact Hp.
  - unfold bind, cache_, ret in Hrun. injection Hrun as <- _. exact Hp.
  - unfold bind, cache_, ret in Hrun. injection Hrun as <- _. exact Hp.
Qed.

End EveryWord.

(* ================================================================== *)
(** ** Bare words: the order of the calls *)

Section QueryOrder.
Context {host : Host} {substrate : Substrate}.



End QueryOrder.

(* ================================================================== *)
(** * Runs on the reference host *)

Import Reference.

(** ** The reference tokenizer returns *)

Lemma scan_bounds p s : forall i start j m,
  scan p s i start = Some (j, m) ->
  start <= j /\ 1 <= String.length m /\ j + String.length m <= i + String.length s.
Proof.
  induction s as [|c s IH]; intros i start j m; cbn [scan]; [discriminate|].
  destruct ((start <=? i)%nat && p c) eqn:E.
  - intros [= <- <-]. apply andb_true_iff in E. destruct E as [E _].
    apply Nat.leb_le in E. cbn [String.length].
    assert (G : forall t, String.length (take_while p t) <= String.length t).
    { induction t as [|d t IHt]; cbn; [lia|]. destruct (p d); cbn; lia. }
    specialize (G s). lia.
  - intros H. apply IH in H. cbn [String.length]. lia.
Qed.

Lemma replace_char_length c s :
  String.length (replace_char c "" s) <= String.length s.
Proof.
  induction s as [|d s IH]; cbn; [lia|].
  destruct (Ascii.eqb c d); cbn; lia.
Qed.

Lemma class_tokenize_returns p text loc options minL maxL bl wl fuel :
  forall lastIndex n ws ign,
    String.length text + 1 - lastIndex <= fuel ->
    0 < fuel ->
    exists r, tokenize fuel (class_exec true p) text loc options minL maxL bl wl
                lastIndex n ws ign = Ok r.
Proof.
  induction fuel as [|fuel IH]; intros lastIndex n ws ign Hf Hpos; [lia|].
  cbn [tokenize]. unfold class_exec at 1.
  destruct (scan p text 0 lastIndex) as [[j m]|] eqn:Es; [|eauto].
  apply scan_bounds in Es. destruct Es as (H1 & H2 & H3).
  assert (Hnext : forall n' ws' ign',
             exists r, tokenize fuel (class_exec true p) text loc options minL maxL
                         bl wl (j + String.length m) n' ws' ign' = Ok r).
  { intros. apply IH; lia. }
  destruct (match o_stemming options with Some f => f m loc | None => Some m end);
    [|apply Hnext].
  cbn [toLocaleLowerCase host].
  destruct (_ || _); [destruct (negb _)|]; apply Hnext.
Qed.

Lemma default_pattern_compiles :
  exists p, compile default_pattern default_flags = Some (class_exec true p).
Proof. eexists. reflexivity. Qed.

(** On the reference host, an index without a [prepare] callback tokenizes
    every text under every locale name. *)
Lemma getTextInfo_returns idx text loc :
  c_prepare (config idx) = None ->
  exists ti, getTextInfo (String.length text + 2) idx (VString text) (VString loc)
             = Ok ti.
Proof.
  intros Hprep. destruct default_pattern_compiles as (p & Hp).
  unfold getTextInfo. cbn [nullish_or locale_option rbind].
  unfold TextInfo_new.
  cbn [o_locale o_pattern o_includeChars o_flags o_prepare o_stemming o_minLength
       o_maxLength o_blacklist o_whitelist o_useStoplist truthy_string rbind
       locales_get ls_pattern ls_flags ls_stoplist RegExp_new host].
  rewrite Hp, Hprep. cbn [rbind].
  replace (String.length text + 2) with (S (String.length text + 1)) by lia.
  cbn [safe_unidecode unidecode host]. rewrite String.eqb_refl. cbn [rbind].
  pose proof (replace_char_length "'" text) as Hlen.
  edestruct (class_tokenize_returns p (replace_char "'" "" text)) as (r & ->);
    [| |cbn [rbind]; eauto]; lia.
Qed.

(** ** The end-to-end scenarios of the specification *)

Example scenarios :
  run three_records op_contains "brown" = ["R1"; "R2"]
  /\ run three_records op_contains "brown fox" = ["R1"]
  /\ run three_records op_contains (dquote ++ "brown fox" ++ dquote) = ["R1"]
  /\ run three_records op_contains (dquote ++ "fox brown" ++ dquote) = []
  /\ run three_records op_contains "quick OR turtles" = ["R1"; "R2"; "R3"]
  /\ run three_records op_not_contains "brown" = ["R3"]
  /\ run three_records op_contains "br*" = ["R1"; "R2"]
  /\ run three_records op_contains "a*" = [].
Proof. repeat split; vm_compute; reflexivity. Qed.

(** ** The phrase checker against the positions of the words *)

(** C1 (the code departs from the claim). The claim keeps a record exactly
    when some position [p] has [p + i] among the positions of the [i]-th
    word. Record [r1] holds ["b a x b a"]: the positions of [a] are 1 and 4,
    those of [b] are 0 and 3, so ["a b"] occurs nowhere, yet the phrase
    query for ["a b"] keeps [r1]. Record [r2] holds ["a x a b"]: ["a b"]
    occurs at position 2, yet the phrase query drops [r2]. Both come from
    the decoding of [_occurs_], which reads every field but the first in
    the radix of its position. *)
Theorem phrase_query_against_positions :
  repeated_words = [("b", {| path := "r1"; _occurs_ := MString "0,3" |});
                    ("a", {| path := "r1"; _occurs_ := MString "1,4" |});
                    ("x", {| path := "r1"; _occurs_ := MString "2" |})]
  /\ (forall p, In p [1; 4]%N -> ~ In (p + 1)%N [0; 3]%N)
  /\ paths_of (contains (substrate := posting_substrate repeated_words) 9 text_index
                 op_contains "a b" (Some phrase_options) empty_state) = ["r1"]
  /\ late_phrase = [("a", {| path := "r2"; _occurs_ := MString "0,2" |});
                    ("x", {| path := "r2"; _occurs_ := MString "1" |});
                    ("b", {| path := "r2"; _occurs_ := MString "3" |})]
  /\ (In 2%N [0; 2]%N /\ In (2 + 1)%N [3]%N)
  /\ paths_of (contains (substrate := posting_substrate late_phrase) 9 text_index
                 op_contains "a b" (Some phrase_options) empty_state) = [].
Proof.
  split; [vm_compute; reflexivity|]. split.
  { intros p [<-|[<-|[]]] [H|[H|[]]]; discriminate. }
  split; [vm_compute; reflexivity|]. split; [vm_compute; reflexivity|].
  split; [simpl; tauto|]. vm_compute. reflexivity.
Qed.

(** ** The codec read back *)

(** C4 (the code departs from the claim). The claim reads every field of
    [_occurs_] in base 10, so that a stored list is recovered. The list
    [0, 1] is stored as ["0,1"] and read back as [0, NaN]; the list
    [3, 7, 12, 15] is read back as [3, NaN, 1, 1]. *)
Theorem decode_occurs_radix :
  encode_occurs [0; 1]%N = "0,1"
  /\ decode_occurs "0,1" = [Int 0; NaN]
  /\ decode_occurs (encode_occurs [3; 7; 12; 15]%N) = [Int 3; NaN; Int 1; Int 1].
Proof. repeat split; vm_compute; reflexivity. Qed.

(** ** A query of wildcards only *)

Lemma contains_getTextInfo_star fuel :
  contains_getTextInfo fuel text_index default_options "*" = OutOfFuel.
Proof.
  destruct fuel as [|[|[|fuel]]]; try (vm_compute; reflexivity).
  unfold contains_getTextInfo.
  assert (E : exists info,
             TextInfo_new (S (S (S fuel))) (VString "*")
               (query_text_options text_index default_options) = Ok info
             /\ toArray info = ["*"]).
  { eexists. split; [vm_compute; reflexivity | reflexivity]. }
  destruct E as (info & -> & Ew). cbn [rbind]. rewrite Ew.
  now rewrite (ignore_wildcards_only_diverges _ ["*"] 0 eq_refl).
Qed.

(** The query ["*"] does not return, whatever the fuel: the loop over the
    wildcard-only words searches an array it never changes. *)
Lemma wildcard_only_query_never_returns (substrate : Substrate) fuel :
  contains fuel text_index op_contains "*" None empty_state
  = (OutOfFuel, empty_state).
Proof.
  destruct fuel as [|fuel]; [reflexivity|].
  cbn [contains]. change (mem_string op_contains validOperators) with true.
  cbn [negb cache_read cache empty_state].
  change (includes " OR " "*") with false. change (includes dquote "*") with false.
  cbv iota. unfold contains_words, bind, lift.
  now rewrite contains_getTextInfo_star.
Qed.

(** C6, counterexample. ["*abc"] has its first [*] at position 0, below the
    default minimum of 2, is not made of wildcards only, and stays in the
    word set, with nothing recorded as ignored. *)
Lemma leading_star_counterexample :
  indexOf "*" "*abc" 0 = 0%Z
  /\ wildcards_only "*abc" = false
  /\ minimumWildcardWordLength default_options = Some 2%Z
  /\ option_map toArray
       (match contains_getTextInfo 9 text_index default_options "*abc" with
        | Ok info => Some info
        | _ => None
        end) = Some ["*abc"]
  /\ option_map ignored
       (match contains_getTextInfo 9 text_index default_options "*abc" with
        | Ok info => Some info
        | _ => None
        end) = Some [].
Proof. repeat split; vm_compute; reflexivity. Qed.

(** C6, witness: ["hello a* ab*"] loses ["a*"] and keeps ["ab*"]. *)
Lemma query_tokens_pruned_witness :
  exists info,
    contains_getTextInfo 9 text_index default_options "hello a* ab*" = Ok info
    /\ toArray info = ["hello"; "ab*"]
    /\ ignored info = ["a*"].
Proof.
  destruct (query_tokens_pruned (substrate := posting_substrate []) 9 text_index
              default_options "hello a* ab*"
              (the_text_info
                 (TextInfo_new 9 (VString "hello a* ab*")
                    (query_text_options text_index default_options)))
              2%Z)
    as (info & Hrun & Hw & Hi & _).
  - vm_compute. reflexivity.
  - intros w Hw. vm_compute in Hw.
    destruct Hw as [<-|[<-|[<-|[]]]]; reflexivity.
  - reflexivity.
  - lia.
  - exists info. split; [exact Hrun|]. split; [rewrite Hw | rewrite Hi];
      vm_compute; reflexivity.
Defined.

(** ** Witnesses and counterexamples of the other statements *)

(** C8, witness: ["the quick the fox"]. *)
Lemma TextInfo_invariants_witness :
  wordCount (the_text_info (TextInfo_new 8 (VString "the quick the fox") plain_options))
  = 4
  /\ NoDup (toArray (the_text_info
                       (TextInfo_new 8 (VString "the quick the fox") plain_options))).
Proof.
  destruct (TextInfo_invariants 8 (VString "the quick the fox") plain_options
              (the_text_info (TextInfo_new 8 (VString "the quick the fox") plain_options)))
    as (Hc & Hk & _).
  - vm_compute. reflexivity.
  - split; [rewrite Hc; vm_compute; reflexivity | exact Hk].
Defined.






(** C9, witness: the operator ["like"]. *)
Lemma query_operators_witness :
  query (substrate := posting_substrate []) 9 text_index (OpString "like") "x" None
    empty_state = (Throw UnsupportedOperator, empty_state).
Proof.
  apply (query_operators (substrate := posting_substrate []) 9 text_index "x" None
           empty_state); discriminate.
Defined.

(** C10, counterexample. With an index on the key ["0"] the text ["a"] has
    the property ["0"], the branch ["a"] is tested against it, and [test]
    answers [true]. *)
Lemma test_or_counterexample :
  get_prop (VObject [("0", VString "a")]) (key first_element_index) = Ok (VString "a")
  /\ includes " OR " "a OR b" = true
  /\ test 4 first_element_index (VObject [("0", VString "a")]) op_contains "a OR b"
     = Ok (TBool true).
Proof. repeat split; vm_compute; reflexivity. Qed.

(** C10, witness: ["quick OR fox"] on ["quick brown fox"]. *)
Lemma test_or_never_matches_witness :
  test 10 text_index (record "quick brown fox") op_contains "quick OR fox"
  = Ok (TBool false).
Proof.
  eapply (test_or_never_matches 8 text_index (record "quick brown fox")
            "quick brown fox" "quick OR fox");
    vm_compute; reflexivity.
Defined.

(* ================================================================== *)
(** ** The reference substrate honours filters and counts what it finds *)

Lemma posting_substrate_honours_filter postings :
  honours_filter (posting_substrate postings).
Proof.
  intros op w f p. cbn [super_query posting_substrate entries filter].
  rewrite (filter_all (fun _ => true)) by reflexivity.
  apply has_path_filter. intros e <-. reflexivity.
Qed.

Lemma posting_substrate_counts postings :
  counts_matches (posting_substrate postings).
Proof.
  intros op w. cbn [super_count super_query posting_substrate entries].
  destruct (lookup postings op w); [reflexivity | discriminate].
Qed.

(* ================================================================== *)
(** ** Witnesses of the further properties *)

(** X1, witness: ["en-US"] has no stoplist. *)
Lemma locales_get_second_segment_witness :
  ls_stoplist (locales_get "en-US") = None.
Proof.
  exact (locales_get_second_segment "en" "US" ltac:(discriminate)
           ltac:(reflexivity) ltac:(reflexivity) ltac:(reflexivity)).
Defined.

(** X2, witness: ["the quick the fox"]. *)
Lemma toSequence_reconstructs_witness :
  toSequence (the_text_info (TextInfo_new 8 (VString "the quick the fox") plain_options))
  = [Some "the"; Some "quick"; Some "the"; Some "fox"]
  /\ List.length
       (toSequence (the_text_info
                      (TextInfo_new 8 (VString "the quick the fox") plain_options)))
     = wordCount (the_text_info
                    (TextInfo_new 8 (VString "the quick the fox") plain_options)).
Proof.
  destruct (toSequence_reconstructs 8 (VString "the quick the fox") plain_options
              (the_text_info (TextInfo_new 8 (VString "the quick the fox") plain_options)))
    as (Hlen & _).
  - vm_compute. reflexivity.
  - split; [vm_compute; reflexivity | exact Hlen].
Defined.

(** X3, witness: ["jumping"] is cut to ["jumpi"], ["quick"] is kept whole. *)
Lemma stored_words_filtered_witness :
  toArray (the_text_info
             (TextInfo_new 9 (VString "The quick fox is jumping a lot") stop_options))
  = ["quick"; "jumpi"; "a"; "lot"]
  /\ (In "lot" ["a"]
      \/ ((Z.of_nat (String.length "lot") <= 5)%Z
          /\ ((Z.of_nat (String.length "lot") < 5)%Z ->
              (2 <= Z.of_nat (String.length "lot"))%Z
              /\ ~ In "lot" ["fox"]
              /\ (Some true = Some true ->
                  forall stop, ls_stoplist (locales_get "en") = Some stop ->
                               ~ In "lot" stop)))).
Proof.
  split; [vm_compute; reflexivity|].
  apply (stored_words_filtered 9 (VString "The quick fox is jumping a lot") stop_options
           (the_text_info
              (TextInfo_new 9 (VString "The quick fox is jumping a lot") stop_options))).
  - vm_compute. reflexivity.
  - vm_compute. discriminate.
  - vm_compute. tauto.
Defined.

(** X4, witness: ["the"] is ignored once. *)
Lemma ignored_words_distinct_witness :
  ignored (the_text_info
             (TextInfo_new 9 (VString "the fox, the fox and the dog") stop_options))
  = ["the"; "fox"; "and"]
  /\ NoDup (ignored (the_text_info
                       (TextInfo_new 9 (VString "the fox, the fox and the dog")
                          stop_options))).
Proof.
  split; [vm_compute; reflexivity|].
  apply (ignored_words_distinct 9 (VString "the fox, the fox and the dog") stop_options).
  vm_compute. reflexivity.
Defined.

(** X5, witness. *)
Lemma test_not_contains_witness :
  test 9 text_index (record "quick brown fox") op_not_contains "zebra" = Ok TUndefined.
Proof.
  eapply (test_not_contains 8 text_index (record "quick brown fox")).
  - discriminate.
  - reflexivity.
  - discriminate.
  - vm_compute. reflexivity.
Defined.

(** X6, witness. *)
Lemma test_words_witness :
  test 9 text_index (record "quick brown fox") op_contains "fox quick" = Ok (TBool true)
  /\ test 9 text_index (record "quick brown fox") op_contains "fox zebra"
     = Ok (TBool false).
Proof.
  split.
  - edestruct (test_words 8 text_index (record "quick brown fox") (VString "quick brown fox")
                 "fox quick") as (b & Ht & Hb);
      [discriminate | reflexivity | discriminate | vm_compute; reflexivity
       | reflexivity | reflexivity | vm_compute; reflexivity |].
    rewrite Ht. f_equal. f_equal. apply Hb.
    intros w Hw. vm_compute in Hw. destruct Hw as [<-|[<-|[]]]; vm_compute; tauto.
  - vm_compute. reflexivity.
Defined.

(** X7, witness. *)
Lemma test_phrase_never_true_witness :
  test 9 text_index (record "quick brown fox") op_contains
       (dquote ++ "quick brown" ++ dquote)
  <> Ok (TBool true).
Proof.
  eapply (test_phrase_never_true 8 text_index (record "quick brown fox")
            (dquote ++ "quick brown" ++ dquote) (["quick brown"], "") "quick brown").
  - reflexivity.
  - reflexivity.
  - vm_compute. reflexivity.
  - left. left. reflexivity.
  - vm_compute. reflexivity.
  - vm_compute. lia.
Defined.

(** X8, witness. *)
Lemma test_phrase_missing_word_witness :
  test_phrase 8 text_index
    (the_text_info (getTextInfo 8 text_index (VString "quick brown fox") (VString "en")))
    (VString "en") "zebra"
  = Throw TypeError.
Proof.
  eapply (test_phrase_missing_word 8 text_index _ (VString "en") "zebra" _ "zebra").
  - vm_compute. reflexivity.
  - vm_compute. tauto.
  - vm_compute. reflexivity.
Defined.

(** X9, witness: punctuation and case change, the positions do not. *)
Lemma handleRecordUpdate_same_positions_witness :
  update_calls 9 text_index "r1" (record "quick fox") (record "Quick,  FOX!") = Ok [].
Proof.
  apply (handleRecordUpdate_same_positions (substrate := posting_substrate [])
           9 text_index "r1" (record "quick fox") (record "Quick,  FOX!")
           (the_text_info (record_text_info 9 text_index (record "quick fox")))
           (the_text_info (record_text_info 9 text_index (record "Quick,  FOX!")))
           empty_state).
  - vm_compute. reflexivity.
  - vm_compute. reflexivity.
  - vm_compute. reflexivity.
  - intros w o n Ho Hn. apply assoc_In in Ho, Hn. vm_compute in Ho, Hn.
    destruct Ho as [E|[E|[]]]; injection E as <- <-;
      destruct Hn as [E|[E|[]]]; try discriminate E; injection E as <-; reflexivity.
Defined.


(** X11, witness. *)
Lemma build_posts_as_update_witness :
  exists cs,
    update_calls 9 text_index "r1" VNull (record "b a b") = Ok cs
    /\ map (update_posting text_index) cs
       = map add_posting
           (the_adds (build_addCallback 9 text_index (VString "b a b") "p1" [] None))
    /\ map add_posting
         (the_adds (build_addCallback 9 text_index (VString "b a b") "p1" [] None))
       = [Some ("b", "0,2"); Some ("a", "1")].
Proof.
  destruct (build_posts_as_update 9 text_index "r1" (record "b a b") (VString "b a b")
              "p1" [] None
              (the_adds (build_addCallback 9 text_index (VString "b a b") "p1" [] None))
              ["b"; "a"])
    as (postings & cs & H1 & _ & H3 & H4).
  - reflexivity.
  - discriminate.
  - reflexivity.
  - reflexivity.
  - vm_compute. reflexivity.
  - exists cs. split; [exact H3|]. split; [now rewrite H4, H1 | vm_compute; reflexivity].
Defined.

(** X12, witness. *)
Lemma decode_encode_first_witness :
  exists rest,
    decode_occurs (encode_occurs [7; 12; 15]%N) = Int 7 :: rest
    /\ List.length rest <= 2.
Proof.
  destruct (decode_encode_first 7 [12; 15]%N) as (rest & E & Hl & _).
  - repeat constructor.
  - exists rest. split; assumption.
Defined.

(** X13, witness. *)
Lemma check_single_occurrences_witness :
  check (map (fun p => Some (decode_occurs (encode_occurs [p]))) [3; 4; 5]%N) = Ok true
  /\ check (map (fun p => Some (decode_occurs (encode_occurs [p]))) [3; 5]%N) = Ok false.
Proof.
  split; [|vm_compute; reflexivity].
  apply (proj2 (check_single_occurrences 3 4 [5]%N ltac:(repeat constructor))).
  intros [|[|[|[|i]]]] p Hp; cbn in Hp; try discriminate Hp; injection Hp as <-; reflexivity.
Defined.

(** X14, witness. *)
Lemma extract_phrases_terminates_witness :
  exists phrases rest,
    extract_phrases 30 (dquote ++ "brown fox" ++ dquote ++ " quick " ++ dquote ++ "x")
                    [] = Ok (phrases, rest)
    /\ phrase_exec rest 0 = None.
Proof.
  destruct (extract_phrases_terminates 30
              (dquote ++ "brown fox" ++ dquote ++ " quick " ++ dquote ++ "x"))
    as (phrases & rest & E & Hn & _).
  - vm_compute. lia.
  - exists phrases, rest. split; assumption.
Defined.

(** X15, witness: a single quote before a word. *)
Lemma contains_unclosed_quote_witness :
  ~ exists r st',
      contains (substrate := posting_substrate three_records) 9 text_index op_contains
        (dquote ++ "fox") None empty_state = (Ok r, st').
Proof.
  intros (r & st' & H).
  exact (contains_unclosed_quote (substrate := posting_substrate three_records)
           9 text_index op_contains (dquote ++ "fox") None empty_state
           ltac:(reflexivity) ltac:(reflexivity) ltac:(reflexivity) ltac:(reflexivity)
           r st' H).
Defined.

(** X16, witness: a phrase and a word. *)
Lemma contains_phrases_intersect_witness :
  exists r st2,
    contains (substrate := posting_substrate three_records) 10 text_index op_contains
      (dquote ++ "quick brown" ++ dquote ++ " fox") None empty_state = (Ok r, st2)
    /\ has_path "R1" (entries r) = true
    /\ has_path "R2" (entries r) = false.
Proof.
  eassert (Hs : mapM (fun p => query (substrate := posting_substrate three_records)
                                 9 text_index (OpString op_contains) p
                                 (Some (as_phrase (resolve None))))
                     ["quick brown"] empty_state = (Ok _, _))
    by (vm_compute; reflexivity).
  match type of Hs with
  | _ = (_, ?s1) =>
      eassert (Hq : query (substrate := posting_substrate three_records) 9 text_index
                      (OpString op_contains) " fox" (Some (resolve None)) s1
                    = (Ok _, _)) by (vm_compute; reflexivity)
  end.
  match type of Hq with
  | query _ _ _ _ _ ?s1 = (Ok ?rs, ?s2) =>
      assert (Hres : residual_run (substrate := posting_substrate three_records)
                       9 text_index op_contains (resolve None) " fox" s1 [rs] s2)
  end.
  { eapply residual_query; [discriminate | vm_compute; reflexivity | | exact Hq].
    vm_compute. lia. }
  destruct (contains_phrases_intersect (substrate := posting_substrate three_records)
              9 text_index op_contains
              (dquote ++ "quick brown" ++ dquote ++ " fox") None empty_state
              ["quick brown"] " fox" _ _ _ _
              ltac:(reflexivity) ltac:(reflexivity) ltac:(reflexivity) ltac:(reflexivity)
              ltac:(vm_compute; reflexivity) Hs Hres)
    as [Hsome _].
  destruct (Hsome ltac:(discriminate)) as (r & Hr & Hp & _).
  exists r. eexists. split; [exact Hr|].
  split; rewrite Hp; vm_compute; reflexivity.
Defined.

(** X17, witness: the one word of ["a*"] is ignored. *)
Lemma contains_no_words_witness :
  contains (substrate := posting_substrate three_records) 10 text_index op_contains
    "a*" None empty_state
  = (Ok {| entries := [];
           hints := [{| hint_kind := ignoredWord; hint_word := "a*" |}];
           filterKey := Some "text" |}, empty_state).
Proof.
  rewrite (contains_no_words (substrate := posting_substrate three_records)
             9 text_index op_contains "a*" None empty_state
             (the_text_info (contains_getTextInfo 9 text_index (resolve None) "a*"))
             ltac:(reflexivity) ltac:(reflexivity) ltac:(reflexivity) ltac:(reflexivity)
             ltac:(vm_compute; reflexivity) ltac:(vm_compute; reflexivity)).
  vm_compute. reflexivity.
Defined.

(** X18, witness: the plain result of ["fox brown"] answers the phrase
    query for the same string. *)
Lemma contains_result_cached_witness :
  exists r st',
    contains (substrate := posting_substrate three_records) 10 text_index op_contains
      "fox brown" None empty_state = (Ok r, st')
    /\ contains (substrate := posting_substrate three_records) 10 text_index op_contains
         "fox brown" (Some phrase_options) st' = (Ok r, st')
    /\ map path (entries r) = ["R1"].
Proof.
  eassert (Hrun : contains (substrate := posting_substrate three_records) 10 text_index
                    op_contains "fox brown" None empty_state = (Ok _, _))
    by (vm_compute; reflexivity).
  destruct (contains_result_cached (substrate := posting_substrate three_records)
              9 text_index op_contains "fox brown" None empty_state _ _
              (the_text_info (contains_getTextInfo 9 text_index (resolve None) "fox brown"))
              ltac:(reflexivity) ltac:(reflexivity) ltac:(reflexivity)
              ltac:(vm_compute; reflexivity) ltac:(vm_compute; discriminate) Hrun)
    as [_ Hagain].
  eexists _, _. split; [exact Hrun|]. split; [apply Hagain | vm_compute; reflexivity].
Defined.

(** X19, witness: ["fox ??"]. *)
Lemma contains_wildcards_only_word_witness :
  ~ exists r st',
      contains (substrate := posting_substrate three_records) 12 text_index op_contains
        "fox ??" None empty_state = (Ok r, st').
Proof.
  intros (r & st' & H).
  assert (Hnew : TextInfo_new 9 (VString "fox ??")
                   (query_text_options text_index (resolve None))
                 = Ok (the_text_info
                         (TextInfo_new 9 (VString "fox ??")
                            (query_text_options text_index (resolve None)))))
    by (vm_compute; reflexivity).
  assert (Hw : In "??" (toArray (the_text_info
                                   (TextInfo_new 9 (VString "fox ??")
                                      (query_text_options text_index (resolve None))))))
    by (vm_compute; tauto).
  pose proof (contains_wildcards_only_word (substrate := posting_substrate three_records)
                9 text_index op_contains "fox ??" None empty_state _ "??" Hnew Hw)
    as Hnever.
  specialize (Hnever eq_refl eq_refl eq_refl eq_refl).
  exact (Hnever 12 r st' H).
Defined.

(** X20, witness: ["brown fox"] over the three records. *)
Lemma contains_all_words_witness :
  exists r st',
    contains (substrate := posting_substrate three_records) 10 text_index op_contains
      "brown fox" None empty_state = (Ok r, st')
    /\ has_path "R1" (entries r) = true
    /\ has_path "R2" (entries r) = false.
Proof.
  destruct (contains_all_words (substrate := posting_substrate three_records)
              (posting_substrate_honours_filter three_records)
              9 text_index "brown fox" None empty_state
              (the_text_info (contains_getTextInfo 9 text_index (resolve None) "brown fox"))
              (posting_substrate_counts three_records)
              ltac:(reflexivity) ltac:(reflexivity) ltac:(reflexivity)
              ltac:(vm_compute; reflexivity) ltac:(vm_compute; discriminate)
              ltac:(vm_compute; discriminate))
    as (r & st' & Hr & Hp).
  exists r, st'. split; [exact Hr|]. split; rewrite Hp; vm_compute; reflexivity.
Defined.

(** X21, witness: the phrase query for ["brown fox"]. *)
Lemma contains_every_word_witness :
  exists r st',
    contains (substrate := posting_substrate three_records) 10 text_index op_contains
      "brown fox" (Some phrase_options) empty_state = (Ok r, st')
    /\ has_path "R1" (entries r) = true
    /\ forallb (holds_word (substrate := posting_substrate three_records) "R1")
               ["brown"; "fox"] = true.
Proof.
  eassert (Hrun : contains (substrate := posting_substrate three_records) 10 text_index
                    op_contains "brown fox" (Some phrase_options) empty_state = (Ok _, _))
    by (vm_compute; reflexivity).
  eexists _, _. split; [exact Hrun|].
  assert (Hp : has_path "R1"
                 (entries (match fst (contains (substrate := posting_substrate three_records)
                                        10 text_index op_contains "brown fox"
                                        (Some phrase_options) empty_state) with
                           | Ok r => r
                           | _ => {| entries := []; hints := []; filterKey := None |}
                           end)) = true) by (vm_compute; reflexivity).
  rewrite Hrun in Hp. cbn [fst] in Hp. split; [exact Hp|].
  exact (contains_every_word (substrate := posting_substrate three_records)
           (posting_substrate_honours_filter three_records)
           9 text_index "brown fox" (Some phrase_options) empty_state
           (the_text_info
              (contains_getTextInfo 9 text_index (resolve (Some phrase_options)) "brown fox"))
           _ _ ltac:(reflexivity) ltac:(reflexivity) ltac:(reflexivity)
           ltac:(vm_compute; reflexivity) Hrun "R1" Hp).
Defined.

